(** * QLcs: generalized suffix tree and common-substring extraction

    A shallow embedding of [qlcs/qlcs.py].  Python objects live in an arena:
    a node reference is its position in the list [nodes] of the tree, so that
    the aliasing of [parent], [suffix_link] and [edges] is explicit.  The
    [identifier] of a node, which only the diagnostic members ([to_graphviz],
    [__str__]) read, is a parameter of their embedding.  Symbols are code points below 256, for which Python's
    [\d] is exactly ['0'..'9']. *)

From Stdlib Require Import ZArith String Ascii DecimalString DecimalNat Sorted.
From stdpp Require Import base option list gmap fin_maps strings.

Local Open Scope Z_scope.

(** ** Python strings *)

Abbreviation pystr := (list ascii).

Coercion list_ascii_of_string : string >-> list.

(** [str(n)] for a non-negative integer. *)
Definition str (n : nat) : pystr :=
  list_ascii_of_string (NilZero.string_of_uint (Nat.to_uint n)).

(** [len(s)] *)
Definition len (s : pystr) : Z := Z.of_nat (length s).

(** Outcome of a Python computation.  [IndexError] is the only exception the
    modelled code can raise; [OutOfFuel] stands for a loop that has not
    finished within the given number of iterations, and in
    [find_leaves_in_subtree], which calls itself in the source, for a
    recursion deeper than the given number of nested calls (where the
    interpreter raises RecursionError); [Dangling] is a reference
    outside the arena, which no Python state has. *)
Inductive error := IndexError | OutOfFuel | Dangling.

Inductive res (A : Type) :=
| Ok (a : A)
| Raise (e : error).
Arguments Ok {A} a.
Arguments Raise {A} e.

Global Instance res_ret : MRet res := @Ok.
Global Instance res_bind : MBind res := λ A B f m,
  match m with Ok a => f a | Raise e => Raise e end.

Definition get_some {A} (e : error) (o : option A) : res A :=
  match o with Some a => Ok a | None => Raise e end.

(** [s[i]]: negative indices count from the end, anything else out of range
    raises [IndexError]. *)
Definition getitem (s : pystr) (i : Z) : res ascii :=
  if 0 <=? i then get_some IndexError (s !! Z.to_nat i)
  else if - len s <=? i then get_some IndexError (s !! Z.to_nat (len s + i))
  else Raise IndexError.

(** [s[a:b]]: negative bounds count from the end, then both are clamped. *)
Definition clamp (s : pystr) (i : Z) : nat :=
  Z.to_nat (Z.min (len s) (if 0 <=? i then i else Z.max 0 (len s + i))).

Definition slice (s : pystr) (a b : Z) : pystr :=
  take (clamp s b - clamp s a)%nat (drop (clamp s a) s).

(** [s.find(c)] for a single symbol [c], [-1] when absent. *)
Fixpoint str_find (c : ascii) (s : pystr) : Z :=
  match s with
  | [] => -1
  | x :: s' => if decide (x = c) then 0 else
                 let r := str_find c s' in if r <? 0 then -1 else r + 1
  end.

(** [s.split(c)] for a single symbol [c]. *)
Fixpoint str_split (c : ascii) (s : pystr) : list pystr :=
  match s with
  | [] => [[]]
  | x :: s' =>
      if decide (x = c) then [] :: str_split c s'
      else match str_split c s' with
           | [] => [[x]]
           | p :: ps => (x :: p) :: ps
           end
  end.

Definition is_digit (c : ascii) : bool :=
  (48 <=? nat_of_ascii c)%nat && (nat_of_ascii c <=? 57)%nat.

Fixpoint lstrip_digits (s : pystr) : pystr :=
  match s with
  | c :: s' => if is_digit c then lstrip_digits s' else s
  | [] => []
  end.

(** [s.strip('0123456789')] *)
Definition strip_digits (s : pystr) : pystr :=
  reverse (lstrip_digits (reverse (lstrip_digits s))).

(** ** The regular expression [(.*?)\$?\d*$]

    A backtracking matcher for this one pattern.  [at_end] is [$]: the end of
    the string, or just before a newline that ends the string. *)
Definition newline : ascii := ascii_of_nat 10.
Definition dollar : ascii := ascii_of_nat 36.

Definition at_end (s : pystr) : bool :=
  match s with
  | [] => true
  | [c] => bool_decide (c = newline)
  | _ => false
  end.

(** [\d*$], greedy with backtracking; returns what is left after the match. *)
Fixpoint match_digits_end (s : pystr) : option pystr :=
  match s with
  | c :: s' =>
      if is_digit c then
        match match_digits_end s' with
        | Some r => Some r
        | None => if at_end s then Some s else None
        end
      else if at_end s then Some s else None
  | [] => Some []
  end.

(** [\$?\d*$], the optional dollar tried first. *)
Definition match_tail (s : pystr) : option pystr :=
  match s with
  | c :: s' =>
      if decide (c = dollar) then
        match match_digits_end s' with
        | Some r => Some r
        | None => match_digits_end s
        end
      else match_digits_end s
  | [] => match_digits_end s
  end.

(** The whole pattern anchored at the head of [s]: the lazy group grows one
    symbol (not a newline) at a time until the tail matches.  Returns group 1
    and what is left after the match. *)
Fixpoint match_here (s : pystr) : option (pystr * pystr) :=
  match match_tail s with
  | Some r => Some ([], r)
  | None =>
      match s with
      | c :: s' =>
          if decide (c = newline) then None
          else '(g, r) ← match_here s'; Some (c :: g, r)
      | [] => None
      end
  end.

(** [re.sub(r'(.*?)\$?\d*$', r'\1', s)].  The leftmost match is replaced by
    its group 1.  What is left after it is empty or a single newline, where
    only empty matches with an empty group 1 follow, so it is copied. *)
Fixpoint strip_unique_ending (s : pystr) : pystr :=
  match match_here s with
  | Some (g, r) => g ++ r
  | None =>
      match s with
      | c :: s' => c :: strip_unique_ending s'
      | [] => []
      end
  end.

(** ** Nodes and the arena *)

(** [END_OF_STRING = 10**10], the open end of a leaf edge. *)
Definition END_OF_STRING : Z := 10 ^ 10.

(** A Python [dict] keyed by symbols, in insertion order.  Assigning to a key
    that is present keeps its place. *)
Abbreviation dict := (list (ascii * nat)).

Fixpoint dict_get (key : ascii) (d : dict) : option nat :=
  match d with
  | [] => None
  | (k, v) :: d' => if decide (k = key) then Some v else dict_get key d'
  end.

Fixpoint dict_set (key : ascii) (v : nat) (d : dict) : dict :=
  match d with
  | [] => [(key, v)]
  | (k, v0) :: d' =>
      if decide (k = key) then (k, v) :: d' else (k, v0) :: dict_set key v d'
  end.

Record SuffixTreeNode := mkNode {
  suffix_link : option nat;
  edges : dict;
  parent : option nat;
  bit_vector : Z;
  start : Z;
  end_ : Z
}.

Definition set_suffix_link (v : option nat) (n : SuffixTreeNode) :=
  mkNode v (edges n) (parent n) (bit_vector n) (start n) (end_ n).
Definition set_edges (v : dict) (n : SuffixTreeNode) :=
  mkNode (suffix_link n) v (parent n) (bit_vector n) (start n) (end_ n).
Definition set_parent (v : option nat) (n : SuffixTreeNode) :=
  mkNode (suffix_link n) (edges n) v (bit_vector n) (start n) (end_ n).
Definition set_bit_vector (v : Z) (n : SuffixTreeNode) :=
  mkNode (suffix_link n) (edges n) (parent n) v (start n) (end_ n).
Definition set_start (v : Z) (n : SuffixTreeNode) :=
  mkNode (suffix_link n) (edges n) (parent n) (bit_vector n) v (end_ n).
Definition set_end (v : Z) (n : SuffixTreeNode) :=
  mkNode (suffix_link n) (edges n) (parent n) (bit_vector n) (start n) v.

(** [SuffixTreeNode.__init__] *)
Definition new_node (start end_ : Z) : SuffixTreeNode :=
  mkNode None [] None 0 start end_.

Abbreviation arena := (list SuffixTreeNode).

(** Dereference. *)
Definition deref (h : arena) (r : nat) : res SuffixTreeNode :=
  get_some Dangling (h !! r).

(** Attribute assignment through a reference. *)
Definition assign (f : SuffixTreeNode → SuffixTreeNode) (r : nat) (h : arena)
  : res arena :=
  n ← deref h r; Ok (<[r := f n]> h).

(** [self.add_child(key, start, end)] *)
Definition add_child (h : arena) (self : nat) (key : ascii) (start end_ : Z)
  : res (arena * nat) :=
  _ ← deref h self;
  let child := length h in
  let h := h ++ [set_parent (Some self) (new_node start end_)] in
  h ← assign (λ n, set_edges (dict_set key child (edges n)) n) self h;
  Ok (h, child).

(** [self.add_exisiting_node_as_child(key, node)] *)
Definition add_exisiting_node_as_child (h : arena) (self : nat) (key : ascii)
    (node : nat) : res arena :=
  h ← assign (set_parent (Some self)) node h;
  assign (λ n, set_edges (dict_set key node (edges n)) n) self h.

(** [self.get_edge_length(current_index)] *)
Definition get_edge_length (n : SuffixTreeNode) (current_index : Z) : Z :=
  Z.min (end_ n) (current_index + 1) - start n.

(** ** The tree *)

Record SuffixTree := mkTree {
  root : nat;
  nodes : arena;
  input_string : pystr;
  strings_count : nat;
  leaves : list nat;
  classes : gmap pystr (list nat)
}.

(** [SuffixTree.__init__] *)
Definition new_tree : SuffixTree :=
  mkTree 0 [new_node 0 END_OF_STRING] [] 0 [] ∅.

(** ** Ukkonen's construction: [append_string] *)

(** The local variables of the main loop, with the arena they act on. *)
Record builder := mkBuilder {
  b_nodes : arena;
  active_node : nat;
  active_edge : Z;
  active_length : Z;
  remainder : Z;
  previous_node : option nat;
  new_leaves : list nat
}.

(** How an iteration of the [while] loop ends: at its bottom or by [continue]
    ([Next]), or by [break]. *)
Inductive flow := Next | Break.

(** [if previous_node is not None: previous_node.suffix_link = target] *)
Definition link (h : arena) (previous_node : option nat) (target : nat)
  : res arena :=
  match previous_node with
  | Some p => assign (set_suffix_link (Some target)) p h
  | None => Ok h
  end.

Section main_circle.
Variable input : pystr.
Variable the_root : nat.
Variable current_string_index : nat.

Definition leaf_bit : Z := Z.shiftl 1 (Z.of_nat current_string_index).

(** Lines 205-212: [remainder -= 1], then follow the suffix link or go to
    the root. *)
Definition follow (index : Z) (s : builder) : res builder :=
  let remainder := remainder s - 1 in
  if bool_decide (active_node s = the_root) && (0 <? active_length s) then
    Ok (mkBuilder (b_nodes s) (active_node s) (index - remainder + 1)
          (active_length s - 1) remainder (previous_node s) (new_leaves s))
  else
    n ← deref (b_nodes s) (active_node s);
    Ok (mkBuilder (b_nodes s) (default the_root (suffix_link n))
          (active_edge s) (active_length s) remainder (previous_node s)
          (new_leaves s)).

(** Lines 151-212: one iteration of the [while remainder > 0] loop. *)
Definition extend (index : Z) (s : builder) : res (flow * builder) :=
  let active_edge := if active_length s =? 0 then index else active_edge s in
  key ← getitem input active_edge;
  an ← deref (b_nodes s) (active_node s);
  match dict_get key (edges an) with
  | None =>
      '(h, leaf_node) ← add_child (b_nodes s) (active_node s) key index
                          END_OF_STRING;
      h ← assign (set_bit_vector leaf_bit) leaf_node h;
      h ← link h (previous_node s) (active_node s);
      s' ← follow index
             (mkBuilder h (active_node s) active_edge (active_length s)
                (remainder s) (Some (active_node s))
                (new_leaves s ++ [leaf_node]));
      Ok (Next, s')
  | Some next_node =>
      nn ← deref (b_nodes s) next_node;
      let next_edge_length := get_edge_length nn index in
      if active_length s >=? get_edge_length nn index then
        Ok (Next,
            mkBuilder (b_nodes s) next_node (active_edge + next_edge_length)
              (active_length s - next_edge_length) (remainder s)
              (previous_node s) (new_leaves s))
      else
        c1 ← getitem input (start nn + active_length s);
        c2 ← getitem input index;
        if decide (c1 = c2) then
          h ← link (b_nodes s) (previous_node s) (active_node s);
          Ok (Break,
              mkBuilder h (active_node s) active_edge (active_length s + 1)
                (remainder s) (Some (active_node s)) (new_leaves s))
        else
          '(h, split_node) ← add_child (b_nodes s) (active_node s) key
                               (start nn) (start nn + active_length s);
          nn ← deref h next_node;
          h ← assign (set_start (start nn + active_length s)) next_node h;
          nn ← deref h next_node;
          k ← getitem input (start nn);
          h ← add_exisiting_node_as_child h split_node k next_node;
          k ← getitem input index;
          '(h, leaf_node) ← add_child h split_node k index END_OF_STRING;
          h ← assign (set_bit_vector leaf_bit) leaf_node h;
          h ← link h (previous_node s) split_node;
          s' ← follow index
                 (mkBuilder h (active_node s) active_edge (active_length s)
                    (remainder s) (Some split_node)
                    (new_leaves s ++ [leaf_node]));
          Ok (Next, s')
  end.

(** [while remainder > 0: ...] *)
Fixpoint while_remainder (fuel : nat) (index : Z) (s : builder)
  : res builder :=
  if 0 <? remainder s then
    match fuel with
    | O => Raise OutOfFuel
    | S fuel =>
        '(f, s') ← extend index s;
        match f with
        | Break => Ok s'
        | Next => while_remainder fuel index s'
        end
    end
  else Ok s.

(** Lines 148-212: the body of [for index in range(...)]. *)
Definition for_index (fuel : nat) (s : builder) (index : Z) : res builder :=
  while_remainder fuel index
    (mkBuilder (b_nodes s) (active_node s) (active_edge s) (active_length s)
       (remainder s + 1) None (new_leaves s)).

Fixpoint main_circle (fuel : nat) (s : builder) (indices : list Z)
  : res builder :=
  match indices with
  | [] => Ok s
  | index :: indices => s ← for_index fuel s index; main_circle fuel s indices
  end.
End main_circle.

(** Lines 214-216: [for leaf in new_leaves: leaf.end = len(self.input_string)] *)
Fixpoint update_ends (h : arena) (new_leaves : list nat) (e : Z) : res arena :=
  match new_leaves with
  | [] => Ok h
  | leaf :: new_leaves => h ← assign (set_end e) leaf h; update_ends h new_leaves e
  end.

(** Lines 117-133: the new string, with its ending, joins the buffer and a
    class. *)
Definition register (t : SuffixTree) (input_string0 : pystr)
    (class_id : option pystr) : SuffixTree :=
  let current_string_index := strings_count t in
  let input_string1 := input_string0 ++ dollar :: str current_string_index in
  let class_id := default (dollar :: str current_string_index) class_id in
  mkTree (root t) (nodes t) (input_string t ++ input_string1)
    (strings_count t + 1) (leaves t)
    (match classes t !! class_id with
     | Some members => <[class_id := members ++ [current_string_index]]> (classes t)
     | None => <[class_id := [current_string_index]]> (classes t)
     end).

(** Lines 135-217, on the tree that [register] left: [start_index] and
    [current_string_index] were read before it. *)
Definition build (fuel : nat) (t : SuffixTree) (start_index : Z)
    (current_string_index : nat) : res SuffixTree :=
  s ← main_circle (input_string t) (root t) current_string_index fuel
        (mkBuilder (nodes t) (root t) 0 0 0 None [])
        (seqZ start_index (len (input_string t) - start_index));
  h ← update_ends (b_nodes s) (new_leaves s) (len (input_string t));
  Ok (mkTree (root t) h (input_string t) (strings_count t)
        (leaves t ++ new_leaves s) (classes t)).

(** [SuffixTree.append_string]; [fuel] bounds the iterations of each run of
    the [while] loop. *)
Definition append_string (fuel : nat) (t : SuffixTree) (input_string0 : pystr)
    (class_id : option pystr) : res SuffixTree :=
  build fuel (register t input_string0 class_id) (len (input_string t))
    (strings_count t).

(** ** Extraction: [find_common_substrings] *)

(** [SuffixTree.is_successful] *)
Definition is_successful (classes : gmap pystr (list nat)) (bit_vector : Z)
  : bool :=
  forallb
    (λ cls : list nat,
       existsb (λ representative,
                  Z.shiftr bit_vector (Z.of_nat representative) mod 2 =? 1) cls)
    (snd <$> map_to_list classes).

(** [_extract_identifiers]: the loop shifts the vector right until it is
    zero, which is a walk along its binary digits. *)
Fixpoint extract_bits (p : positive) (identifier : nat) : list nat :=
  match p with
  | xH => [identifier]
  | xO p => extract_bits p (S identifier)
  | xI p => identifier :: extract_bits p (S identifier)
  end.

Definition _extract_identifiers (bit_vector : Z) : list nat :=
  match bit_vector with
  | Zpos p => extract_bits p 0
  | _ => []
  end.

(** Lines 228-241: the walk from one leaf towards the root.  Every node on it
    takes one unit of [fuel]. *)
Fixpoint walk_up (fuel : nat) (classes : gmap pystr (list nat)) (h : arena)
    (lowest_common_ancestors : gset nat) (node : option nat)
    (prev_bit_vector : Z) : res (arena * gset nat) :=
  match node with
  | None => Ok (h, lowest_common_ancestors)
  | Some r =>
      match fuel with
      | O => Raise OutOfFuel
      | S fuel =>
          n ← deref h r;
          if negb (prev_bit_vector =? 0)
             && (Z.lor (bit_vector n) prev_bit_vector =? bit_vector n)
          then Ok (h, lowest_common_ancestors)
          else
            let bv := Z.lor (bit_vector n) prev_bit_vector in
            h ← assign (set_bit_vector bv) r h;
            walk_up fuel classes h
              (if is_successful classes bv
               then {[r]} ∪ lowest_common_ancestors
               else lowest_common_ancestors)
              (parent n) bv
      end
  end.

(** Lines 227-241: [for leaf in self.leaves]. *)
Fixpoint propagate (classes : gmap pystr (list nat)) (h : arena)
    (lowest_common_ancestors : gset nat) (leaves : list nat)
  : res (arena * gset nat) :=
  match leaves with
  | [] => Ok (h, lowest_common_ancestors)
  | leaf :: leaves =>
      '(h, lca) ← walk_up (length h) classes h lowest_common_ancestors
                    (Some leaf) 0;
      propagate classes h lca leaves
  end.

(** Lines 250-255: the labels from a node up to the root. *)
Fixpoint path_label (fuel : nat) (t : SuffixTree) (node : nat)
    (common_substring : pystr) : res pystr :=
  match fuel with
  | O => Raise OutOfFuel
  | S fuel =>
      n ← deref (nodes t) node;
      match parent n with
      | None => Ok common_substring
      | Some p =>
          path_label fuel t p
            (slice (input_string t) (start n) (end_ n) ++ common_substring)
      end
  end.

(** [SuffixTree.find_leaves_in_subtree]; [fuel] is the number of nested calls
    that are allowed: one call for each level of the tree that is visited. *)
Fixpoint find_leaves_in_subtree (fuel : nat) (t : SuffixTree) (r : nat)
  : res (list (nat * Z)) :=
  match fuel with
  | O => Raise OutOfFuel
  | S fuel =>
      n ← deref (nodes t) r;
      let substr_len :=
        str_find dollar (slice (input_string t) (start n) (end_ n)) in
      if 0 <=? substr_len then
        Ok ((λ i, (i, substr_len)) <$> _extract_identifiers (bit_vector n))
      else
        (fix children (es : dict) (vals : list (nat * Z)) :=
           match es with
           | [] => Ok vals
           | (k, child) :: es =>
               new_vals ← find_leaves_in_subtree fuel t child;
               children es
                 (vals ++ ((λ tple : nat * Z,
                              (tple.1, tple.2 + end_ n - start n)) <$> new_vals))
           end) (edges n) []
  end.

(** [SuffixTree.get_string_lengths] *)
Definition get_string_lengths (t : SuffixTree) : list Z :=
  len <$> (strip_digits <$> str_split dollar (input_string t)).

(** [SuffixTree._format_positions] *)
Fixpoint format_loop (positions : list (nat * Z)) (node_substr_len
    matching_len : Z) (sizes : list Z) (return_value : list (list Z))
  : res (list (list Z)) :=
  match positions with
  | [] => Ok return_value
  | (identifiers, from_last) :: positions =>
      size ← get_some IndexError (sizes !! identifiers);
      let index := size - (from_last - node_substr_len) - matching_len in
      l ← get_some IndexError (return_value !! identifiers);
      format_loop positions node_substr_len matching_len sizes
        (<[identifiers := l ++ [index]]> return_value)
  end.

Definition _format_positions (t : SuffixTree) (positions : list (nat * Z))
    (node_substr_len matching_len : Z) (sizes : list Z)
  : res (list (list Z)) :=
  format_loop positions node_substr_len matching_len sizes
    (replicate (strings_count t) []).

(** Lines 249-269: [for common_ancestor in lowest_common_ancestors], in the
    order [ancestors] in which the set yields its elements. *)
Fixpoint materialize (t : SuffixTree) (min_substr_len : Z)
    (ancestors : list nat) (common_substrings_set : gset pystr)
    (return_value : gmap pystr (list (list Z)))
  : res (gmap pystr (list (list Z))) :=
  match ancestors with
  | [] => Ok return_value
  | common_ancestor :: ancestors =>
      common_substring ← path_label (length (nodes t)) t common_ancestor [];
      let common_substring := strip_unique_ending common_substring in
      if (min_substr_len <=? len common_substring)
         && bool_decide (common_substring ∉ common_substrings_set)
      then
        positions ← find_leaves_in_subtree (length (nodes t)) t common_ancestor;
        ca ← deref (nodes t) common_ancestor;
        positions ← _format_positions t positions (end_ ca - start ca)
                      (len common_substring) (get_string_lengths t);
        materialize t min_substr_len ancestors
          ({[common_substring]} ∪ common_substrings_set)
          (<[common_substring := positions]> return_value)
      else materialize t min_substr_len ancestors common_substrings_set
             return_value
  end.

(** Lines 224-241 of [find_common_substrings]: the bit vectors are propagated
    in place, and the set of candidates is collected. *)
Definition propagation (t : SuffixTree) : res (SuffixTree * gset nat) :=
  '(h, lca) ← propagate (classes t) (nodes t) ∅ (leaves t);
  Ok (mkTree (root t) h (input_string t) (strings_count t) (leaves t)
        (classes t), lca).

(** [SuffixTree.find_common_substrings].  A Python set yields its elements in
    an order the program does not control: [set_order] is that order, a
    permutation of the elements.  The result is the returned mapping together
    with the tree as the call leaves it.  The recursion of
    [find_leaves_in_subtree] is given as many nested calls as the tree has
    nodes, which no subtree needs: what is embedded is the call under an
    interpreter whose recursion limit the depth of the tree does not reach,
    and statements about a call that returns do not cover a call that the
    interpreter ends with RecursionError. *)
Definition find_common_substrings (set_order : gset nat → list nat)
    (t : SuffixTree) (min_substr_len : Z)
  : res (gmap pystr (list (list Z)) * SuffixTree) :=
  '(t, lca) ← propagation t;
  return_value ← materialize t min_substr_len (set_order lca) ∅ ∅;
  Ok (return_value, t).

(** ** Diagnostics: [to_graphviz] and [__str__] *)

Definition quote : ascii := ascii_of_nat 34.
Definition backslash : ascii := ascii_of_nat 92.

(** ['{0:b}'.format(z)] *)
Fixpoint bin_digits (p : positive) : pystr :=
  match p with
  | xH => ["1"%char]
  | xO p => bin_digits p ++ ["0"%char]
  | xI p => bin_digits p ++ ["1"%char]
  end.

Definition format_b (z : Z) : pystr :=
  match z with
  | Z0 => ["0"%char]
  | Zpos p => bin_digits p
  | Zneg p => "-"%char :: bin_digits p
  end.

(** [s.zfill(width)]: the zeros go after a leading sign. *)
Definition zfill (width : nat) (s : pystr) : pystr :=
  let zeros := replicate (width - length s) "0"%char in
  match s with
  | c :: s' =>
      if bool_decide (c = "+"%char ∨ c = "-"%char) then c :: zeros ++ s'
      else zeros ++ s
  | [] => zeros
  end.

(** [SuffixTreeNode.__str__]; [identifier] gives the [identifier] attribute
    of a node, which the class counter fixed when the node was made. *)
Definition node_str (identifier : nat → nat) (node : nat) : pystr :=
  ("id=" : pystr) ++ str (identifier node).

Definition graphviz_header : pystr :=
  "digraph G {edge [arrowsize=0.4,fontsize=10];".

(** Lines 281-286: the statement of a node. *)
Definition graphviz_statement (identifier : nat → nat) (t : SuffixTree)
    (node : nat) (n : SuffixTreeNode) : pystr :=
  str (identifier node) ++ ("[label=" : pystr) ++ [quote]
  ++ str (identifier node) ++ [backslash; "n"%char]
  ++ zfill (strings_count t) (format_b (bit_vector n)) ++ [quote]
  ++ (if bit_vector n =? 2 ^ Z.of_nat (strings_count t) - 1
      then (",style=" : pystr) ++ [quote] ++ ("filled" : pystr) ++ [quote]
           ++ (",fillcolor=" : pystr) ++ [quote] ++ ("red" : pystr) ++ [quote]
      else [])
  ++ ("];" : pystr).

(** Line 288: the dashed arrow of a suffix link. *)
Definition graphviz_link (identifier : nat → nat) (node target : nat) : pystr :=
  str (identifier node) ++ ("->" : pystr) ++ str (identifier target)
  ++ ("[style=" : pystr) ++ [quote] ++ ("dashed" : pystr) ++ [quote]
  ++ ("];" : pystr).

(** Line 292: the arrow to a child, with the label of its edge. *)
Definition graphviz_edge (identifier : nat → nat) (node child : nat)
    (label : pystr) : pystr :=
  str (identifier node) ++ ("->" : pystr) ++ str (identifier child)
  ++ ("[label=" : pystr) ++ [quote] ++ label ++ [quote] ++ ("];" : pystr).

(** Lines 281-298, for a node that is given.  The method calls itself for
    every child: [fuel] is the number of nested calls that the interpreter
    allows, and [OutOfFuel] stands for the RecursionError with which it ends
    a deeper recursion. *)
Fixpoint graphviz_node (fuel : nat) (identifier : nat → nat) (t : SuffixTree)
    (node : nat) (output : pystr) : res pystr :=
  match fuel with
  | O => Raise OutOfFuel
  | S fuel =>
      n ← deref (nodes t) node;
      let output := output ++ graphviz_statement identifier t node n in
      output ← match suffix_link n with
               | Some target =>
                   _ ← deref (nodes t) target;
                   Ok (output ++ graphviz_link identifier node target)
               | None => Ok output
               end;
      output ←
        (fix children (es : dict) (output : pystr) :=
           match es with
           | [] => Ok output
           | (_, child) :: es =>
               c ← deref (nodes t) child;
               let label := slice (input_string t) (start c) (end_ c) in
               output ← graphviz_node fuel identifier t child
                          (output ++ graphviz_edge identifier node child label);
               children es output
           end) (edges n) output;
      Ok (if bool_decide (node = root t) then output ++ ["}"%char] else output)
  end.

(** [SuffixTree.to_graphviz(node, output)] *)
Definition to_graphviz (fuel : nat) (identifier : nat → nat) (t : SuffixTree)
    (node : option nat) (output : pystr) : res pystr :=
  match node with
  | None => graphviz_node fuel identifier t (root t) graphviz_header
  | Some node => graphviz_node fuel identifier t node output
  end.

(** [SuffixTree.__str__] *)
Definition tree_str (fuel : nat) (identifier : nat → nat) (t : SuffixTree)
  : res pystr :=
  to_graphviz fuel identifier t None [].

(** * Vocabulary of the statements

    The histories of calls, the place of a string in the buffer, the leaves
    of a string, subtrees, substrings, and the trees of the scenarios. *)

(** The string with index [i], with its ending. *)
Definition terminated (i : nat) (s : pystr) : pystr := s ++ dollar :: str i.

(** The buffer after the strings [strs] have been appended. *)
Definition buffer_of (strs : list pystr) : pystr := concat (imap terminated strs).

(** Where the string with index [k] starts and ends in the buffer. *)
Definition string_start (strs : list pystr) (k : nat) : Z :=
  len (buffer_of (take k strs)).
Definition string_end (strs : list pystr) (k : nat) : Z :=
  len (buffer_of (take (S k) strs)).

(** [built ops t]: the calls [append_string(s, c)] for [(s, c)] in [ops], in
    this order on a new tree, have returned and left the tree [t]. *)
Inductive built : list (pystr * option pystr) → SuffixTree → Prop :=
| built_new : built [] new_tree
| built_append ops t fuel s c t' :
    built ops t → append_string fuel t s c = Ok t' →
    built (ops ++ [(s, c)]) t'.

(** The calls of [ops] on a new tree, one after the other. *)
Definition run (fuel : nat) (ops : list (pystr * option pystr)) : res SuffixTree :=
  foldl (λ t op, t ← t; append_string fuel t op.1 op.2) (Ok new_tree) ops.

(** [l] is a leaf of the string with index [k]: it is in the list of leaves,
    carries the bit of [k] alone, and its edge lies in the part of the buffer
    that belongs to string [k] and ends where that string ends. *)
Definition leaf_of (strs : list pystr) (t : SuffixTree) (l k : nat) : Prop :=
  l ∈ leaves t ∧ (k < length strs)%nat ∧
  ∃ n, nodes t !! l = Some n ∧
    bit_vector n = Z.shiftl 1 (Z.of_nat k) ∧
    string_start strs k ≤ start n ∧ start n < end_ n ∧
    end_ n = string_end strs k.

(** [in_subtree h i l]: following [edges] from [i] arrives at [l]. *)
Inductive in_subtree (h : arena) : nat → nat → Prop :=
| sub_refl i : in_subtree h i i
| sub_child i ni key c l :
    h !! i = Some ni → (key, c) ∈ edges ni → in_subtree h c l →
    in_subtree h i l.

(** [occurs a b]: [a] is a substring of [b]. *)
Fixpoint is_prefix (a b : pystr) : bool :=
  match a, b with
  | [], _ => true
  | x :: a, y :: b => bool_decide (x = y) && is_prefix a b
  | _ :: _, [] => false
  end.

Fixpoint occurs (a b : pystr) : bool :=
  is_prefix a b || match b with [] => false | _ :: b' => occurs a b' end.

Definition tree_of (ops : list (pystr * option pystr)) : SuffixTree :=
  match run 100 ops with Ok t => t | Raise _ => new_tree end.

Definition scenario_A : list (pystr * option pystr) :=
  [("xabxac" : pystr, None)].

Definition scenario_B : list (pystr * option pystr) :=
  [("abcdef" : pystr, Some ("A" : pystr)); ("xyzabc" : pystr, Some ("B" : pystr))].

Definition tree_A : SuffixTree := Eval vm_compute in tree_of scenario_A.
Definition tree_B : SuffixTree := Eval vm_compute in tree_of scenario_B.

(** The tree of scenario B after a first call of [find_common_substrings]. *)
Definition tree_B1 : SuffixTree :=
  Eval vm_compute in
    match propagation tree_B with Ok (t, _) => t | Raise _ => tree_B end.

Definition result_B : gmap pystr (list (list Z)) :=
  list_to_map [("abc" : pystr, [[0]; [3]]); ("bc" : pystr, [[1]; [4]])].

Definition scenario_ab : list (pystr * option pystr) := [("ab" : pystr, None)].
Definition tree_ab : SuffixTree := Eval vm_compute in tree_of scenario_ab.

Definition scenario_a : list (pystr * option pystr) := [("a" : pystr, None)].
Definition tree_a : SuffixTree := Eval vm_compute in tree_of scenario_a.

Definition line_c : pystr := ("ab1" : pystr) ++ newline :: ("c" : pystr).
Definition line_d : pystr := ("ab1" : pystr) ++ newline :: ("d" : pystr).
Definition scenario_newline : list (pystr * option pystr) :=
  [(line_c, Some ("A" : pystr)); (line_d, Some ("B" : pystr))].
Definition tree_newline : SuffixTree := Eval vm_compute in tree_of scenario_newline.

Definition scenario_collision : list (pystr * option pystr) :=
  [("a" : pystr, Some ("$1" : pystr)); ("b" : pystr, None)].
Definition tree_collision : SuffixTree := Eval vm_compute in tree_of scenario_collision.

Definition tree_dollar : SuffixTree :=
  Eval vm_compute in tree_of [([dollar], None)].

(** Eleven strings without the delimiter: ['x$10'], the last string with its
    ending, is already in the buffer when it is appended. *)
Definition scenario_short : list (pystr * option pystr) :=
  [("0" : pystr, None); ("1x" : pystr, None); ("02" : pystr, None);
   ("3" : pystr, None); ("4" : pystr, None); ("5" : pystr, None);
   ("6" : pystr, None); ("7" : pystr, None); ("8" : pystr, None);
   ("9" : pystr, None); ("x" : pystr, None)].
Definition tree_short : SuffixTree := Eval vm_compute in tree_of scenario_short.

Definition scenario_ab0 : list (pystr * option pystr) :=
  [("a" : pystr, None); ("b0" : pystr, None)].
Definition tree_ab0 : SuffixTree := Eval vm_compute in tree_of scenario_ab0.

(** The value of [remainder] when the main loop of [append_string] ends: the
    number of suffixes of the string, with its ending, that the call leaves
    without a leaf (line 205 is the only place that lowers the counter, once
    for every leaf that is made). *)
Definition pending (fuel : nat) (t : SuffixTree) (input_string0 : pystr)
    (class_id : option pystr) : res Z :=
  let t1 := register t input_string0 class_id in
  s ← main_circle (input_string t1) (root t1) (strings_count t) fuel
        (mkBuilder (nodes t1) (root t1) 0 0 0 None [])
        (seqZ (len (input_string t))
           (len (input_string t1) - len (input_string t)));
  Ok (remainder s).

(** * Invariants

    The shape of the node graph, what the construction does to the fields of
    the nodes, and the state of the propagation. *)

(** [reach h r j d]: following [parent] from [j] arrives at [r] in [d] steps. *)
Inductive reach (h : arena) (r : nat) : nat → nat → Prop :=
| reach_root : reach h r r 0
| reach_step j nj p d :
    h !! j = Some nj → parent nj = Some p → reach h r p d →
    reach h r j (S d).

(** The nodes form a tree below [r]: [edges] and [parent] agree, the keys and
    the children of a node are pairwise distinct, and every node is at a
    depth below the number of nodes. *)
Record wf_shape (h : arena) (r : nat) : Prop := {
  wf_root : ∃ nr, h !! r = Some nr ∧ parent nr = None;
  wf_edge_parent : ∀ p np key j,
    h !! p = Some np → (key, j) ∈ edges np →
    ∃ nj, h !! j = Some nj ∧ parent nj = Some p;
  wf_parent_edge : ∀ j nj p,
    h !! j = Some nj → parent nj = Some p →
    ∃ np key, h !! p = Some np ∧ (key, j) ∈ edges np;
  wf_keys : ∀ p np, h !! p = Some np → NoDup (edges np).*1;
  wf_children : ∀ p np, h !! p = Some np → NoDup (edges np).*2;
  wf_reach : ∀ j, (j < length h)%nat →
    ∃ d, reach h r j d ∧ (d < length h)%nat
}.

(** Two arenas with the same [parent] and [edges] everywhere. *)
Definition same_shape (h h' : arena) : Prop :=
  length h' = length h ∧
  ∀ i n, h !! i = Some n →
    ∃ n', h' !! i = Some n' ∧ parent n' = parent n ∧ edges n' = edges n.

(** While [index] is processed a node keeps its [bit_vector] and [end]; its
    [start] stays, or moves right within the part of the edge seen so far. *)
Definition node_step (index : Z) (n n' : SuffixTreeNode) : Prop :=
  bit_vector n' = bit_vector n ∧ end_ n' = end_ n ∧ start n ≤ start n' ∧
  (start n' = start n ∨ start n' < Z.min (end_ n) (index + 1)).

Definition arena_step (index : Z) (h h' : arena) : Prop :=
  (length h ≤ length h')%nat ∧
  ∀ i n, h !! i = Some n → ∃ n', h' !! i = Some n' ∧ node_step index n n'.

(** ** The state of the main loop

    While the string with index [k] is appended from [start_index] on, to an
    arena that was [old] before the call, with the root [r]. *)

Section construction_state.
Variable r : nat.
Variable k : nat.
Variable start_index : Z.
Variable old : arena.

(** What an old node [n0] has become. *)
Definition old_node (n0 n : SuffixTreeNode) : Prop :=
  bit_vector n = bit_vector n0 ∧ end_ n = end_ n0 ∧ start n0 ≤ start n ∧
  (start n0 < end_ n0 → start n < end_ n).

(** A leaf of the string being appended, while its end is open. *)
Definition open_leaf (index : Z) (n : SuffixTreeNode) : Prop :=
  bit_vector n = leaf_bit k ∧ start_index ≤ start n ≤ index ∧
  end_ n = END_OF_STRING.

Record builder_inv (index : Z) (s : builder) : Prop := {
  bi_shape : wf_shape (b_nodes s) r;
  bi_length : 0 ≤ active_length s;
  bi_remainder : 0 ≤ remainder s;
  bi_count :
    Z.of_nat (length (new_leaves s)) + remainder s = index - start_index + 1;
  bi_grow : (length old ≤ length (b_nodes s))%nat;
  bi_old : ∀ i n0, old !! i = Some n0 →
    ∃ n, b_nodes s !! i = Some n ∧ old_node n0 n;
  bi_new : ∀ i, i ∈ new_leaves s →
    (length old ≤ i)%nat ∧ ∃ n, b_nodes s !! i = Some n ∧ open_leaf index n;
  bi_inner : ∀ i n, b_nodes s !! i = Some n → (length old ≤ i)%nat →
    i ∉ new_leaves s → bit_vector n = 0
}.

End construction_state.

Record tree_inv (strs : list pystr) (t : SuffixTree) : Prop := {
  ti_shape : wf_shape (nodes t) (root t);
  ti_input : input_string t = buffer_of strs;
  ti_count : strings_count t = length strs;
  ti_leaves : ∀ l, l ∈ leaves t → ∃ k, leaf_of strs t l k;
  ti_inner : ∀ i n, nodes t !! i = Some n → i ∉ leaves t → bit_vector n = 0;
  ti_bound : (length (leaves t) ≤ length (input_string t))%nat
}.

Definition bits_le (a b : Z) : Prop :=
  ∀ i, Z.testbit a i = true → Z.testbit b i = true.

(** [ancestor h j i]: following [parent] from [j] passes [i]. *)
Inductive ancestor (h : arena) : nat → nat → Prop :=
| anc_refl j : ancestor h j j
| anc_step j nj p i :
    h !! j = Some nj → parent nj = Some p → ancestor h p i → ancestor h j i.

(** Only [bit_vector] fields differ between [h] and [h']. *)
Definition bv_only (h h' : arena) : Prop :=
  length h' = length h ∧
  ∀ i n, h !! i = Some n →
    ∃ n', h' !! i = Some n' ∧ n' = set_bit_vector (bit_vector n') n.

(** The state of the propagation: [h0] is the arena at the start of the call,
    [todo] the leaves still to be walked from, [pending] the node whose
    vector has just been raised and whose parent has not seen it yet. *)
Record prop_inv (h0 h : arena) (todo : list nat) (pending : option nat)
  : Prop := {
  pi_frame : bv_only h0 h;
  pi_mono : ∀ i n0 n, h0 !! i = Some n0 → h !! i = Some n →
    bits_le (bit_vector n0) (bit_vector n);
  pi_sound : ∀ i n b, h !! i = Some n → Z.testbit (bit_vector n) b = true →
    ∃ j n0, ancestor h0 j i ∧ h0 !! j = Some n0 ∧
      Z.testbit (bit_vector n0) b = true;
  pi_closed : ∀ j nj p np,
    h !! j = Some nj → parent nj = Some p → h !! p = Some np →
    j ∈ todo ∨ pending = Some j ∨ bits_le (bit_vector nj) (bit_vector np)
}.

(** Every identifier that [find_leaves_in_subtree] returns is a bit of some
    node's vector. *)
Definition known_bit (t : SuffixTree) (i : nat) : Prop :=
  ∃ j n, nodes t !! j = Some n ∧ Z.testbit (bit_vector n) (Z.of_nat i) = true.

(** What one candidate contributes: lines 250-266 without the test against
    the substrings seen so far. *)
Definition candidate (t : SuffixTree) (min_substr_len : Z) (common_ancestor : nat)
  : res (option (pystr * list (list Z))) :=
  common_substring ← path_label (length (nodes t)) t common_ancestor [];
  let common_substring := strip_unique_ending common_substring in
  if min_substr_len <=? len common_substring then
    positions ← find_leaves_in_subtree (length (nodes t)) t common_ancestor;
    ca ← deref (nodes t) common_ancestor;
    positions ← _format_positions t positions (end_ ca - start ca)
                  (len common_substring) (get_string_lengths t);
    Ok (Some (common_substring, positions))
  else Ok None.

Fixpoint candidates (t : SuffixTree) (min_substr_len : Z) (ancestors : list nat)
  : res (list (pystr * list (list Z))) :=
  match ancestors with
  | [] => Ok []
  | ca :: ancestors =>
      e ← candidate t min_substr_len ca;
      es ← candidates t min_substr_len ancestors;
      Ok (match e with Some kv => kv :: es | None => es end)
  end.

(** * Vocabulary of the further properties *)

(** The class that the call with index [k] names: the given one, or the
    synthetic ['$' + str(k)] of line 129. *)
Definition class_of (k : nat) (op : pystr * option pystr) : pystr :=
  default (dollar :: str k) op.2.

(** The indices of the calls of [ops] that name the class [c], in order. *)
Definition class_members (ops : list (pystr * option pystr)) (c : pystr)
  : list nat :=
  (filter (λ p : nat * (pystr * option pystr), class_of p.1 p.2 = c)
     (imap pair ops)).*1.

(** The offsets that [_format_positions] computes for the string [i]: one for
    each pair of [positions] with the identifier [i], in their order. *)
Definition offsets_for (sizes : list Z) (node_substr_len matching_len : Z)
    (positions : list (nat * Z)) (i : nat) : list Z :=
  omap (λ p : nat * Z,
          if decide (p.1 = i)
          then (λ size, size - (p.2 - node_substr_len) - matching_len) <$> sizes !! i
          else None) positions.

(** Every candidate of the set has a successful vector. *)
Definition lca_ok (cls : gmap pystr (list nat)) (h : arena) (lca : gset nat)
  : Prop :=
  ∀ x, x ∈ lca → ∃ n, h !! x = Some n ∧ is_successful cls (bit_vector n) = true.

(** The vector of a node has the bits of the vectors of its children. *)
Definition closed (h : arena) : Prop :=
  ∀ j nj p np, h !! j = Some nj → parent nj = Some p → h !! p = Some np →
    bits_le (bit_vector nj) (bit_vector np).

Definition scenario_order : list (pystr * option pystr) :=
  [("abab" : pystr, Some ("A" : pystr)); ("ab" : pystr, Some ("B" : pystr))].
Definition tree_order : SuffixTree := Eval vm_compute in tree_of scenario_order.

(** A computation finishes when it returns or raises [IndexError]: it does
    not run out of fuel, and it meets no reference outside the arena. *)
Definition finishes {A} (m : res A) : Prop :=
  match m with
  | Ok _ | Raise IndexError => True
  | Raise OutOfFuel | Raise Dangling => False
  end.

(** Every suffix link points into the arena. *)
Definition refs_ok (h : arena) : Prop :=
  ∀ i n l, h !! i = Some n → suffix_link n = Some l → (l < length h)%nat.

(** The references that the main loop holds, and the size of the arena:
    [n0] nodes before the call, and at most two more for each new leaf; the
    new leaves are pairwise distinct. *)
Record loop_inv (n0 : nat) (s : builder) : Prop := {
  li_links : refs_ok (b_nodes s);
  li_active : (active_node s < length (b_nodes s))%nat;
  li_previous : ∀ p, previous_node s = Some p → (p < length (b_nodes s))%nat;
  li_leaves : ∀ l, l ∈ new_leaves s → (l < length (b_nodes s))%nat;
  li_distinct : NoDup (new_leaves s);
  li_size : (length (b_nodes s) ≤ n0 + 2 * length (new_leaves s))%nat
}.

(** Fuel that is enough for [append_string(input_string0)] on the tree [t]. *)
Definition enough_fuel (t : SuffixTree) (input_string0 : pystr) : nat :=
  let added := (length input_string0 + 1 + length (str (strings_count t)))%nat in
  (added * (length (nodes t) + 4 * added))%nat.

Definition scenario_a_b : list (pystr * option pystr) :=
  [("a" : pystr, None); ("b" : pystr, None)].
Definition tree_a_b : SuffixTree := Eval vm_compute in tree_of scenario_a_b.

(** [made t]: the tree [t] is what some sequence of calls of [append_string]
    and [find_common_substrings], in any order and all returning, has left
    of a new tree. *)
Inductive made : SuffixTree → Prop :=
| made_new : made new_tree
| made_append t fuel s c t' :
    made t → append_string fuel t s c = Ok t' → made t'
| made_find t set_order m r t' :
    made t → find_common_substrings set_order t m = Ok (r, t') → made t'.

(** What holds of every tree that the two methods can leave. *)
Record made_inv (t : SuffixTree) : Prop := {
  mi_shape : wf_shape (nodes t) (root t);
  mi_refs : refs_ok (nodes t);
  mi_leaves : ∀ l, l ∈ leaves t → (l < length (nodes t))%nat;
  mi_distinct : NoDup (leaves t);
  mi_bits : ∀ i n b, nodes t !! i = Some n →
    Z.testbit (bit_vector n) b = true → b < Z.of_nat (strings_count t);
  mi_dollars :
    (strings_count t ≤ length (filter (λ x, x = dollar) (input_string t)))%nat
}.

(** The label of the edge that points to a node. *)
Definition edge_label (input : pystr) (n : SuffixTreeNode) : pystr :=
  slice input (start n) (end_ n).

(** [label_of h input j w]: the labels of the edges on the path from the
    root to [j], one after the other, are [w]. *)
Inductive label_of (h : arena) (input : pystr) : nat → pystr → Prop :=
| label_root j n : h !! j = Some n → parent n = None → label_of h input j []
| label_step j n p w :
    h !! j = Some n → parent n = Some p → label_of h input p w →
    label_of h input j (w ++ edge_label input n).

(** Every node of [h] is in [h'] with the same parent, start and end. *)
Definition place_step (h h' : arena) : Prop :=
  ∀ i n, h !! i = Some n →
    ∃ n', h' !! i = Some n' ∧ parent n' = parent n ∧ start n' = start n ∧
      end_ n' = end_ n.

(** The nodes of [h] have the same labels in [h']. *)
Definition labels_kept (input : pystr) (h h' : arena) : Prop :=
  ∀ j w, label_of h input j w → label_of h' input j w.

(** Where the edges lie while [index] is processed: no index is negative,
    and an edge that is not open ends within the part of the buffer that
    has been seen. *)
Record geom_inv (r : nat) (index : Z) (s : builder) : Prop := {
  gi_starts : ∀ i n, b_nodes s !! i = Some n → 0 ≤ start n ∧ 0 ≤ end_ n;
  gi_ends : ∀ i n, b_nodes s !! i = Some n → i ≠ r → i ∉ new_leaves s →
    end_ n ≤ index + 1
}.

(** Where the edges of a tree lie: within the buffer. *)
Record geom_ok (t : SuffixTree) : Prop := {
  go_starts : ∀ i n, nodes t !! i = Some n → 0 ≤ start n ∧ 0 ≤ end_ n;
  go_ends : ∀ i n, nodes t !! i = Some n → i ≠ root t →
    end_ n ≤ len (input_string t)
}.

(** The tree of scenario B after [append_string('ba')]. *)
Definition tree_B_ba : SuffixTree :=
  Eval vm_compute in
    match append_string 200 tree_B ("ba" : pystr) None with
    | Ok t => t
    | Raise _ => tree_B
    end.

(** The tree of scenario A after a first call of [find_common_substrings]. *)
Definition tree_A1 : SuffixTree :=
  Eval vm_compute in
    match propagation tree_A with Ok (t, _) => t | Raise _ => tree_A end.

(** * Properties *)

(** ** The error monad *)

Lemma bind_Ok {A B} (m : res A) (f : A → res B) (b : B) :
  m ≫= f = Ok b → ∃ a, m = Ok a ∧ f a = Ok b.
Proof. destruct m as [a|e]; simpl; [eauto | discriminate]. Qed.

Lemma get_some_Ok {A} (e : error) (o : option A) (a : A) :
  get_some e o = Ok a → o = Some a.
Proof. destruct o; simpl; congruence. Qed.

(** Splits a monadic equation [m ≫= f = Ok b] in the context, repeatedly. *)
Ltac inv_res :=
  repeat match goal with
    | H : Ok _ = Ok _ |- _ => injection H as H; try subst
    | H : Raise _ = Ok _ |- _ => discriminate H
    | H : mret _ = Ok _ |- _ => injection H as H; try subst
    | H : _ ≫= _ = Ok _ |- _ =>
        let a := fresh "a" in
        let Ha := fresh "Ha" in
        apply bind_Ok in H as (a & Ha & H)
    | H : get_some _ _ = Ok _ |- _ => apply get_some_Ok in H
    end.

(** ** Dictionaries *)

Lemma dict_get_elem key v (d : dict) : dict_get key d = Some v → (key, v) ∈ d.
Proof.
  induction d as [|[k v0] d IH]; simpl; [discriminate|].
  destruct (decide (k = key)) as [->|]; intros H.
  - injection H as ->. left.
  - right. auto.
Qed.

Lemma dict_get_None key (d : dict) : dict_get key d = None → key ∉ d.*1.
Proof.
  induction d as [|[k v0] d IH]; simpl; [intros _; apply not_elem_of_nil|].
  destruct (decide (k = key)) as [->|]; [discriminate|].
  intros H. apply not_elem_of_cons. split; [congruence | auto].
Qed.

Lemma elem_dict_get key v (d : dict) :
  NoDup d.*1 → (key, v) ∈ d → dict_get key d = Some v.
Proof.
  induction d as [|[k v0] d IH]; simpl; intros Hnd Hin.
  - by apply elem_of_nil in Hin.
  - apply NoDup_cons in Hnd as [Hk Hnd].
    apply elem_of_cons in Hin as [Heq|Hin].
    + injection Heq as <- <-. by destruct (decide (key = key)).
    + destruct (decide (k = key)) as [->|]; [|auto].
      exfalso. apply Hk. apply list_elem_of_fmap. by exists (key, v).
Qed.

Lemma dict_set_keys key v (d : dict) :
  (dict_set key v d).*1 = if decide (key ∈ d.*1) then d.*1 else d.*1 ++ [key].
Proof.
  induction d as [|[k v0] d IH].
  - destruct (decide _) as [H|H]; [by apply elem_of_nil in H | done].
  - cbn [dict_set]. rewrite !fmap_cons. cbn [fst].
    destruct (decide (k = key)) as [->|Hne].
    + rewrite decide_True; [done | left].
    + rewrite !fmap_cons, IH. cbn [fst].
      destruct (decide (key ∈ d.*1)) as [Hin|Hin].
      * rewrite decide_True; [done | by right].
      * rewrite decide_False; [done|].
        intros [?|?]%elem_of_cons; congruence.
Qed.

Lemma dict_set_NoDup_keys key v (d : dict) :
  NoDup d.*1 → NoDup (dict_set key v d).*1.
Proof.
  intros Hnd. rewrite dict_set_keys. case_decide; [done|].
  apply NoDup_app. split_and!; [done| |apply NoDup_singleton].
  intros x Hx ->%list_elem_of_singleton. done.
Qed.

Lemma elem_of_dict_set k j key v (d : dict) :
  NoDup d.*1 →
  (k, j) ∈ dict_set key v d ↔ (k = key ∧ j = v) ∨ (k ≠ key ∧ (k, j) ∈ d).
Proof.
  induction d as [|[k0 v0] d IH]; simpl; intros Hnd.
  - rewrite list_elem_of_singleton. split.
    + intros [= -> ->]. by left.
    + intros [[-> ->]|[_ H]]; [done | by apply elem_of_nil in H].
  - apply NoDup_cons in Hnd as [Hk Hnd].
    destruct (decide (k0 = key)) as [->|Hne].
    + rewrite !elem_of_cons. split.
      * intros [[= -> ->]|Hin]; [by left|]. right. split; [|by right].
        intros ->. apply Hk. apply list_elem_of_fmap. by exists (key, j).
      * intros [[-> ->]|[Hk' [[= -> ->]|Hin]]]; [by left | done | by right].
    + rewrite !elem_of_cons, IH by done. intuition congruence.
Qed.

Lemma dict_set_NoDup_values key v (d : dict) :
  NoDup d.*1 → NoDup d.*2 → v ∉ d.*2 → NoDup (dict_set key v d).*2.
Proof.
  induction d as [|[k0 v0] d IH]; simpl; intros Hk Hv Hin.
  - apply NoDup_singleton.
  - apply NoDup_cons in Hk as [Hk0 Hk]. apply NoDup_cons in Hv as [Hv0 Hv].
    apply not_elem_of_cons in Hin as [Hne Hin].
    destruct (decide (k0 = key)) as [->|Hkey]; simpl.
    + apply NoDup_cons. done.
    + apply NoDup_cons. split; [|by apply IH].
      intros ((k & j) & -> & Hj)%list_elem_of_fmap. simpl in *.
      apply elem_of_dict_set in Hj as [[-> ->]|[_ Hj]]; [done| |done].
      apply Hv0. apply list_elem_of_fmap. by exists (k, j).
Qed.

(** ** The arena *)

Lemma lookup_alloc (h : arena) (x : SuffixTreeNode) (i : nat) :
  (h ++ [x]) !! i = if decide (i = length h) then Some x else h !! i.
Proof.
  case_decide as Hi.
  - subst. rewrite lookup_app_r by lia. by rewrite Nat.sub_diag.
  - destruct (decide (i < length h)%nat).
    + by rewrite lookup_app_l.
    + rewrite !(lookup_ge_None_2 _ i); [done | lia |].
      rewrite length_app. simpl. lia.
Qed.

Lemma lookup_upd (h : arena) (r : nat) (n x : SuffixTreeNode) (i : nat) :
  h !! r = Some n →
  <[r := x]> h !! i = if decide (i = r) then Some x else h !! i.
Proof.
  intros Hr. apply lookup_lt_Some in Hr. case_decide as Hi.
  - subst. by apply list_lookup_insert_eq.
  - by apply list_lookup_insert_ne.
Qed.

Lemma assign_Ok f r (h h' : arena) :
  assign f r h = Ok h' → ∃ n, h !! r = Some n ∧ h' = <[r := f n]> h.
Proof. unfold assign, deref. intros H. inv_res. eauto. Qed.

Lemma add_child_Ok (h h' : arena) self key s e child :
  add_child h self key s e = Ok (h', child) →
  ∃ ns, h !! self = Some ns ∧ child = length h ∧
    h' = <[self := set_edges (dict_set key child (edges ns)) ns]>
           (h ++ [set_parent (Some self) (new_node s e)]).
Proof.
  unfold add_child, deref. intros H. inv_res.
  apply assign_Ok in Ha0 as (ns & Hs & ->).
  rewrite lookup_app_l in Hs by eauto using lookup_lt_Some.
  exists ns. done.
Qed.

Lemma add_exisiting_node_as_child_Ok (h h' : arena) self key node :
  add_exisiting_node_as_child h self key node = Ok h' →
  ∃ nn ns, h !! node = Some nn ∧
    <[node := set_parent (Some self) nn]> h !! self = Some ns ∧
    h' = <[self := set_edges (dict_set key node (edges ns)) ns]>
           (<[node := set_parent (Some self) nn]> h).
Proof.
  unfold add_exisiting_node_as_child. intros H. inv_res.
  apply assign_Ok in Ha as (nn & Hn & ->).
  apply assign_Ok in H as (ns & Hs & ->). eauto.
Qed.

(** ** Shape of the node graph *)

Lemma reach_det h r j d1 d2 :
  (∃ nr, h !! r = Some nr ∧ parent nr = None) →
  reach h r j d1 → reach h r j d2 → d1 = d2.
Proof.
  intros (nr & Hr & Hp) H1. revert d2.
  induction H1 as [|j nj p d Hj Hpj H1 IH]; intros d2 H2.
  - inversion H2; subst; [done | congruence].
  - inversion H2; subst; [congruence|].
    f_equal. apply IH. congruence.
Qed.

Lemma reach_mono (h h' : arena) r j d :
  (∀ i n, h !! i = Some n → ∃ n', h' !! i = Some n' ∧ parent n' = parent n) →
  reach h r j d → reach h' r j d.
Proof.
  intros Hpar. induction 1 as [|j nj p d Hj Hp _ IH]; [constructor|].
  destruct (Hpar _ _ Hj) as (n' & Hj' & Hp').
  eapply reach_step; [exact Hj' | rewrite Hp'; exact Hp | exact IH].
Qed.

Lemma same_shape_sym h h' : same_shape h h' → same_shape h' h.
Proof.
  intros [Hlen H]. split; [done|]. intros i n' Hi.
  destruct (lookup_lt_is_Some_2 h i) as [n Hn].
  { rewrite <-Hlen. eauto using lookup_lt_Some. }
  destruct (H _ _ Hn) as (n'' & Hi' & ? & ?). exists n.
  assert (n'' = n') by congruence. subst. done.
Qed.

Lemma same_shape_wf h h' r : same_shape h h' → wf_shape h r → wf_shape h' r.
Proof.
  intros Hs [Hr Hep Hpe Hk Hc Hre].
  pose proof (same_shape_sym _ _ Hs) as Hs'.
  destruct Hs as [Hlen Hs], Hs' as [_ Hs']. split.
  - destruct Hr as (nr & Hnr & Hp). destruct (Hs _ _ Hnr) as (n' & ? & ? & ?).
    exists n'. split; [done | congruence].
  - intros p np' key j Hp Hin. destruct (Hs' _ _ Hp) as (np & Hnp & _ & He).
    rewrite <-He in Hin. destruct (Hep _ _ _ _ Hnp Hin) as (nj & Hj & Hpj).
    destruct (Hs _ _ Hj) as (nj' & ? & ? & ?). exists nj'. split; [done | congruence].
  - intros j nj' p Hj Hpj. destruct (Hs' _ _ Hj) as (nj & Hnj & Hpar & _).
    rewrite <-Hpar in Hpj. destruct (Hpe _ _ _ Hnj Hpj) as (np & key & Hp & Hin).
    destruct (Hs _ _ Hp) as (np' & ? & ? & He). exists np', key.
    split; [done | by rewrite He].
  - intros p np' Hp. destruct (Hs' _ _ Hp) as (np & Hnp & _ & He).
    rewrite <-He. eauto.
  - intros p np' Hp. destruct (Hs' _ _ Hp) as (np & Hnp & _ & He).
    rewrite <-He. eauto.
  - intros j Hj. rewrite Hlen in *. destruct (Hre j Hj) as (d & Hd & ?).
    exists d. split; [|done]. eapply reach_mono; [|done].
    intros i n Hi. destruct (Hs _ _ Hi) as (n' & ? & ? & ?). eauto.
Qed.

Lemma same_shape_refl h : same_shape h h.
Proof. split; eauto. Qed.

Lemma same_shape_trans h1 h2 h3 :
  same_shape h1 h2 → same_shape h2 h3 → same_shape h1 h3.
Proof.
  intros [L1 H1] [L2 H2]. split; [congruence|]. intros i n Hi.
  destruct (H1 _ _ Hi) as (n' & Hi' & ? & ?).
  destruct (H2 _ _ Hi') as (n'' & ? & ? & ?).
  exists n''. split_and!; congruence.
Qed.

(** Assignments to [suffix_link], [bit_vector], [start] and [end] keep the
    shape. *)
Lemma same_shape_upd (h : arena) i n f :
  h !! i = Some n → parent (f n) = parent n → edges (f n) = edges n →
  same_shape h (<[i := f n]> h).
Proof.
  intros Hi Hp He. split; [apply length_insert|]. intros j nj Hj.
  rewrite (lookup_upd _ _ n) by done. case_decide; subst; [|eauto].
  exists (f n). assert (nj = n) by congruence. subst. done.
Qed.

Lemma assign_same_shape f i (h h' : arena) :
  (∀ n, parent (f n) = parent n ∧ edges (f n) = edges n) →
  assign f i h = Ok h' → same_shape h h'.
Proof.
  intros Hf (n & Hi & ->)%assign_Ok.
  apply same_shape_upd; [done | apply Hf | apply Hf].
Qed.

Lemma wf_child_lt h r p np key j :
  wf_shape h r → h !! p = Some np → (key, j) ∈ edges np → (j < length h)%nat.
Proof.
  intros Hwf Hp Hin. destruct (wf_edge_parent _ _ Hwf _ _ _ _ Hp Hin) as (nj & Hj & _).
  eauto using lookup_lt_Some.
Qed.

Lemma wf_root_not_child h r p np key :
  wf_shape h r → h !! p = Some np → (key, r) ∉ edges np.
Proof.
  intros Hwf Hp Hin. destruct (wf_edge_parent _ _ Hwf _ _ _ _ Hp Hin) as (nj & Hj & Hpar).
  destruct (wf_root _ _ Hwf) as (nr & ? & ?). congruence.
Qed.

(** A node is not its own child. *)
Lemma wf_no_loop h r p np key : wf_shape h r → h !! p = Some np → (key, p) ∉ edges np.
Proof.
  intros Hwf Hp Hin.
  destruct (wf_edge_parent _ _ Hwf _ _ _ _ Hp Hin) as (nj & Hj & Hpar).
  assert (nj = np) by congruence. subst nj.
  destruct (wf_reach _ _ Hwf p) as (d & Hd & _); [eauto using lookup_lt_Some|].
  pose proof (wf_root _ _ Hwf) as Hroot.
  inversion Hd as [|j nj q d' Hj' Hq Hd']; subst.
  - destruct Hroot as (nr & ? & ?). congruence.
  - assert (q = p) by congruence. subst q.
    pose proof (reach_det _ _ _ _ _ Hroot Hd Hd'). lia.
Qed.

(** A new leaf below [an], under a key that [an] does not have. *)
Lemma add_leaf_wf (h h' : arena) r an na key s e child :
  wf_shape h r → h !! an = Some na → dict_get key (edges na) = None →
  add_child h an key s e = Ok (h', child) →
  wf_shape h' r.
Proof.
  intros Hwf Han Hkey (ns & Hs & -> & ->)%add_child_Ok.
  assert (ns = na) by congruence. subst ns. clear Hs.
  apply dict_get_None in Hkey.
  set (leaf := set_parent (Some an) (new_node s e)).
  set (na' := set_edges (dict_set key (length h) (edges na)) na).
  assert (Hlk : ∀ i, <[an := na']> (h ++ [leaf]) !! i =
            if decide (i = an) then Some na'
            else if decide (i = length h) then Some leaf else h !! i).
  { intros i. rewrite (lookup_upd _ _ na), lookup_alloc; [done|].
    rewrite lookup_app_l; eauto using lookup_lt_Some. }
  assert (Hlen : length (<[an := na']> (h ++ [leaf])) = S (length h)).
  { rewrite length_insert, length_app. simpl. lia. }
  assert (Han_lt : (an < length h)%nat) by eauto using lookup_lt_Some.
  assert (Hold : ∀ i n, h !! i = Some n →
            ∃ n', <[an := na']> (h ++ [leaf]) !! i = Some n' ∧ parent n' = parent n).
  { intros i n Hi. rewrite Hlk. pose proof (lookup_lt_Some _ _ _ Hi).
    repeat case_decide; subst; try lia; [|eauto].
    exists na'. assert (n = na) by congruence. by subst. }
  destruct Hwf as [Hr Hep Hpe Hk Hc Hre]. split.
  - destruct Hr as (nr & Hnr & Hp). destruct (Hold _ _ Hnr) as (n' & ? & ?).
    exists n'. split; [done | congruence].
  - intros p np k j. rewrite Hlk. repeat case_decide; subst.
    + intros [= <-]. simpl. intros [[-> ->]|[Hne Hin]]%elem_of_dict_set; [|..|by eauto].
      * rewrite Hlk. rewrite decide_False by lia. rewrite decide_True by done.
        by exists leaf.
      * destruct (Hep _ _ _ _ Han Hin) as (nj & Hj & Hpj).
        destruct (Hold _ _ Hj) as (n' & ? & ?). exists n'. split; [done | congruence].
    + intros [= <-]. simpl. by intros ?%elem_of_nil.
    + intros Hp Hin. destruct (Hep _ _ _ _ Hp Hin) as (nj & Hj & Hpj).
      destruct (Hold _ _ Hj) as (n' & ? & ?). exists n'. split; [done | congruence].
  - intros j nj p. rewrite Hlk. repeat case_decide; subst.
    + intros [= <-]. simpl. intros Hp.
      destruct (Hpe _ _ _ Han Hp) as (np & k & Hnp & Hin).
      rewrite Hlk. case_decide; subst.
      * exists na', k. split; [done|]. simpl. apply elem_of_dict_set; [by eauto|].
        right. split; [|congruence]. intros ->. apply Hkey.
        apply list_elem_of_fmap. exists (key, an). split; [done | congruence].
      * rewrite decide_False by (apply lookup_lt_Some in Hnp; lia). eauto.
    + intros [= <-]. simpl. intros [= <-]. rewrite Hlk, decide_True by done.
      exists na', key. split; [done|]. simpl. apply elem_of_dict_set; [by eauto|]. by left.
    + intros Hj Hp. destruct (Hpe _ _ _ Hj Hp) as (np & k & Hnp & Hin).
      rewrite Hlk. case_decide; subst.
      * exists na', k. split; [done|]. simpl. apply elem_of_dict_set; [by eauto|].
        right. split; [|congruence]. intros ->. apply Hkey.
        apply list_elem_of_fmap. exists (key, j). split; [done | congruence].
      * rewrite decide_False by (apply lookup_lt_Some in Hnp; lia). eauto.
  - intros p np. rewrite Hlk. repeat case_decide; subst.
    + intros [= <-]. simpl. apply dict_set_NoDup_keys. eauto.
    + intros [= <-]. simpl. apply NoDup_nil_2.
    + eauto.
  - intros p np. rewrite Hlk. repeat case_decide; subst.
    + intros [= <-]. simpl. apply dict_set_NoDup_values; [by eauto..|].
      intros ((k & j) & Heq & Hin)%list_elem_of_fmap. simpl in Heq. subst j.
      destruct (Hep _ _ _ _ Han Hin) as (nj & Hj & _).
      apply lookup_lt_Some in Hj. lia.
    + intros [= <-]. simpl. apply NoDup_nil_2.
    + eauto.
  - intros j Hj. rewrite Hlen in *.
    destruct (decide (j = length h)) as [->|Hne].
    + destruct (Hre an Han_lt) as (d & Hd & Hlt). exists (S d). split; [|lia].
      apply (reach_step _ _ _ leaf an d); [|done|by eapply reach_mono].
      rewrite Hlk. rewrite decide_False by lia. by rewrite decide_True.
    + destruct (Hre j) as (d & Hd & Hlt); [lia|]. exists d. split; [|lia].
      by eapply reach_mono.
Qed.

Lemma dict_key_inj (d : dict) k1 k2 v :
  NoDup d.*2 → (k1, v) ∈ d → (k2, v) ∈ d → k1 = k2.
Proof.
  induction d as [|[k0 v0] d IH]; intros Hnd H1 H2.
  - by apply elem_of_nil in H1.
  - rewrite fmap_cons in Hnd. apply NoDup_cons in Hnd as [Hv0 Hnd].
    apply elem_of_cons in H1 as [H1|H1]; apply elem_of_cons in H2 as [H2|H2];
      simplify_eq; [done|..|by eauto].
    + exfalso. apply Hv0. apply list_elem_of_fmap. by exists (k2, v0).
    + exfalso. apply Hv0. apply list_elem_of_fmap. by exists (k1, v0).
Qed.

Lemma dict_value_inj (d : dict) k v1 v2 :
  NoDup d.*1 → (k, v1) ∈ d → (k, v2) ∈ d → v1 = v2.
Proof.
  intros Hnd H1%elem_dict_get H2%elem_dict_get; [congruence | done..].
Qed.

(** A node [sp] interposed between [an] and its child [next]: the arena [h']
    differs from [h] at [an], [next] and the new [sp] only. *)
Lemma interpose_wf (h h' : arena) r an na next nn key k2 sp' nn' na' :
  wf_shape h r →
  h !! an = Some na → dict_get key (edges na) = Some next → h !! next = Some nn →
  parent sp' = Some an → edges sp' = [(k2, next)] →
  parent nn' = Some (length h) → edges nn' = edges nn →
  parent na' = parent na → edges na' = dict_set key (length h) (edges na) →
  length h' = S (length h) →
  (∀ i, h' !! i = if decide (i = length h) then Some sp'
                  else if decide (i = next) then Some nn'
                  else if decide (i = an) then Some na' else h !! i) →
  wf_shape h' r.
Proof.
  intros Hwf Han Hkey Hnext Hsp_p Hsp_e Hnn_p Hnn_e Hna_p Hna_e Hlen Hlk.
  apply dict_get_elem in Hkey.
  pose proof (wf_no_loop _ _ _ _ key Hwf Han) as Hloop.
  assert (an ≠ next) as Hne by (intros Heq; subst; by apply Hloop).
  assert (next ≠ r) as Hnr.
  { intros Heq. subst. exact (wf_root_not_child _ _ _ _ key Hwf Han Hkey). }
  assert (an < length h)%nat as Han_lt by eauto using lookup_lt_Some.
  assert (next < length h)%nat as Hnext_lt by eauto using lookup_lt_Some.
  destruct (wf_edge_parent _ _ Hwf _ _ _ _ Han Hkey) as (nn0 & Hnn0 & Hnn_par).
  assert (nn0 = nn) by congruence. subst nn0. clear Hnn0.
  assert (Hold : ∀ i n, h !! i = Some n → i ≠ next →
            ∃ n', h' !! i = Some n' ∧ parent n' = parent n).
  { intros i n Hi Hin. rewrite Hlk. pose proof (lookup_lt_Some _ _ _ Hi).
    repeat case_decide; subst; try lia; [|eauto].
    exists na'. assert (n = na) by congruence. by subst. }
  assert (Holde : ∀ i n, h !! i = Some n → i ≠ an →
            ∃ n', h' !! i = Some n' ∧ edges n' = edges n).
  { intros i n Hi Hin. rewrite Hlk. pose proof (lookup_lt_Some _ _ _ Hi).
    repeat case_decide; subst; try lia; [|eauto].
    exists nn'. assert (n = nn) by congruence. by subst. }
  pose proof Hwf as [Hr Hep Hpe Hk Hc Hre]. split.
  - destruct Hr as (nr & Hnr' & Hp). destruct (Hold _ _ Hnr') as (n' & ? & ?); [done|].
    exists n'. split; [done | congruence].
  - intros p np k j. rewrite Hlk. repeat case_decide; subst.
    + intros [= <-]. rewrite Hsp_e. intros [= -> ->]%list_elem_of_singleton.
      rewrite Hlk, decide_False, decide_True by (done || lia). eauto.
    + intros [= <-]. rewrite Hnn_e. intros Hin.
      destruct (Hep _ _ _ _ Hnext Hin) as (nj & Hj & Hpj).
      destruct (Hold _ _ Hj) as (n' & ? & ?).
      { intros Heq. subst j. exact (wf_no_loop _ _ _ _ k Hwf Hnext Hin). }
      exists n'. split; [done | congruence].
    + intros [= <-]. rewrite Hna_e.
      intros [[-> ->]|[Hk' Hin]]%elem_of_dict_set; [|..|by eauto].
      * rewrite Hlk, decide_True by done. eauto.
      * destruct (Hep _ _ _ _ Han Hin) as (nj & Hj & Hpj).
        destruct (Hold _ _ Hj) as (n' & ? & ?).
        { intros Heq. subst j. apply Hk'.
          exact (dict_key_inj _ _ _ _ (Hc _ _ Han) Hin Hkey). }
        exists n'. split; [done | congruence].
    + intros Hp Hin. destruct (Hep _ _ _ _ Hp Hin) as (nj & Hj & Hpj).
      destruct (Hold _ _ Hj) as (n' & ? & ?).
      { intros ->. congruence. }
      exists n'. split; [done | congruence].
  - intros j nj p. rewrite Hlk. repeat case_decide; subst.
    + intros [= <-]. rewrite Hsp_p. intros [= <-].
      rewrite Hlk, decide_False, decide_False, decide_True by (done || lia).
      exists na', key. split; [done|]. rewrite Hna_e.
      apply elem_of_dict_set; [by eauto|]. by left.
    + intros [= <-]. rewrite Hnn_p. intros [= <-].
      rewrite Hlk, decide_True by done. exists sp', k2. split; [done|].
      rewrite Hsp_e. by apply list_elem_of_singleton.
    + intros [= <-]. rewrite Hna_p. intros Hp.
      destruct (Hpe _ _ _ Han Hp) as (np & k & Hnp & Hin).
      destruct (Holde _ _ Hnp) as (n' & ? & He).
      { intros Heq. subst p. assert (np = na) by congruence. subst np.
        exact (wf_no_loop _ _ _ _ k Hwf Han Hin). }
      exists n', k. split; [done | by rewrite He].
    + intros Hj Hp. destruct (Hpe _ _ _ Hj Hp) as (np & k & Hnp & Hin).
      destruct (decide (p = an)) as [->|Hpan].
      * assert (np = na) by congruence. subst np.
        rewrite Hlk, decide_False, decide_False, decide_True by (done || lia).
        exists na', k. split; [done|]. rewrite Hna_e.
        apply elem_of_dict_set; [by eauto|]. right. split; [|done].
        intros Heq. subst k.
        match goal with H : j ≠ next |- _ => apply H end.
        exact (dict_value_inj _ _ _ _ (Hk _ _ Han) Hin Hkey).
      * destruct (Holde _ _ Hnp Hpan) as (n' & ? & He).
        exists n', k. split; [done | by rewrite He].
  - intros p np. rewrite Hlk. repeat case_decide; subst.
    + intros [= <-]. rewrite Hsp_e. apply NoDup_singleton.
    + intros [= <-]. rewrite Hnn_e. eauto.
    + intros [= <-]. rewrite Hna_e. apply dict_set_NoDup_keys. eauto.
    + eauto.
  - intros p np. rewrite Hlk. repeat case_decide; subst.
    + intros [= <-]. rewrite Hsp_e. apply NoDup_singleton.
    + intros [= <-]. rewrite Hnn_e. eauto.
    + intros [= <-]. rewrite Hna_e. apply dict_set_NoDup_values; [by eauto..|].
      intros ((k & j) & Heq & Hin)%list_elem_of_fmap. simpl in Heq. subst j.
      eapply wf_child_lt in Hin; [|done..]. lia.
    + eauto.
  - destruct (Hre an Han_lt) as (D & HD & HDlt).
    assert (Hshift : ∀ j d, reach h r j d →
              ((d ≤ D)%nat → reach h' r j d) ∧ (reach h' r j d ∨ reach h' r j (S d))).
    { induction 1 as [|j nj p d Hj Hp Hd [IH1 IH2]].
      - split; [intros _|left]; constructor.
      - destruct (decide (j = next)) as [->|Hjn].
        + assert (p = an) by congruence. subst p.
          assert (d = D) by (eapply reach_det; eauto). subst d.
          split; [lia|]. right.
          apply (reach_step _ _ _ nn' (length h) (S D)).
          * rewrite Hlk, decide_False, decide_True by (done || lia). done.
          * done.
          * apply (reach_step _ _ _ sp' an D); [|done|by apply IH1].
            rewrite Hlk, decide_True by done. done.
        + destruct (Hold _ _ Hj Hjn) as (n' & Hj' & Hp').
          split.
          * intros Hle. apply (reach_step _ _ _ n' p d); [done|congruence|].
            apply IH1. lia.
          * destruct IH2 as [IH2|IH2]; [left|right];
              (apply (reach_step _ _ _ n' p); [done|congruence|done]). }
    intros j Hj. rewrite Hlen in *.
    destruct (decide (j = length h)) as [->|Hjh].
    + exists (S D). split; [|lia].
      apply (reach_step _ _ _ sp' an D); [|done|by apply Hshift].
      rewrite Hlk, decide_True by done. done.
    + destruct (Hre j) as (d & Hd & Hlt); [lia|].
      destruct (Hshift _ _ Hd) as [_ [H|H]]; eexists; (split; [exact H|lia]).
Qed.

(** ** What construction does to the fields of a node *)

Lemma node_step_refl index n : node_step index n n.
Proof. unfold node_step. split_and!; auto with lia. Qed.

Lemma node_step_fields index n n' :
  bit_vector n' = bit_vector n → start n' = start n → end_ n' = end_ n →
  node_step index n n'.
Proof. unfold node_step. intros -> -> ->. split_and!; auto with lia. Qed.

Lemma node_step_trans index n1 n2 n3 :
  node_step index n1 n2 → node_step index n2 n3 → node_step index n1 n3.
Proof.
  unfold node_step. intros (Hb1 & He1 & Hs1 & Hm1) (Hb2 & He2 & Hs2 & Hm2).
  rewrite He1 in Hm2. split_and!; [congruence | congruence | lia | lia].
Qed.

Lemma arena_step_refl index h : arena_step index h h.
Proof. split; [done|]. eauto using node_step_refl. Qed.

Lemma arena_step_trans index h1 h2 h3 :
  arena_step index h1 h2 → arena_step index h2 h3 → arena_step index h1 h3.
Proof.
  intros [L1 H1] [L2 H2]. split; [lia|]. intros i n Hi.
  destruct (H1 _ _ Hi) as (n' & Hi' & ?). destruct (H2 _ _ Hi') as (n'' & ? & ?).
  eauto using node_step_trans.
Qed.

Lemma arena_step_upd index (h : arena) i n n' :
  h !! i = Some n → node_step index n n' → arena_step index h (<[i := n']> h).
Proof.
  intros Hi Hstep. split; [by rewrite length_insert|]. intros j nj Hj.
  rewrite (lookup_upd _ _ n) by done. case_decide; subst.
  - assert (nj = n) by congruence. subst. eauto.
  - eauto using node_step_refl.
Qed.

Lemma arena_step_alloc index (h : arena) x : arena_step index h (h ++ [x]).
Proof.
  split; [rewrite length_app; lia|]. intros i n Hi.
  exists n. split; [by apply lookup_app_l_Some | apply node_step_refl].
Qed.

Lemma assign_arena_step index f i (h h' : arena) :
  (∀ n, h !! i = Some n → node_step index n (f n)) →
  assign f i h = Ok h' → arena_step index h h'.
Proof. intros Hf (n & Hi & ->)%assign_Ok. apply (arena_step_upd _ _ _ n); auto. Qed.

Lemma link_shape_step index (h h' : arena) p target :
  link h p target = Ok h' → same_shape h h' ∧ arena_step index h h'.
Proof.
  destruct p as [p|]; simpl.
  - intros H. split.
    + by eapply assign_same_shape; [|done].
    + eapply assign_arena_step; [|done]. intros n _. by apply node_step_fields.
  - intros [= <-]. split; [apply same_shape_refl | apply arena_step_refl].
Qed.

Lemma add_child_step index (h h' : arena) self key s e child :
  add_child h self key s e = Ok (h', child) →
  child = length h ∧ length h' = S (length h) ∧ arena_step index h h' ∧
  h' !! child = Some (set_parent (Some self) (new_node s e)).
Proof.
  intros (ns & Hs & -> & ->)%add_child_Ok.
  assert (self < length h)%nat by eauto using lookup_lt_Some.
  split_and!; [done| | |].
  - rewrite length_insert, length_app. simpl. lia.
  - eapply arena_step_trans; [apply arena_step_alloc|].
    apply (arena_step_upd _ _ _ ns); [by apply lookup_app_l_Some|].
    by apply node_step_fields.
  - rewrite list_lookup_insert_ne by lia. rewrite lookup_alloc. by rewrite decide_True.
Qed.

Lemma add_exisiting_node_as_child_step index (h h' : arena) self key node :
  add_exisiting_node_as_child h self key node = Ok h' →
  length h' = length h ∧ arena_step index h h'.
Proof.
  intros (nn & ns & Hn & Hs & ->)%add_exisiting_node_as_child_Ok. split.
  - by rewrite !length_insert.
  - apply (arena_step_trans _ _ (<[node := set_parent (Some self) nn]> h)).
    + apply (arena_step_upd _ _ _ nn); [done | by apply node_step_fields].
    + apply (arena_step_upd _ _ _ ns); [done | by apply node_step_fields].
Qed.

(** A new leaf with its bit: lines 156-161 and 196-198. *)
Lemma new_leaf_step index (h h1 h2 : arena) self key leaf b :
  add_child h self key index END_OF_STRING = Ok (h1, leaf) →
  assign (set_bit_vector b) leaf h1 = Ok h2 →
  leaf = length h ∧ length h2 = S (length h) ∧ arena_step index h h2 ∧
  same_shape h1 h2 ∧
  ∃ n, h2 !! leaf = Some n ∧ bit_vector n = b ∧ start n = index ∧
       end_ n = END_OF_STRING.
Proof.
  intros H1 H2. pose proof (add_child_step index _ _ _ _ _ _ _ H1) as (-> & Hlen & Hstep & Hleaf).
  assert (same_shape h1 h2) as Hsame by (by eapply assign_same_shape; [|done]).
  apply assign_Ok in H2 as (n & Hn & ->).
  assert (n = set_parent (Some self) (new_node index END_OF_STRING)) by congruence.
  subst n. split_and!; [done| | |done|].
  - by rewrite length_insert.
  - destruct Hstep as [Hl Hstep]. split; [rewrite length_insert; lia|].
    intros i ni Hi. destruct (Hstep _ _ Hi) as (n' & Hi' & ?). exists n'.
    split; [|done]. rewrite list_lookup_insert_ne; [done|].
    apply lookup_lt_Some in Hi. lia.
  - eexists. split; [apply list_lookup_insert_eq; lia|done].
Qed.

Lemma add_child_lookup (h h' : arena) self ns key s e child :
  h !! self = Some ns → add_child h self key s e = Ok (h', child) →
  ∀ i, h' !! i =
    if decide (i = self)
    then Some (set_edges (dict_set key (length h) (edges ns)) ns)
    else if decide (i = length h) then Some (set_parent (Some self) (new_node s e))
    else h !! i.
Proof.
  intros Hs (ns' & Hs' & -> & ->)%add_child_Ok i.
  assert (ns' = ns) by congruence. subst ns'.
  rewrite (lookup_upd _ _ ns), lookup_alloc; [done|].
  by apply lookup_app_l_Some.
Qed.

(** Lines 189-195: the edge from [an] to [next] is split by a new node. *)
Lemma split_edge_wf (h h1 h2 h3 : arena) r an na key next nn s e x k2 sp :
  wf_shape h r →
  h !! an = Some na → dict_get key (edges na) = Some next → h !! next = Some nn →
  add_child h an key s e = Ok (h1, sp) →
  assign (set_start x) next h1 = Ok h2 →
  add_exisiting_node_as_child h2 sp k2 next = Ok h3 →
  wf_shape h3 r ∧ h1 !! next = Some nn ∧
  ∃ nsp, h3 !! sp = Some nsp ∧ edges nsp = [(k2, next)].
Proof.
  intros Hwf Han Hkey Hnext H1 H2 H3.
  pose proof (add_child_lookup _ _ _ _ _ _ _ _ Han H1) as Hlk1.
  pose proof (add_child_step 0 _ _ _ _ _ _ _ H1) as (-> & Hlen1 & _ & _).
  pose proof (dict_get_elem _ _ _ Hkey) as Hin.
  assert (an ≠ next) as Hne.
  { intros Heq. subst next. exact (wf_no_loop _ _ _ _ key Hwf Han Hin). }
  assert (an < length h)%nat as Han_lt by eauto using lookup_lt_Some.
  assert (next < length h)%nat as Hnext_lt by eauto using lookup_lt_Some.
  assert (h1 !! next = Some nn) as Hnext1.
  { rewrite Hlk1, decide_False, decide_False by (done || lia). done. }
  apply assign_Ok in H2 as (n1 & Hn1 & ->).
  assert (n1 = nn) by congruence. subst n1.
  apply add_exisiting_node_as_child_Ok in H3 as (n2 & ns & Hn2 & Hns & ->).
  rewrite list_lookup_insert_eq in Hn2 by (rewrite Hlen1; lia).
  injection Hn2 as <-.
  rewrite list_lookup_insert_ne, list_lookup_insert_ne, Hlk1 in Hns by lia.
  rewrite decide_False, decide_True in Hns by (done || lia).
  injection Hns as <-.
  set (sp' := set_edges _ _). set (nn' := set_parent _ _).
  assert (Hlk : ∀ i, <[length h := sp']> (<[next := nn']> (<[next := set_start x nn]> h1)) !! i =
            if decide (i = length h) then Some sp'
            else if decide (i = next) then Some nn'
            else if decide (i = an)
                 then Some (set_edges (dict_set key (length h) (edges na)) na)
                 else h !! i).
  { intros i. destruct (decide (i = length h)) as [->|Hi1].
    { rewrite list_lookup_insert_eq; [done|]. rewrite !length_insert. lia. }
    rewrite list_lookup_insert_ne by done.
    destruct (decide (i = next)) as [->|Hi2].
    { rewrite list_lookup_insert_eq; [done|]. rewrite !length_insert. lia. }
    rewrite !list_lookup_insert_ne by done.
    rewrite Hlk1. repeat case_decide; done. }
  split_and!; [|done|].
  - apply (interpose_wf h _ r an na next nn key k2 sp' nn'
             (set_edges (dict_set key (length h) (edges na)) na)); try done.
    rewrite !length_insert. done.
  - exists sp'. split; [|done]. rewrite Hlk. by rewrite decide_True.
Qed.

(** ** Invariants of the main loop *)

Lemma follow_Ok r index s s' :
  follow r index s = Ok s' →
  b_nodes s' = b_nodes s ∧ new_leaves s' = new_leaves s ∧
  remainder s' = remainder s - 1 ∧ previous_node s' = previous_node s ∧
  (0 ≤ active_length s → 0 ≤ active_length s').
Proof.
  unfold follow. destruct (bool_decide _ && _) eqn:Hc.
  - intros [= <-]. simpl. split_and!; try done.
    apply andb_true_iff in Hc as [_ Hc]. lia.
  - intros H. inv_res. simpl. done.
Qed.

Section construction.
Variable input : pystr.
Variable r : nat.
Variable k : nat.
Variable start_index : Z.
Variable old : arena.

Local Abbreviation open_leaf := (open_leaf k start_index).
Local Abbreviation builder_inv := (builder_inv r k start_index old).

Lemma old_node_step index n0 n n' :
  old_node n0 n → node_step index n n' → old_node n0 n'.
Proof.
  unfold old_node, node_step.
  intros (Hb & He & Hs & Hlt) (Hb' & He' & Hs' & Hm).
  split_and!; [congruence | congruence | lia | lia].
Qed.

Lemma open_leaf_step index n n' :
  open_leaf index n → node_step index n n' → open_leaf index n'.
Proof.
  unfold open_leaf, node_step.
  intros (Hb & Hs & He) (Hb' & He' & Hs' & Hm).
  split_and!; [congruence | lia | lia | congruence].
Qed.

(** The invariant survives any change of the arena that keeps the shape and
    is a step for the fields, when no leaf is added. *)
Lemma builder_inv_step index s h' al rem ae an prev :
  builder_inv index s →
  wf_shape h' r → arena_step index (b_nodes s) h' →
  length h' = length (b_nodes s) →
  0 ≤ al → rem = remainder s →
  builder_inv index (mkBuilder h' an ae al rem prev (new_leaves s)).
Proof.
  intros [Hsh Hal Hrem Hcnt Hgrow Hold Hnew Hinner] Hwf [_ Hstep] Hlen Hal' ->.
  split; simpl; try done.
  - lia.
  - intros i n0 Hi. destruct (Hold _ _ Hi) as (n & Hn & Ho).
    destruct (Hstep _ _ Hn) as (n' & Hn' & Hs). eauto using old_node_step.
  - intros i Hi. destruct (Hnew _ Hi) as (Hge & n & Hn & Ho). split; [done|].
    destruct (Hstep _ _ Hn) as (n' & Hn' & Hs). eauto using open_leaf_step.
  - intros i n' Hi Hge Hnot.
    destruct (lookup_lt_is_Some_2 (b_nodes s) i) as [n Hn].
    { rewrite <-Hlen. eauto using lookup_lt_Some. }
    destruct (Hstep _ _ Hn) as (n'' & Hn'' & Hs).
    assert (n'' = n') by congruence. subst n''.
    destruct Hs as (-> & _). eauto.
Qed.

(** The same when a leaf [leaf] has been added, and possibly an inner node
    before it. *)
Lemma builder_inv_leaf index s h' al ae an prev leaf nl :
  builder_inv index s →
  wf_shape h' r → arena_step index (b_nodes s) h' →
  start_index ≤ index → 0 < remainder s →
  (length (b_nodes s) ≤ leaf)%nat → length h' = S leaf →
  h' !! leaf = Some nl → open_leaf index nl →
  (∀ i n, h' !! i = Some n → (length (b_nodes s) ≤ i < leaf)%nat →
          bit_vector n = 0) →
  0 ≤ al →
  builder_inv index
    (mkBuilder h' an ae al (remainder s - 1) prev (new_leaves s ++ [leaf])).
Proof.
  intros [Hsh Hal Hrem Hcnt Hgrow Hold Hnew Hinner] Hwf [_ Hstep] Hidx Hpos
    Hleaf Hlen Hnl Hopen Hmid Hal'.
  split; simpl; try done.
  - lia.
  - rewrite length_app. simpl. lia.
  - lia.
  - intros i n0 Hi. destruct (Hold _ _ Hi) as (n & Hn & Ho).
    destruct (Hstep _ _ Hn) as (n' & Hn' & Hs). eauto using old_node_step.
  - intros i [Hi| ->%list_elem_of_singleton]%elem_of_app.
    + destruct (Hnew _ Hi) as (Hge & n & Hn & Ho). split; [done|].
      destruct (Hstep _ _ Hn) as (n' & Hn' & Hs). eauto using open_leaf_step.
    + split; [lia|]. eauto.
  - intros i n' Hi Hge Hnot.
    apply not_elem_of_app in Hnot as [Hnot Hne].
    apply not_elem_of_cons in Hne as [Hne _].
    pose proof (lookup_lt_Some _ _ _ Hi) as Hlt. rewrite Hlen in Hlt.
    destruct (decide (i < length (b_nodes s))%nat) as [Hlt'|Hge'].
    + destruct (lookup_lt_is_Some_2 (b_nodes s) i) as [n Hn]; [done|].
      destruct (Hstep _ _ Hn) as (n'' & Hn'' & Hs).
      assert (n'' = n') by congruence. subst n''.
      destruct Hs as (-> & _). eauto.
    + eapply Hmid; [done|lia].
Qed.

Lemma getitem_det (s : pystr) i c1 c2 :
  getitem s i = Ok c1 → getitem s i = Ok c2 → c1 = c2.
Proof. congruence. Qed.

(** One iteration of the [while] loop keeps the invariant. *)
Lemma extend_inv index s f s' :
  builder_inv index s → start_index ≤ index → 0 < remainder s →
  extend input r k index s = Ok (f, s') → builder_inv index s'.
Proof.
  intros Hinv Hidx Hpos H. unfold extend in H.
  apply bind_Ok in H as (key & Hkey & H).
  apply bind_Ok in H as (na & Hna & H). apply get_some_Ok in Hna.
  pose proof (bi_shape _ _ _ _ _ _ Hinv) as Hwf.
  pose proof (bi_length _ _ _ _ _ _ Hinv) as Hal.
  destruct (dict_get key (edges na)) as [next|] eqn:Hget.
  - (* an edge starts with the symbol *)
    apply bind_Ok in H as (nn & Hnn & H). apply get_some_Ok in Hnn.
    destruct (active_length s >=? get_edge_length nn index) eqn:Hwalk.
    { (* walk down *)
      injection H as <- <-.
      apply builder_inv_step; try done; [apply arena_step_refl | lia]. }
    apply bind_Ok in H as (c1 & Hc1 & H).
    apply bind_Ok in H as (c2 & Hc2 & H).
    destruct (decide (c1 = c2)) as [->|Hc].
    { (* the suffix is there already *)
      apply bind_Ok in H as (h1 & Hlink & H). injection H as <- <-.
      pose proof (link_shape_step index _ _ _ _ Hlink) as [Hsame Hstep].
      apply builder_inv_step; try done; [by eapply same_shape_wf | apply Hsame | lia]. }
    (* split the edge *)
    apply bind_Ok in H as ([h1 sp] & Hadd & H).
    apply bind_Ok in H as (nn1 & Hnn1 & H). apply get_some_Ok in Hnn1.
    apply bind_Ok in H as (h2 & Hstart & H).
    apply bind_Ok in H as (nn2 & Hnn2 & H). apply get_some_Ok in Hnn2.
    apply bind_Ok in H as (k2 & Hk2 & H).
    apply bind_Ok in H as (h3 & Hex & H).
    apply bind_Ok in H as (k3 & Hk3 & H).
    apply bind_Ok in H as ([h4 leaf] & Hadd2 & H).
    apply bind_Ok in H as (h5 & Hbv & H).
    apply bind_Ok in H as (h6 & Hlink & H).
    apply bind_Ok in H as (s1 & Hfollow & H). injection H as <- <-.
    destruct (split_edge_wf _ _ _ _ _ _ _ _ _ _ _ _ _ _ _ Hwf Hna Hget Hnn Hadd Hstart Hex)
      as (Hwf3 & Hnext1 & nsp & Hsp3 & Hsp_e).
    assert (nn1 = nn) by congruence. subst nn1.
    pose proof (add_child_step index _ _ _ _ _ _ _ Hadd) as (-> & Hlen1 & Hstep1 & Hsp1).
    assert (nn2 = set_start (start nn + active_length s) nn).
    { apply assign_Ok in Hstart as (n & Hn & ->).
      rewrite list_lookup_insert_eq in Hnn2 by eauto using lookup_lt_Some.
      congruence. }
    subst nn2. simpl in Hk2.
    assert (k2 = c1) by (eapply getitem_det; eauto). subst k2.
    assert (k3 = c2) by (eapply getitem_det; eauto). subst k3.
    assert (arena_step index h1 h2) as Hstep2.
    { eapply assign_arena_step; [|done]. intros n Hn.
      assert (n = nn) by congruence. subst n.
      unfold node_step, get_edge_length in *. simpl. split_and!; [done|done|lia|lia]. }
    pose proof (add_exisiting_node_as_child_step index _ _ _ _ _ Hex) as (Hlen3 & Hstep3).
    assert (length h2 = length h1) as Hlen2.
    { apply assign_Ok in Hstart as (n & Hn & ->). apply length_insert. }
    pose proof (new_leaf_step _ _ _ _ _ _ _ _ Hadd2 Hbv)
      as (-> & Hlen5 & Hstep5 & Hsame5 & nl & Hnl & Hnl_b & Hnl_s & Hnl_e).
    pose proof (link_shape_step index _ _ _ _ Hlink) as [Hsame6 Hstep6].
    assert (wf_shape h4 r) as Hwf4.
    { eapply add_leaf_wf; [exact Hwf3 | exact Hsp3 | | exact Hadd2].
      rewrite Hsp_e. simpl. by rewrite decide_False. }
    assert (wf_shape h6 r) as Hwf6 by eauto using same_shape_wf.
    destruct (follow_Ok _ _ _ _ Hfollow) as (Hn1 & Hl1 & Hr1 & _ & Hal1).
    destruct s1 as [h' an' ae' al' rem' prev' nl']. simpl in *.
    subst h' nl' rem'.
    assert (arena_step index h1 h6) as Hs16.
    { eapply arena_step_trans; [exact Hstep2|].
      eapply arena_step_trans; [exact Hstep3|].
      eapply arena_step_trans; [exact Hstep5|exact Hstep6]. }
    assert (arena_step index (b_nodes s) h6) as Hs06
      by (eapply arena_step_trans; [exact Hstep1|exact Hs16]).
    destruct Hstep6 as [Hlen6' Hstep6]. destruct Hsame6 as [Hlen6 _].
    destruct (Hstep6 _ _ Hnl) as (nlf & Hnlf & Hsl).
    apply (builder_inv_leaf _ _ _ _ _ _ _ (length h3) nlf); try done.
    + lia.
    + lia.
    + eapply open_leaf_step; [|done]. unfold open_leaf. lia.
    + intros i n Hi Hrange. assert (i = length (b_nodes s)) as -> by lia.
      destruct Hs16 as [_ Hs16].
      destruct (Hs16 _ _ Hsp1) as (n' & Hn' & Hb & _).
      assert (n' = n) by congruence. subst n'. by rewrite Hb.
    + by apply Hal1.
  - (* no edge starts with the symbol: a new leaf *)
    apply bind_Ok in H as ([h1 leaf] & Hadd & H).
    apply bind_Ok in H as (h2 & Hbv & H).
    apply bind_Ok in H as (h3 & Hlink & H).
    apply bind_Ok in H as (s1 & Hfollow & H). injection H as <- <-.
    pose proof (new_leaf_step _ _ _ _ _ _ _ _ Hadd Hbv)
      as (-> & Hlen2 & Hstep2 & Hsame2 & nl & Hnl & Hnl_b & Hnl_s & Hnl_e).
    pose proof (link_shape_step index _ _ _ _ Hlink) as [Hsame3 Hstep3].
    assert (wf_shape h3 r) as Hwf3.
    { eapply same_shape_wf; [exact Hsame3|]. eapply same_shape_wf; [exact Hsame2|].
      eapply add_leaf_wf; eauto. }
    destruct (follow_Ok _ _ _ _ Hfollow) as (Hn1 & Hl1 & Hr1 & _ & Hal1).
    destruct s1 as [h' an' ae' al' rem' prev' nl']. simpl in *.
    subst h' nl' rem'.
    destruct Hstep3 as [Hlen3' Hstep3]. destruct Hsame3 as [Hlen3 _].
    destruct (Hstep3 _ _ Hnl) as (nlf & Hnlf & Hsl).
    apply (builder_inv_leaf _ _ _ _ _ _ _ (length (b_nodes s)) nlf); try done.
    + eapply arena_step_trans; [exact Hstep2|]. split; eauto.
    + lia.
    + eapply open_leaf_step; [|done]. unfold open_leaf. lia.
    + intros; lia.
    + by apply Hal1.
Qed.

Lemma while_remainder_inv fuel index s s' :
  builder_inv index s → start_index ≤ index →
  while_remainder input r k fuel index s = Ok s' → builder_inv index s'.
Proof.
  revert s. induction fuel as [|fuel IH]; intros s Hinv Hidx; simpl.
  - destruct (0 <? remainder s); [discriminate | by intros [= <-]].
  - destruct (0 <? remainder s) eqn:Hpos; [|by intros [= <-]].
    intros H. apply bind_Ok in H as ([f s1] & Hext & H).
    apply extend_inv in Hext; [|done|done|lia].
    destruct f; [by apply (IH s1) | by injection H as <-].
Qed.

Lemma for_index_inv fuel index s s' :
  builder_inv (index - 1) s → start_index ≤ index →
  for_index input r k fuel s index = Ok s' → builder_inv index s'.
Proof.
  intros [Hsh Hal Hrem Hcnt Hgrow Hold Hnew Hinner] Hidx H.
  eapply while_remainder_inv; [|done|exact H].
  split; simpl; try done; [lia | lia |].
  intros i Hi. destruct (Hnew i Hi) as (Hge & n & Hn & Hb & Hs & He).
  split; [done|]. exists n. unfold open_leaf. split_and!; [done|done|lia|lia|done].
Qed.

Lemma main_circle_inv fuel (c : nat) m s s' :
  builder_inv (m - 1) s → start_index ≤ m →
  main_circle input r k fuel s (seqZ m (Z.of_nat c)) = Ok s' →
  builder_inv (m + Z.of_nat c - 1) s'.
Proof.
  revert m s. induction c as [|c IH]; intros m s Hinv Hm.
  - simpl. intros [= <-]. by rewrite Z.add_0_r.
  - rewrite seqZ_cons by lia. simpl. intros H.
    apply bind_Ok in H as (s1 & Hfor & H).
    apply for_index_inv in Hfor; [|done..].
    replace (Z.pred (Z.of_nat (S c))) with (Z.of_nat c) in H by lia.
    apply IH in H; [| by replace (Z.succ m - 1) with m by lia | lia].
    by replace (m + Z.of_nat (S c) - 1) with (Z.succ m + Z.of_nat c - 1) by lia.
Qed.
End construction.

Lemma update_ends_Ok (h h' : arena) ls e :
  update_ends h ls e = Ok h' →
  same_shape h h' ∧
  ∀ i n, h !! i = Some n →
    ∃ n', h' !! i = Some n' ∧ bit_vector n' = bit_vector n ∧
      start n' = start n ∧ end_ n' = if decide (i ∈ ls) then e else end_ n.
Proof.
  revert h. induction ls as [|l ls IH]; intros h; cbn [update_ends].
  - intros [= <-]. split; [apply same_shape_refl|]. intros i n Hi. exists n.
    rewrite decide_False by apply not_elem_of_nil. done.
  - intros H. apply bind_Ok in H as (h1 & Hset & H).
    destruct (IH _ H) as [Hsame IH'].
    assert (same_shape h h1) as Hsame1 by (by eapply assign_same_shape; [|done]).
    split; [by eapply same_shape_trans|].
    apply assign_Ok in Hset as (nl & Hl & ->). intros i n Hi.
    destruct (decide (i = l)) as [->|Hne].
    + assert (n = nl) by congruence. subst n.
      destruct (IH' l (set_end e nl)) as (n' & Hn' & Hb & Hs & He).
      { apply list_lookup_insert_eq. eauto using lookup_lt_Some. }
      exists n'. rewrite decide_True by left. split_and!; [done..|].
      rewrite He. by case_decide.
    + destruct (IH' i n) as (n' & Hn' & Hb & Hs & He).
      { by rewrite list_lookup_insert_ne. }
      exists n'. split_and!; [done..|]. rewrite He.
      repeat case_decide; try done.
      * exfalso. match goal with H : i ∉ l :: ls |- _ => apply H end. by right.
      * match goal with H : i ∈ l :: ls |- _ =>
          apply elem_of_cons in H as [?|?]; done end.
Qed.

(** ** Trees built by [append_string] *)

Lemma buffer_of_snoc strs s :
  buffer_of (strs ++ [s]) = buffer_of strs ++ terminated (length strs) s.
Proof.
  unfold buffer_of. rewrite imap_app, concat_app. simpl.
  by rewrite app_nil_r, Nat.add_0_r.
Qed.

Lemma string_start_snoc strs s k :
  (k ≤ length strs)%nat → string_start (strs ++ [s]) k = string_start strs k.
Proof. intros. unfold string_start. by rewrite take_app_le. Qed.

Lemma string_end_snoc strs s k :
  (k < length strs)%nat → string_end (strs ++ [s]) k = string_end strs k.
Proof. intros. unfold string_end. by rewrite take_app_le by lia. Qed.

Lemma string_start_length strs : string_start strs (length strs) = len (buffer_of strs).
Proof. unfold string_start. by rewrite firstn_all. Qed.

Lemma string_end_last strs s :
  string_end (strs ++ [s]) (length strs) = len (buffer_of (strs ++ [s])).
Proof.
  unfold string_end. rewrite take_ge; [done|]. rewrite length_app. simpl. lia.
Qed.

Lemma tree_inv_new : tree_inv [] new_tree.
Proof.
  split; simpl; try done.
  - split; simpl.
    + by exists (new_node 0 END_OF_STRING).
    + intros [|p] np key j; simpl; [|done]. intros [= <-]. simpl. by intros ?%elem_of_nil.
    + intros [|j] nj p; simpl; [|done]. by intros [= <-].
    + intros [|p] np; simpl; [|done]. intros [= <-]. apply NoDup_nil_2.
    + intros [|p] np; simpl; [|done]. intros [= <-]. apply NoDup_nil_2.
    + intros j Hj. assert (j = 0%nat) as -> by lia. exists 0%nat. split; [constructor|lia].
  - by intros l ?%elem_of_nil.
  - intros [|i] n; simpl; [|done]. by intros [= <-].
Qed.

Lemma append_string_inv strs fuel t s c t' :
  tree_inv strs t → append_string fuel t s c = Ok t' →
  tree_inv (strs ++ [s]) t'.
Proof.
  intros [Hsh Hin Hcnt Hlv Hinner Hbound] H.
  unfold append_string, build in H. cbn [register root nodes input_string strings_count leaves classes] in H.
  apply bind_Ok in H as (sf & Hmain & H).
  apply bind_Ok in H as (h' & Hends & H). injection H as <-.
  set (input' := input_string t ++ s ++ dollar :: str (strings_count t)) in *.
  assert (input' = buffer_of (strs ++ [s])) as Hinput'.
  { rewrite buffer_of_snoc, <-Hin, <-Hcnt. done. }
  assert (len input' - len (input_string t) = Z.of_nat (length s + S (length (str (strings_count t))))) as Hn.
  { unfold input', len. rewrite !length_app. simpl. lia. }
  rewrite Hn in Hmain.
  apply (main_circle_inv _ _ _ (len (input_string t)) (nodes t)) in Hmain; [| |lia].
  2:{ split; simpl; try done; try lia.
      - intros i n0 Hi. exists n0. unfold old_node. split_and!; auto with lia.
      - by intros i ?%elem_of_nil.
      - intros i n Hi Hge. apply lookup_lt_Some in Hi. lia. }
  rewrite <-Hn in Hmain.
  replace (len (input_string t) + (len input' - len (input_string t)) - 1)
    with (len input' - 1) in Hmain by lia.
  destruct Hmain as [Hsh' Hal Hrem Hcnt' Hgrow Hold Hnew Hinner'].
  destruct (update_ends_Ok _ _ _ _ Hends) as [Hsame Hflds].
  split; cbn [root nodes input_string strings_count leaves classes].
  - by eapply same_shape_wf.
  - done.
  - rewrite length_app, Hcnt. simpl. lia.
  - intros l [Hl|Hl]%elem_of_app.
    + destruct (Hlv _ Hl) as (k' & _ & Hk' & n0 & Hn0 & Hb0 & Hs0 & Hlt0 & He0).
      destruct (Hold _ _ Hn0) as (n & Hn1 & Hb & He & Hs & Hlt).
      destruct (Hflds _ _ Hn1) as (n' & Hn' & Hb' & Hs' & He').
      rewrite decide_False in He'.
      2:{ intros Hmem. apply Hnew in Hmem as [Hge _]. apply lookup_lt_Some in Hn0. lia. }
      exists k'. split; [apply elem_of_app; by left|].
      split; [rewrite length_app; lia|]. exists n'.
      rewrite string_start_snoc, string_end_snoc by lia.
      split_and!; [done | congruence | lia | lia | congruence].
    + destruct (Hnew _ Hl) as (Hge & n & Hn1 & Hb & Hs & He).
      destruct (Hflds _ _ Hn1) as (n' & Hn' & Hb' & Hs' & He').
      rewrite decide_True in He' by done.
      exists (length strs). split; [apply elem_of_app; by right|].
      split; [rewrite length_app; simpl; lia|]. exists n'.
      rewrite string_start_snoc, string_start_length, string_end_last by lia.
      rewrite <-Hinput', <-Hin.
      split_and!; [done | | lia | lia | done].
      rewrite Hb', Hb. unfold leaf_bit. by rewrite Hcnt.
  - intros i n' Hi Hnot. apply not_elem_of_app in Hnot as [Hnot1 Hnot2].
    destruct (lookup_lt_is_Some_2 (b_nodes sf) i) as [n Hn1].
    { destruct Hsame as [<- _]. eauto using lookup_lt_Some. }
    destruct (Hflds _ _ Hn1) as (n'' & Hn'' & Hb' & _).
    assert (n'' = n') by congruence. subst n''. rewrite Hb'.
    destruct (decide (i < length (nodes t))%nat) as [Hlt|Hge].
    + destruct (lookup_lt_is_Some_2 (nodes t) i) as [n0 Hn0]; [done|].
      destruct (Hold _ _ Hn0) as (n2 & Hn2 & Hb & _).
      assert (n2 = n) by congruence. subst n2. rewrite Hb. eauto.
    + eapply Hinner'; [done | lia | done].
  - rewrite length_app. unfold len in *. lia.
Qed.

Lemma built_inv ops t : built ops t → tree_inv ops.*1 t.
Proof.
  induction 1 as [|ops t fuel s c t' _ IH Happ].
  - apply tree_inv_new.
  - rewrite fmap_app. simpl. by eapply append_string_inv.
Qed.

(** ** Bit vectors as sets *)

Lemma bits_le_refl a : bits_le a a.
Proof. by intros i. Qed.

Lemma bits_le_trans a b c : bits_le a b → bits_le b c → bits_le a c.
Proof. unfold bits_le. auto. Qed.

Lemma bits_le_lor_l a b : bits_le a (Z.lor a b).
Proof. intros i Hi. rewrite Z.lor_spec, Hi. done. Qed.

Lemma bits_le_lor_r a b : bits_le b (Z.lor a b).
Proof. intros i Hi. rewrite Z.lor_spec, Hi. apply orb_true_r. Qed.

Lemma lor_absorb a b : Z.lor a b = a → bits_le b a.
Proof. intros <-. apply bits_le_lor_r. Qed.

Lemma testbit_shiftl_1 (k : nat) (i : Z) :
  Z.testbit (Z.shiftl 1 (Z.of_nat k)) i = true ↔ i = Z.of_nat k.
Proof.
  rewrite Z.shiftl_1_l. destruct (decide (i = Z.of_nat k)) as [->|Hne].
  - rewrite Z.pow2_bits_true by lia. done.
  - split; [|done]. destruct (decide (0 ≤ i)).
    + rewrite Z.pow2_bits_false by lia. done.
    + rewrite Z.testbit_neg_r by lia. done.
Qed.

(** ** Ancestors and subtrees *)

Lemma ancestor_snoc h j i ni p :
  ancestor h j i → h !! i = Some ni → parent ni = Some p → ancestor h j p.
Proof.
  induction 1 as [j|j nj q i Hj Hq _ IH]; intros Hi Hp.
  - eapply anc_step; [done..|constructor].
  - eapply anc_step; [done..|]. by apply IH.
Qed.

Lemma in_subtree_snoc h i p np key l :
  in_subtree h i p → h !! p = Some np → (key, l) ∈ edges np → in_subtree h i l.
Proof.
  induction 1 as [i|i ni k c p Hi Hin _ IH]; intros Hp Hl.
  - eapply sub_child; [done..|constructor].
  - eapply sub_child; [done..|]. by apply IH.
Qed.

Lemma in_subtree_ancestor h r i l :
  wf_shape h r → in_subtree h i l ↔ ancestor h l i.
Proof.
  intros Hwf. split.
  - induction 1 as [i|i ni key c l Hi Hin _ IH]; [constructor|].
    destruct (wf_edge_parent _ _ Hwf _ _ _ _ Hi Hin) as (nc & Hc & Hp).
    by eapply ancestor_snoc.
  - induction 1 as [j|j nj p i Hj Hp _ IH]; [constructor|].
    destruct (wf_parent_edge _ _ Hwf _ _ _ Hj Hp) as (np & key & Hnp & Hin).
    by eapply in_subtree_snoc.
Qed.

(** ** Propagation *)

Lemma bv_only_refl h : bv_only h h.
Proof. split; [done|]. intros i n Hi. exists n. by destruct n. Qed.

Lemma bv_only_trans h1 h2 h3 : bv_only h1 h2 → bv_only h2 h3 → bv_only h1 h3.
Proof.
  intros [L1 H1] [L2 H2]. split; [congruence|]. intros i n Hi.
  destruct (H1 _ _ Hi) as (n' & Hi' & E1). destruct (H2 _ _ Hi') as (n'' & Hi'' & E2).
  exists n''. split; [done|]. rewrite E2 at 1. rewrite E1. done.
Qed.

Lemma bv_only_upd (h : arena) i n b :
  h !! i = Some n → bv_only h (<[i := set_bit_vector b n]> h).
Proof.
  intros Hi. split; [apply length_insert|]. intros j nj Hj.
  rewrite (lookup_upd _ _ n) by done. case_decide; subst.
  - assert (nj = n) by congruence. subst. eauto.
  - exists nj. by destruct nj.
Qed.

Lemma bv_only_parent h h' i n n' :
  bv_only h h' → h !! i = Some n → h' !! i = Some n' → parent n' = parent n.
Proof.
  intros [_ H] Hi Hi'. destruct (H _ _ Hi) as (n'' & ? & E).
  assert (n'' = n') by congruence. subst. by rewrite E.
Qed.

Lemma bv_only_lookup_inv h h' i n' :
  bv_only h h' → h' !! i = Some n' → ∃ n, h !! i = Some n.
Proof.
  intros [L _] Hi. apply lookup_lt_is_Some_2. rewrite <-L. eauto using lookup_lt_Some.
Qed.

Lemma walk_up_inv fuel cls h0 todo h lca node prev c nc h' lca' :
  prop_inv h0 h todo (Some c) →
  h !! c = Some nc → parent nc = node → bit_vector nc = prev →
  walk_up fuel cls h lca node prev = Ok (h', lca') →
  prop_inv h0 h' todo None.
Proof.
  revert h lca node prev c nc.
  induction fuel as [|fuel IH]; intros h lca node prev c nc Hinv Hc Hpar Hbv.
  - destruct node as [p|]; simpl; [discriminate|]. intros [= <- <-].
    destruct Hinv as [Hf Hm Hs Hcl]. split; try done.
    intros j nj p np Hj Hp Hnp. destruct (Hcl _ _ _ _ Hj Hp Hnp) as [?|[[= <-]|?]]; auto.
    congruence.
  - destruct node as [p|]; simpl.
    2:{ intros [= <- <-]. destruct Hinv as [Hf Hm Hs Hcl]. split; try done.
        intros j nj p np Hj Hp Hnp.
        destruct (Hcl _ _ _ _ Hj Hp Hnp) as [?|[[= <-]|?]]; auto. congruence. }
    intros H. apply bind_Ok in H as (np & Hnp & H). apply get_some_Ok in Hnp.
    destruct (negb (prev =? 0) && (Z.lor (bit_vector np) prev =? bit_vector np)) eqn:Hbrk.
    + injection H as <- <-. apply andb_true_iff in Hbrk as [_ Hbrk].
      apply Z.eqb_eq, lor_absorb in Hbrk.
      destruct Hinv as [Hf Hm Hs Hcl]. split; try done.
      intros j nj q nq Hj Hq Hnq.
      destruct (Hcl _ _ _ _ Hj Hq Hnq) as [?|[[= <-]|?]]; auto.
      right. right. assert (nj = nc) by congruence. subst nj.
      assert (q = p) by congruence. subst q.
      assert (nq = np) by congruence. subst nq. by rewrite Hbv.
    + clear Hbrk. apply bind_Ok in H as (h1 & Hset & H).
      apply assign_Ok in Hset as (np' & Hnp' & ->).
      assert (np' = np) by congruence. subst np'.
      set (b := Z.lor (bit_vector np) prev) in *.
      eapply (IH _ _ _ _ p (set_bit_vector b np)); [|by eapply list_lookup_insert_eq, lookup_lt_Some|done|done|exact H].
      destruct Hinv as [Hf Hm Hs Hcl]. split.
      * eapply bv_only_trans; [done|]. by apply bv_only_upd.
      * intros i n0 n Hi0. rewrite (lookup_upd _ _ np) by done.
        case_decide as Hd; [subst i|].
        -- intros [= <-]. simpl. eapply bits_le_trans; [by eapply Hm|apply bits_le_lor_l].
        -- eauto.
      * intros i n bit. rewrite (lookup_upd _ _ np) by done.
        case_decide as Hd; [subst i|by eauto].
        intros [= <-]. simpl. unfold b. rewrite Z.lor_spec.
        intros [Hb|Hb]%orb_true_iff; [by eauto|].
        destruct (Hs c nc bit) as (j & n0 & Hanc & Hj0 & Hbit); [done|by rewrite Hbv|].
        exists j, n0. split; [|done].
        destruct (bv_only_lookup_inv _ _ _ _ Hf Hc) as [nc0 Hc0].
        eapply ancestor_snoc; [done..|].
        rewrite <-(bv_only_parent _ _ _ _ _ Hf Hc0 Hc). done.
      * intros j nj q nq. rewrite !(lookup_upd _ _ np) by done.
        destruct (decide (j = p)) as [->|Hjp]; [auto|].
        intros Hj Hq. case_decide as Hd; [subst q|].
        -- intros [= <-]. simpl.
           destruct (Hcl _ _ _ _ Hj Hq Hnp) as [?|[[= <-]|?]]; auto.
           ++ right. right. assert (nj = nc) by congruence. subst nj.
              rewrite Hbv. apply bits_le_lor_r.
           ++ right. right. eapply bits_le_trans; [done|apply bits_le_lor_l].
        -- intros Hnq. destruct (Hcl _ _ _ _ Hj Hq Hnq) as [?|[[= <-]|?]]; auto.
           congruence.
Qed.

Lemma set_bit_vector_id n : set_bit_vector (bit_vector n) n = n.
Proof. by destruct n. Qed.

Lemma walk_leaf_inv fuel cls h0 todo h lca l h' lca' :
  prop_inv h0 h (l :: todo) None →
  walk_up fuel cls h lca (Some l) 0 = Ok (h', lca') →
  prop_inv h0 h' todo None.
Proof.
  intros Hinv. destruct fuel as [|fuel]; simpl; [discriminate|].
  intros H. apply bind_Ok in H as (n & Hn & H). apply get_some_Ok in Hn.
  apply bind_Ok in H as (h1 & Hset & H).
  apply assign_Ok in Hset as (n' & Hn' & ->).
  assert (n' = n) by congruence. subst n'.
  rewrite Z.lor_0_r in H. rewrite set_bit_vector_id, list_insert_id in H by done.
  eapply (walk_up_inv _ _ _ _ _ _ _ _ l n); [|done..|exact H].
  destruct Hinv as [Hf Hm Hs Hcl]. split; try done.
  intros j nj p np Hj Hp Hnp.
  destruct (Hcl _ _ _ _ Hj Hp Hnp) as [[->|?]%elem_of_cons|[?|?]]; auto; done.
Qed.

Lemma propagate_inv cls h0 h lca ls h' lca' :
  prop_inv h0 h ls None →
  propagate cls h lca ls = Ok (h', lca') →
  prop_inv h0 h' [] None.
Proof.
  revert h lca. induction ls as [|l ls IH]; intros h lca Hinv; simpl.
  - by intros [= <- <-].
  - intros H. apply bind_Ok in H as ([h1 lca1] & Hwalk & H).
    apply (walk_leaf_inv _ _ h0 ls) in Hwalk; [|done]. by eapply IH.
Qed.

Lemma prop_inv_start h ls :
  (∀ i n, h !! i = Some n → i ∉ ls → bit_vector n = 0) →
  prop_inv h h ls None.
Proof.
  intros Hinner. split.
  - apply bv_only_refl.
  - intros i n0 n H0 H1. assert (n0 = n) by congruence. subst. apply bits_le_refl.
  - intros i n b Hi Hb. exists i, n. split; [constructor|done].
  - intros j nj p np Hj Hp Hnp. destruct (decide (j ∈ ls)); [by left|].
    right. right. rewrite (Hinner _ _ Hj) by done. intros i. by rewrite Z.bits_0.
Qed.

(** Once every leaf has been walked from, the vector of a node contains the
    vector of everything below it. *)
Lemma prop_inv_chain h0 h l i nl ni :
  prop_inv h0 h [] None → ancestor h0 l i →
  h !! l = Some nl → h !! i = Some ni →
  bits_le (bit_vector nl) (bit_vector ni).
Proof.
  intros [Hf Hm Hs Hcl] Hanc. revert nl ni.
  induction Hanc as [j|j nj p i Hj Hp Hanc IH]; intros nl ni Hl Hi.
  - assert (nl = ni) by congruence. subst. apply bits_le_refl.
  - pose proof (bv_only_parent _ _ _ _ _ Hf Hj Hl) as Hpar.
    destruct Hf as [Hlen Hf'].
    assert (∃ np0, h0 !! p = Some np0) as [np0 Hp0].
    { inversion Hanc; subst; [|by eauto].
      apply lookup_lt_is_Some_2. rewrite <-Hlen. eauto using lookup_lt_Some. }
    destruct (Hf' _ _ Hp0) as (np' & Hp' & _).
    eapply bits_le_trans; [|by eapply IH].
    destruct (Hcl j nl p np') as [?%elem_of_nil|[?|?]]; try done.
    congruence.
Qed.

Lemma prop_inv_complete h0 h l i n0 ni :
  prop_inv h0 h [] None → ancestor h0 l i →
  h0 !! l = Some n0 → h !! i = Some ni →
  bits_le (bit_vector n0) (bit_vector ni).
Proof.
  intros Hinv Hanc H0 Hi.
  destruct (pi_frame _ _ _ _ Hinv) as [_ Hf]. destruct (Hf _ _ H0) as (nl & Hl & _).
  eapply bits_le_trans; [by eapply (pi_mono _ _ _ _ Hinv)|].
  by eapply prop_inv_chain.
Qed.

Lemma propagation_Ok t t' lca :
  propagation t = Ok (t', lca) →
  root t' = root t ∧ input_string t' = input_string t ∧
  strings_count t' = strings_count t ∧ leaves t' = leaves t ∧
  classes t' = classes t ∧
  ∃ lca0, propagate (classes t) (nodes t) lca0 (leaves t) = Ok (nodes t', lca).
Proof.
  unfold propagation. intros H. apply bind_Ok in H as ([h lca1] & Hp & H).
  injection H as <- <-. simpl. eauto 10.
Qed.

Lemma find_common_substrings_Ok set_order t m r t' :
  find_common_substrings set_order t m = Ok (r, t') →
  ∃ lca, propagation t = Ok (t', lca) ∧
    materialize t' m (set_order lca) ∅ ∅ = Ok r.
Proof.
  unfold find_common_substrings. intros H.
  apply bind_Ok in H as ([t1 lca] & Hp & H).
  apply bind_Ok in H as (rv & Hm & H). injection H as <- <-. eauto.
Qed.

Lemma walk_up_frame fuel cls h lca node prev h' lca' :
  walk_up fuel cls h lca node prev = Ok (h', lca') → bv_only h h'.
Proof.
  revert h lca node prev. induction fuel as [|fuel IH]; intros h lca [p|] prev; simpl;
    try discriminate; try (intros [= <- <-]; apply bv_only_refl).
  intros H. apply bind_Ok in H as (np & Hnp & H). apply get_some_Ok in Hnp.
  destruct (_ && _).
  - injection H as <- <-. apply bv_only_refl.
  - apply bind_Ok in H as (h1 & Hset & H). apply assign_Ok in Hset as (n & Hn & ->).
    eapply bv_only_trans; [by apply bv_only_upd|by eapply IH].
Qed.

Lemma propagate_frame cls h lca ls h' lca' :
  propagate cls h lca ls = Ok (h', lca') → bv_only h h'.
Proof.
  revert h lca. induction ls as [|l ls IH]; intros h lca; simpl.
  - intros [= <- <-]. apply bv_only_refl.
  - intros H. apply bind_Ok in H as ([h1 lca1] & Hwalk & H).
    eapply bv_only_trans; [by eapply walk_up_frame|by eapply IH].
Qed.

Lemma testbit_foldr_lor (L : list (nat * nat)) (b : Z) :
  Z.testbit (foldr (λ lk acc, Z.lor (Z.shiftl 1 (Z.of_nat lk.2)) acc) 0 L) b = true
  ↔ ∃ l k, (l, k) ∈ L ∧ b = Z.of_nat k.
Proof.
  induction L as [|[l k] L IH]; simpl.
  - rewrite Z.bits_0. split; [done|]. by intros (? & ? & ?%elem_of_nil & _).
  - rewrite Z.lor_spec, orb_true_iff, testbit_shiftl_1, IH. split.
    + intros [->|(l' & k' & Hin & ->)]; [exists l, k|exists l', k'].
      * split; [left|done].
      * split; [by right|done].
    + intros (l' & k' & [[= -> ->]|Hin]%elem_of_cons & ->); [by left|].
      right. eauto.
Qed.

(** C10: a call of [find_common_substrings] that returns has changed nothing
    but [bit_vector] fields: the buffer, the count of strings, the list of
    leaves, the classes, and [start], [end], [edges], [parent] and
    [suffix_link] of every node are as before. *)
Theorem find_common_substrings_frame set_order t m r t' :
  find_common_substrings set_order t m = Ok (r, t') →
  root t' = root t ∧ input_string t' = input_string t ∧
  strings_count t' = strings_count t ∧ leaves t' = leaves t ∧
  classes t' = classes t ∧ length (nodes t') = length (nodes t) ∧
  ∀ i n, nodes t !! i = Some n →
    ∃ n', nodes t' !! i = Some n' ∧ start n' = start n ∧ end_ n' = end_ n ∧
      edges n' = edges n ∧ parent n' = parent n ∧
      suffix_link n' = suffix_link n.
Proof.
  intros (lca & Hp & _)%find_common_substrings_Ok.
  apply propagation_Ok in Hp as (Hr & Hi & Hc & Hl & Hcl & lca0 & Hp).
  apply propagate_frame in Hp as [Hlen Hf].
  split_and!; try done. intros i n Hn.
  destruct (Hf _ _ Hn) as (n' & Hn' & E). exists n'. split; [done|].
  rewrite E. done.
Qed.

(** Bit [k] of a vector, after the first propagation on a built tree, says
    that a leaf of string [k] lies below the node. *)
Lemma propagation_bits ops t t' lca i n' b :
  built ops t → propagation t = Ok (t', lca) → nodes t' !! i = Some n' →
  Z.testbit (bit_vector n') b = true ↔
  ∃ l k, b = Z.of_nat k ∧ leaf_of ops.*1 t l k ∧ in_subtree (nodes t) i l.
Proof.
  intros Hbuilt Hp Hn'.
  apply built_inv in Hbuilt as [Hsh Hin Hcnt Hlv Hinner Hbound].
  apply propagation_Ok in Hp as (Hr & _ & _ & _ & _ & lca0 & Hp).
  apply (propagate_inv _ (nodes t)) in Hp; [|by apply prop_inv_start].
  split.
  - intros Hb. destruct (pi_sound _ _ _ _ Hp _ _ _ Hn' Hb) as (j & n0 & Hanc & Hj & Hb0).
    destruct (decide (j ∈ leaves t)) as [Hjl|Hjl].
    2:{ rewrite (Hinner _ _ Hj Hjl), Z.bits_0 in Hb0. done. }
    destruct (Hlv _ Hjl) as (k & Hleaf). exists j, k.
    split; [|split; [done|by eapply in_subtree_ancestor]].
    destruct Hleaf as (_ & _ & n & Hn & Hbv & _).
    assert (n = n0) by congruence. subst n. rewrite Hbv in Hb0.
    by apply testbit_shiftl_1 in Hb0.
  - intros (l & k & -> & (_ & _ & n & Hn & Hbv & _) & Hsub).
    eapply (prop_inv_complete _ _ l i n n' Hp); [by eapply in_subtree_ancestor|done..|].
    rewrite Hbv. by apply testbit_shiftl_1.
Qed.

(** ** The order in which the candidates are visited *)

Lemma materialize_candidates t m ord es :
  candidates t m ord = Ok es →
  ∀ R : gmap pystr (list (list Z)),
    materialize t m ord (dom R) R = Ok (R ∪ list_to_map es).
Proof.
  revert es. induction ord as [|ca ord IH]; intros es; simpl.
  - intros [= <-] R. simpl. by rewrite map_union_empty.
  - intros H R. apply bind_Ok in H as (e & He & H).
    apply bind_Ok in H as (es' & Hes & H). injection H as <-.
    unfold candidate in He. apply bind_Ok in He as (cs & Hcs & He).
    rewrite Hcs. simpl.
    destruct (m <=? len (strip_unique_ending cs)) eqn:Hlen; simpl.
    + apply bind_Ok in He as (pos & Hpos & He).
      apply bind_Ok in He as (n & Hn & He).
      apply bind_Ok in He as (pos' & Hpos' & He). injection He as <-.
      case_bool_decide as Hin.
      * rewrite Hpos. simpl. rewrite Hn. simpl. rewrite Hpos'. simpl.
        replace ({[strip_unique_ending cs]} ∪ dom R)
          with (dom (<[strip_unique_ending cs := pos']> R)) by (by rewrite dom_insert_L).
        rewrite (IH _ Hes). simpl. f_equal.
        rewrite <-insert_union_l, <-insert_union_r; [done|].
        by apply not_elem_of_dom.
      * rewrite (IH _ Hes). simpl. f_equal.
        apply elem_of_dom in Hin as [v Hv].
        apply map_eq. intros i. rewrite !lookup_union.
        destruct (decide (i = strip_unique_ending cs)) as [->|Hne].
        -- rewrite Hv. by rewrite !union_Some_l.
        -- by rewrite lookup_insert_ne.
    + injection He as <-. by apply IH.
Qed.

Lemma candidates_perm t m ord ord' es :
  ord ≡ₚ ord' → candidates t m ord = Ok es →
  ∃ es', candidates t m ord' = Ok es' ∧ es ≡ₚ es'.
Proof.
  intros Hperm. revert es.
  induction Hperm as [|x l l' _ IH|x y l|l1 l2 l3 _ IH1 _ IH2]; intros es; simpl.
  - intros [= <-]. by exists [].
  - intros H. apply bind_Ok in H as (e & He & H).
    apply bind_Ok in H as (es0 & Hes & H). injection H as <-.
    destruct (IH _ Hes) as (es1 & -> & Hp). rewrite He. simpl.
    eexists. split; [done|]. destruct e; [by constructor|done].
  - intros H. apply bind_Ok in H as (ey & Hy & H).
    apply bind_Ok in H as (es0 & H0 & H). injection H as <-.
    apply bind_Ok in H0 as (ex & Hx & H0).
    apply bind_Ok in H0 as (es1 & H1 & H0). injection H0 as <-.
    rewrite Hx, Hy, H1. simpl. eexists. split; [done|].
    destruct ex, ey; try done. apply perm_swap.
  - intros H. destruct (IH1 _ H) as (es1 & H1 & Hp1).
    destruct (IH2 _ H1) as (es2 & H2 & Hp2). exists es2. split; [done|].
    by etrans.
Qed.

(** When the candidates give pairwise distinct substrings, the mapping does
    not depend on the order in which the set yields them. *)
Lemma materialize_any_order t m ord ord' es :
  ord ≡ₚ ord' → candidates t m ord' = Ok es → NoDup es.*1 →
  materialize t m ord ∅ ∅ = Ok (list_to_map es).
Proof.
  intros Hperm Hes Hnd. symmetry in Hperm.
  destruct (candidates_perm _ _ _ _ _ Hperm Hes) as (es' & Hes' & Hp).
  pose proof (materialize_candidates _ _ _ _ Hes' ∅) as H.
  rewrite dom_empty_L, map_empty_union in H. rewrite H. f_equal.
  symmetry. by apply list_to_map_proper.
Qed.

(** ** Fuel *)

(** More fuel does not change what a loop returns. *)
Lemma while_remainder_mono input r k fuel fuel' index s s' :
  (fuel ≤ fuel')%nat →
  while_remainder input r k fuel index s = Ok s' →
  while_remainder input r k fuel' index s = Ok s'.
Proof.
  revert fuel' s. induction fuel as [|fuel IH]; intros fuel' s Hle; simpl.
  - destruct (0 <? remainder s) eqn:Hpos; [discriminate|].
    intros [= <-]. destruct fuel'; simpl; by rewrite Hpos.
  - destruct fuel' as [|fuel']; [lia|]. simpl.
    destruct (0 <? remainder s); [|done].
    intros H. apply bind_Ok in H as ([f s1] & Hext & H). rewrite Hext. simpl.
    destruct f; [|done]. apply IH; [lia|done].
Qed.

Lemma main_circle_mono input r k fuel fuel' s indices s' :
  (fuel ≤ fuel')%nat →
  main_circle input r k fuel s indices = Ok s' →
  main_circle input r k fuel' s indices = Ok s'.
Proof.
  intros Hle. revert s. induction indices as [|index indices IH]; intros s; simpl; [done|].
  intros H. apply bind_Ok in H as (s1 & Hfor & H).
  unfold for_index in *. rewrite (while_remainder_mono _ _ _ _ _ _ _ _ Hle Hfor).
  simpl. by apply IH.
Qed.

Lemma append_string_mono fuel fuel' t s c t' :
  (fuel ≤ fuel')%nat →
  append_string fuel t s c = Ok t' → append_string fuel' t s c = Ok t'.
Proof.
  intros Hle. unfold append_string, build. intros H.
  apply bind_Ok in H as (sf & Hmain & H).
  by rewrite (main_circle_mono _ _ _ _ _ _ _ _ Hle Hmain).
Qed.

Lemma append_string_det fuel1 fuel2 t s c t1 t2 :
  append_string fuel1 t s c = Ok t1 → append_string fuel2 t s c = Ok t2 →
  t1 = t2.
Proof.
  intros H1 H2.
  apply (append_string_mono _ (fuel1 `max` fuel2)) in H1; [|lia].
  apply (append_string_mono _ (fuel1 `max` fuel2)) in H2; [|lia].
  congruence.
Qed.

(** The calls determine the tree. *)
Lemma built_det ops t1 t2 : built ops t1 → built ops t2 → t1 = t2.
Proof.
  intros H1. revert t2. induction H1 as [|ops t fuel s c t' _ IH Happ]; intros t2 H2.
  - inversion H2 as [|ops' ? ? ? ? ? ? ? Heq]; [done|].
    by apply app_nil in Heq as [_ ?].
  - inversion H2 as [Heq|ops' t0 fuel' s' c' ? Hb Happ' Heq]; subst.
    + symmetry in Heq. by apply app_nil in Heq as [_ ?].
    + apply app_inj_tail in Heq as [-> [= -> ->]].
      rewrite (IH _ Hb) in Happ. by eapply append_string_det.
Qed.

(** ** The loops of the extraction end *)

Lemma bv_only_same_shape h h' : bv_only h h' → same_shape h h'.
Proof.
  intros [Hlen H]. split; [done|]. intros i n Hi.
  destruct (H _ _ Hi) as (n' & Hi' & E). exists n'. split; [done|]. by rewrite E.
Qed.

Lemma walk_up_returns fuel cls h r lca j d prev :
  (∃ nr, h !! r = Some nr ∧ parent nr = None) →
  reach h r j d → (d < fuel)%nat →
  ∃ h' lca', walk_up fuel cls h lca (Some j) prev = Ok (h', lca') ∧
    ∀ x, x ∈ lca' → x ∈ lca ∨ (x < length h)%nat.
Proof.
  intros Hroot. revert h lca j d prev Hroot.
  induction fuel as [|fuel IH]; intros h lca j d prev Hroot Hreach Hd; [lia|].
  assert (∃ nj, h !! j = Some nj ∧
            (parent nj = None ∨ ∃ p d', parent nj = Some p ∧ reach h r p d' ∧ d = S d'))
    as (nj & Hj & Hpar).
  { inversion Hreach; subst.
    - destruct Hroot as (nr & ? & ?). eauto.
    - eauto 10. }
  cbn [walk_up]. unfold deref at 1. rewrite Hj. cbn [get_some mbind res_bind].
  destruct (negb (prev =? 0) && _); [by eauto|].
  unfold assign, deref. rewrite Hj. cbn [get_some mbind res_bind mret res_ret].
  set (b := Z.lor (bit_vector nj) prev).
  set (h1 := <[j := set_bit_vector b nj]> h).
  set (lca1 := if is_successful cls b then {[j]} ∪ lca else lca).
  assert (∀ x, x ∈ lca1 → x ∈ lca ∨ (x < length h)%nat) as Hlca1.
  { intros x. unfold lca1. destruct (is_successful cls b); [|by left].
    intros [->%elem_of_singleton|?]%elem_of_union; [right|by left].
    eauto using lookup_lt_Some. }
  destruct Hpar as [Hnone|(p & d' & Hp & Hreach' & ->)].
  - rewrite Hnone. destruct fuel; simpl; eauto.
  - rewrite Hp.
    pose proof (bv_only_upd h j nj b Hj) as Hbv. fold h1 in Hbv.
    destruct (IH h1 lca1 p d' b) as (h' & lca' & Hw & Hl).
    + destruct Hroot as (nr & Hr & Hpr). destruct Hbv as [_ Hbv].
      destruct (Hbv _ _ Hr) as (nr' & Hr' & E). exists nr'. split; [done|].
      rewrite E. done.
    + eapply reach_mono; [|done]. intros i n Hi. destruct Hbv as [_ Hbv].
      destruct (Hbv _ _ Hi) as (n' & Hi' & E). exists n'. split; [done|]. by rewrite E.
    + lia.
    + exists h', lca'. split; [done|]. intros x Hx.
      destruct (Hl x Hx) as [Hx1|Hx1]; [by apply Hlca1|].
      right. unfold h1 in Hx1. by rewrite length_insert in Hx1.
Qed.

Lemma propagate_returns cls h r lca ls :
  wf_shape h r → (∀ l, l ∈ ls → (l < length h)%nat) →
  ∃ h' lca', propagate cls h lca ls = Ok (h', lca') ∧
    ∀ x, x ∈ lca' → x ∈ lca ∨ (x < length h)%nat.
Proof.
  revert h lca. induction ls as [|l ls IH]; intros h lca Hwf Hls; simpl; [by eauto|].
  destruct (wf_reach _ _ Hwf l) as (d & Hd & Hlt); [apply Hls; left|].
  destruct (walk_up_returns (length h) cls h r lca l d 0 (wf_root _ _ Hwf) Hd Hlt)
    as (h1 & lca1 & Hw & Hl1).
  rewrite Hw. simpl.
  pose proof (walk_up_frame _ _ _ _ _ _ _ _ Hw) as Hbv.
  pose proof (bv_only_same_shape _ _ Hbv) as Hsame.
  destruct (IH h1 lca1) as (h' & lca' & Hp & Hl').
  - by eapply same_shape_wf.
  - intros x Hx. destruct Hsame as [-> _]. apply Hls. by right.
  - exists h', lca'. split; [done|]. intros x Hx.
    destruct (Hl' x Hx) as [?|Hx1]; [by apply Hl1|].
    right. destruct Hsame as [<- _]. done.
Qed.

Lemma path_label_returns fuel t r j d acc :
  (∃ nr, nodes t !! r = Some nr ∧ parent nr = None) →
  reach (nodes t) r j d → (d < fuel)%nat →
  ∃ s, path_label fuel t j acc = Ok s.
Proof.
  intros Hroot. revert j d acc.
  induction fuel as [|fuel IH]; intros j d acc Hreach Hd; [lia|].
  cbn [path_label]. unfold deref.
  inversion Hreach as [|? nj p d' Hj Hp Hreach']; subst.
  - destruct Hroot as (nr & -> & Hp). simpl. rewrite Hp. eauto.
  - rewrite Hj. simpl. rewrite Hp. eapply IH; [done|lia].
Qed.

Lemma extract_bits_spec p i0 i :
  i ∈ extract_bits p i0 →
  ∃ j, i = (i0 + j)%nat ∧ Z.testbit (Zpos p) (Z.of_nat j) = true.
Proof.
  revert i0. induction p as [p IH|p IH|]; intros i0; simpl.
  - intros [->|Hin]%elem_of_cons.
    + exists 0%nat. split; [lia|done].
    + destruct (IH _ Hin) as (j & -> & Hj). exists (S j). split; [lia|].
      rewrite Nat2Z.inj_succ. rewrite <-Hj.
      change (Zpos p~1) with (2 * Zpos p + 1). apply Z.testbit_odd_succ. lia.
  - intros Hin. destruct (IH _ Hin) as (j & -> & Hj). exists (S j). split; [lia|].
    rewrite Nat2Z.inj_succ. rewrite <-Hj.
    change (Zpos p~0) with (2 * Zpos p). apply Z.testbit_even_succ. lia.
  - intros ->%list_elem_of_singleton. exists 0%nat. split; [lia|done].
Qed.

Lemma _extract_identifiers_spec z i :
  i ∈ _extract_identifiers z → Z.testbit z (Z.of_nat i) = true.
Proof.
  destruct z as [|p|p]; simpl; try by intros ?%elem_of_nil.
  intros (j & -> & Hj)%extract_bits_spec. done.
Qed.

Lemma find_leaves_in_subtree_returns fuel t r j d :
  wf_shape (nodes t) r → reach (nodes t) r j d →
  (length (nodes t) - d ≤ fuel)%nat →
  ∃ vals, find_leaves_in_subtree fuel t j = Ok vals ∧
    ∀ p, p ∈ vals → known_bit t p.1.
Proof.
  intros Hwf. revert j d.
  induction fuel as [|fuel IH]; intros j d Hreach Hfuel.
  { destruct (wf_reach _ _ Hwf j) as (d' & Hd' & Hlt).
    - inversion Hreach; subst; [|by eauto using lookup_lt_Some].
      destruct (wf_root _ _ Hwf) as (? & ? & _). eauto using lookup_lt_Some.
    - rewrite (reach_det _ _ _ _ _ (wf_root _ _ Hwf) Hreach Hd') in Hfuel. lia. }
  assert (∃ nj, nodes t !! j = Some nj) as [nj Hj].
  { inversion Hreach; subst; [|by eauto].
    destruct (wf_root _ _ Hwf) as (? & ? & _). eauto. }
  cbn [find_leaves_in_subtree]. unfold deref. rewrite Hj.
  cbn [get_some mbind res_bind].
  destruct (0 <=? str_find dollar _).
  - eexists. split; [done|]. intros [i x] (i' & Heq & Hi)%list_elem_of_fmap.
    injection Heq as -> _. exists j, nj. split; [done|].
    by apply _extract_identifiers_spec.
  - assert (Hch : ∀ key c, (key, c) ∈ edges nj →
              ∃ vals, find_leaves_in_subtree fuel t c = Ok vals ∧
                ∀ p, p ∈ vals → known_bit t p.1).
    { intros key c Hin.
      destruct (wf_edge_parent _ _ Hwf _ _ _ _ Hj Hin) as (nc & Hc & Hpc).
      apply (IH c (S d)); [by eapply reach_step|lia]. }
    clear Hj. revert Hch. generalize (edges nj) as es.
    assert (∀ (es : dict) (acc : list (nat * Z)),
        (∀ p, p ∈ acc → known_bit t p.1) →
        (∀ key c, (key, c) ∈ es →
           ∃ vals, find_leaves_in_subtree fuel t c = Ok vals ∧
             ∀ p, p ∈ vals → known_bit t p.1) →
        ∃ vals,
          (fix children (es : dict) (vals : list (nat * Z)) {struct es} :=
             match es with
             | [] => Ok vals
             | (_, child) :: es =>
                 new_vals ← find_leaves_in_subtree fuel t child;
                 children es
                   (vals ++ ((λ tple : nat * Z,
                                (tple.1, tple.2 + end_ nj - start nj)) <$> new_vals))
             end) es acc = Ok vals ∧ ∀ p, p ∈ vals → known_bit t p.1) as Hloop.
    { induction es as [|[key c] es IHes]; intros acc Hacc Hes; [by eauto|].
      destruct (Hes key c) as (vals & Hv & Hk); [left|]. rewrite Hv. simpl.
      apply IHes.
      - intros p [Hp|Hp]%elem_of_app; [by apply Hacc|].
        apply list_elem_of_fmap in Hp as (q & -> & Hq). simpl. by apply Hk.
      - intros key' c' Hin. apply (Hes key' c'). by right. }
    intros es Hes. apply Hloop; [|done]. by intros p ?%elem_of_nil.
Qed.

Lemma format_loop_returns positions nsl ml sizes rv :
  (∀ p, p ∈ positions → (p.1 < length sizes)%nat ∧ (p.1 < length rv)%nat) →
  ∃ r, format_loop positions nsl ml sizes rv = Ok r.
Proof.
  revert rv. induction positions as [|[i x] ps IH]; intros rv Hps; simpl; [by eauto|].
  destruct (Hps (i, x)) as [Hs Hr]; [left|]. simpl in *.
  destruct (lookup_lt_is_Some_2 _ _ Hs) as [size ->].
  destruct (lookup_lt_is_Some_2 _ _ Hr) as [l ->]. simpl.
  apply IH. intros p Hp. rewrite length_insert. apply Hps. by right.
Qed.

Lemma str_split_length c s :
  length (str_split c s) = S (length (filter (λ x, x = c) s)).
Proof.
  induction s as [|x s IH]; [done|]. cbn [str_split].
  rewrite filter_cons. destruct (decide (x = c)) as [->|Hne].
  - simpl. by rewrite IH.
  - destruct (str_split c s) as [|p ps]; simpl in *; [done|]. by rewrite <-IH.
Qed.

Lemma buffer_of_dollars strs :
  (length strs ≤ length (filter (λ x, x = dollar) (buffer_of strs)))%nat.
Proof.
  induction strs as [|s strs IH] using rev_ind; [simpl; lia|].
  rewrite buffer_of_snoc, filter_app, !length_app. unfold terminated.
  rewrite filter_app, filter_cons, decide_True by done.
  rewrite length_app. simpl. lia.
Qed.

Lemma format_loop_length positions nsl ml sizes rv r :
  format_loop positions nsl ml sizes rv = Ok r → length r = length rv.
Proof.
  revert rv. induction positions as [|[i x] ps IH]; intros rv; simpl.
  - by intros [= <-].
  - intros H. apply bind_Ok in H as (size & _ & H).
    apply bind_Ok in H as (l & _ & H). apply IH in H. by rewrite length_insert in H.
Qed.

(** C9: on a tree built by appends alone the loop of lines 227-241 returns;
    every call of [find_common_substrings] that returns leaves the tree as
    this loop leaves it; and then bit [k] of a node's vector is set exactly
    when a leaf of string [k] lies in the subtree of the node, so that the
    vector is the bitwise OR of [1 << k] over any enumeration of the leaves
    of the subtree with their string indices.  A leaf is here a member of
    the list [self.leaves], the nodes that [append_string] has put there,
    whether or not a later call has given it children. *)
Theorem propagation_reaches_fixpoint ops t :
  built ops t →
  ∃ t1 lca, propagation t = Ok (t1, lca) ∧
    (∀ set_order m r t',
       find_common_substrings set_order t m = Ok (r, t') → t' = t1) ∧
    ∀ i n', nodes t1 !! i = Some n' →
      (∀ b, Z.testbit (bit_vector n') b = true ↔
            ∃ l k, b = Z.of_nat k ∧ leaf_of ops.*1 t l k ∧
                   in_subtree (nodes t) i l) ∧
      (∀ L : list (nat * nat),
         (∀ l k, (l, k) ∈ L ↔ leaf_of ops.*1 t l k ∧ in_subtree (nodes t) i l) →
         bit_vector n' =
           foldr (λ lk acc, Z.lor (Z.shiftl 1 (Z.of_nat lk.2)) acc) 0 L).
Proof.
  intros Hbuilt.
  pose proof (built_inv _ _ Hbuilt) as [Hsh Hin Hcnt Hlv Hinner Hbound].
  destruct (propagate_returns (classes t) (nodes t) (root t) ∅ (leaves t) Hsh)
    as (h' & lca & Hpp & _).
  { intros l Hl. destruct (Hlv l Hl) as (k & _ & _ & n & Hn & _).
    eauto using lookup_lt_Some. }
  set (t1 := mkTree (root t) h' (input_string t) (strings_count t) (leaves t)
               (classes t)).
  assert (propagation t = Ok (t1, lca)) as Hp.
  { unfold propagation. by rewrite Hpp. }
  exists t1, lca. split; [done|]. split.
  { intros set_order m r t' (lca' & Hp' & _)%find_common_substrings_Ok. congruence. }
  intros i n' Hn'.
  pose proof (λ b, propagation_bits _ _ _ _ _ _ b Hbuilt Hp Hn') as Hbits.
  split; [done|]. intros L HL. apply Z.bits_inj'. intros b _.
  apply eq_true_iff_eq. rewrite Hbits, testbit_foldr_lor. split.
  - intros (l & k & -> & H). exists l, k. split; [by apply HL|done].
  - intros (l & k & H & ->). exists l, k. split; [done|by apply HL].
Qed.

Lemma materialize_min_length t m ord S R r :
  (∀ key, is_Some (R !! key) → m ≤ len key) →
  materialize t m ord S R = Ok r →
  ∀ key, is_Some (r !! key) → m ≤ len key.
Proof.
  revert S R. induction ord as [|ca ord IH]; intros S R HR; simpl.
  - by intros [= <-].
  - intros H. apply bind_Ok in H as (cs & Hcs & H).
    destruct (_ && _) eqn:Hc.
    + apply bind_Ok in H as (pos & _ & H). apply bind_Ok in H as (n & _ & H).
      apply bind_Ok in H as (pos' & _ & H). eapply IH; [|exact H].
      intros key. rewrite lookup_insert_is_Some. intros [<-|[_ Hk]]; [|by apply HR].
      apply andb_true_iff in Hc as [Hc _]. lia.
    + by eapply IH.
Qed.

(** The part of C5 that holds: no key of the result is shorter than
    [min_substr_len]. *)
Lemma keys_have_min_length set_order t m r t' :
  find_common_substrings set_order t m = Ok (r, t') →
  ∀ key, is_Some (r !! key) → m ≤ len key.
Proof.
  intros (lca & _ & Hm)%find_common_substrings_Ok.
  eapply materialize_min_length; [|exact Hm].
  intros key. rewrite lookup_empty. by intros [? ?].
Qed.

(** ** Scenarios *)

Lemma run_built fuel ops t : run fuel ops = Ok t → built ops t.
Proof.
  unfold run. revert t. induction ops as [|[s c] ops IH] using rev_ind; intros t.
  - simpl. intros [= <-]. constructor.
  - rewrite foldl_app. simpl. intros H. apply bind_Ok in H as (t0 & H0 & H).
    econstructor; [by apply IH|done].
Qed.

Lemma is_prefix_spec a b : is_prefix a b = true ↔ ∃ post, b = a ++ post.
Proof.
  revert b. induction a as [|x a IH]; intros b; simpl.
  - split; [by exists b|done].
  - destruct b as [|y b]; [split; [done|by intros (? & ?)]|].
    rewrite andb_true_iff, bool_decide_eq_true, IH. split.
    + intros (-> & post & ->). by exists post.
    + intros (post & [= -> ->]). eauto.
Qed.

Lemma occurs_spec a b : occurs a b = true ↔ ∃ pre post, b = pre ++ a ++ post.
Proof.
  induction b as [|y b IH]; simpl.
  - rewrite orb_false_r, is_prefix_spec. split.
    + intros (post & ->). by exists [], post.
    + intros (pre & post & H). symmetry in H.
      apply app_eq_nil in H as [-> H]. eauto.
  - rewrite orb_true_iff, is_prefix_spec, IH. split.
    + intros [(post & ->)|(pre & post & ->)]; [by exists [], post|by exists (y :: pre), post].
    + intros ([|z pre] & post & H); [left; by exists post|].
      injection H as -> ->. right. eauto.
Qed.

Lemma built_A : built scenario_A tree_A.
Proof. apply (run_built 100). vm_compute. reflexivity. Qed.

Lemma built_B : built scenario_B tree_B.
Proof. apply (run_built 100). vm_compute. reflexivity. Qed.

(** A way to settle a call on a given tree: the vectors are propagated by
    computation, and the candidates, which give distinct substrings, in any
    order. *)
Lemma find_common_substrings_any_order set_order t m t' lca es r :
  (∀ X, set_order X ≡ₚ elements X) →
  propagation t = Ok (t', lca) →
  candidates t' m (elements lca) = Ok es → NoDup es.*1 →
  list_to_map es = r →
  find_common_substrings set_order t m = Ok (r, t').
Proof.
  intros Hperm Hp Hes Hnd <-. unfold find_common_substrings. rewrite Hp. simpl.
  by rewrite (materialize_any_order _ _ _ _ _ (Hperm lca) Hes Hnd).
Qed.

Lemma scenario_B_any t set_order :
  built scenario_B t → (∀ X, set_order X ≡ₚ elements X) →
  ∃ t', find_common_substrings set_order t 2
        = Ok (list_to_map [("abc" : pystr, [[0]; [3]]); ("bc" : pystr, [[1]; [4]])], t').
Proof.
  intros Hb Hperm. rewrite (built_det _ _ _ Hb built_B).
  eexists. eapply find_common_substrings_any_order; [done| | | |].
  - vm_compute. reflexivity.
  - vm_compute. reflexivity.
  - apply (bool_decide_unpack _). vm_compute. reflexivity.
  - vm_compute. reflexivity.
Qed.

Lemma scenario_A_any t set_order :
  built scenario_A t → (∀ X, set_order X ≡ₚ elements X) →
  ∃ r t', find_common_substrings set_order t 1 = Ok (r, t') ∧
    r !! ("a" : pystr) = Some [[1; 4]] ∧
    r !! ("xa" : pystr) = Some [[0; 3]] ∧
    r !! ("x" : pystr) = None.
Proof.
  intros Hb Hperm. rewrite (built_det _ _ _ Hb built_A).
  eexists _, _. split.
  - eapply find_common_substrings_any_order; [done| | | |reflexivity].
    + vm_compute. reflexivity.
    + vm_compute. reflexivity.
    + apply (bool_decide_unpack _). vm_compute. reflexivity.
  - split_and!; vm_compute; reflexivity.
Qed.

Lemma scenario_A_counterexample :
  ¬ (∀ t r t', built scenario_A t →
       find_common_substrings elements t 1 = Ok (r, t') →
       (∃ p, r !! ("a" : pystr) = Some [[p]]) ∧
       (∃ p q, r !! ("x" : pystr) = Some [[p; q]])).
Proof.
  intros H.
  destruct (scenario_A_any tree_A elements built_A (λ _, reflexivity _))
    as (r & t' & Hf & _ & _ & Hx).
  destruct (H _ _ _ built_A Hf) as (_ & p & q & Hpq). congruence.
Qed.

(** C7, amended: on the tree of [append_string("xabxac")] a call with
    [min_substr_len = 1] returns "a" with its two occurrences [[1, 4]] in the
    one listing; "x" is no key of the result, its two occurrences are
    reported under "xa", at [[0, 3]]. *)
Theorem scenario_A_result t set_order :
  built scenario_A t → (∀ X, set_order X ≡ₚ elements X) →
  ∃ r t', find_common_substrings set_order t 1 = Ok (r, t') ∧
    r !! ("a" : pystr) = Some [[1; 4]] ∧
    r !! ("xa" : pystr) = Some [[0; 3]] ∧
    r !! ("x" : pystr) = None.
Proof.
  intros Hb Hperm. rewrite (built_det _ _ _ Hb built_A).
  eexists _, _. split.
  - eapply find_common_substrings_any_order; [done| | | |reflexivity].
    + vm_compute. reflexivity.
    + vm_compute. reflexivity.
    + apply (bool_decide_unpack _). vm_compute. reflexivity.
  - split_and!; vm_compute; reflexivity.
Qed.

Lemma scenario_A_result_witness :
  built scenario_A tree_A ∧ (∀ X : gset nat, elements X ≡ₚ elements X) ∧
  ∃ r t', find_common_substrings elements tree_A 1 = Ok (r, t') ∧
    r !! ("a" : pystr) = Some [[1; 4]] ∧
    r !! ("xa" : pystr) = Some [[0; 3]] ∧
    r !! ("x" : pystr) = None.
Proof.
  assert (built scenario_A tree_A) as Hb.
  { apply (run_built 100). vm_compute. reflexivity. }
  split; [exact Hb|]. split; [reflexivity|].
  apply (scenario_A_result tree_A elements Hb). reflexivity.
Defined.

Lemma scenario_B_counterexample :
  ¬ (∀ t r t', built scenario_B t →
       find_common_substrings elements t 2 = Ok (r, t') →
       r !! ("abc" : pystr) = Some [[0]; [3]] ∧
       ∀ key : pystr, 2 ≤ len key → key ≠ ("abc" : pystr) → r !! key = None).
Proof.
  intros H.
  destruct (scenario_B_any tree_B elements built_B (λ _, reflexivity _)) as (t' & Hf).
  destruct (H _ _ _ built_B Hf) as [_ Hno].
  specialize (Hno ("bc" : pystr)). vm_compute in Hno.
  by discriminate Hno.
Qed.

(** C6, amended: on the tree of [append_string("abcdef", "A")] and
    [append_string("xyzabc", "B")] a call with [min_substr_len = 2] returns
    "abc" at [[0], [3]] and, the one other key, "bc" at [[1], [4]]. *)
Theorem scenario_B_result t set_order :
  built scenario_B t → (∀ X, set_order X ≡ₚ elements X) →
  ∃ t', find_common_substrings set_order t 2
        = Ok (list_to_map [("abc" : pystr, [[0]; [3]]); ("bc" : pystr, [[1]; [4]])], t').
Proof.
  intros Hb Hperm. rewrite (built_det _ _ _ Hb built_B).
  eexists. eapply find_common_substrings_any_order; [done| | | |].
  - vm_compute. reflexivity.
  - vm_compute. reflexivity.
  - apply (bool_decide_unpack _). vm_compute. reflexivity.
  - vm_compute. reflexivity.
Qed.

Lemma scenario_B_result_witness :
  built scenario_B tree_B ∧ (∀ X : gset nat, elements X ≡ₚ elements X) ∧
  ∃ t', find_common_substrings elements tree_B 2
        = Ok (list_to_map [("abc" : pystr, [[0]; [3]]); ("bc" : pystr, [[1]; [4]])], t').
Proof.
  assert (built scenario_B tree_B) as Hb.
  { apply (run_built 100). vm_compute. reflexivity. }
  split; [exact Hb|]. split; [reflexivity|].
  apply (scenario_B_result tree_B elements Hb). reflexivity.
Defined.

(** C4 fails on the code: on the tree of scenario B the first call returns
    "abc" and "bc", and the second call, on the tree as the first one left
    it, returns the empty mapping. *)
Theorem second_call_differs t set_order :
  built scenario_B t → (∀ X, set_order X ≡ₚ elements X) →
  ∃ r1 t1 r2 t2,
    find_common_substrings set_order t 2 = Ok (r1, t1) ∧
    find_common_substrings set_order t1 2 = Ok (r2, t2) ∧
    r1 !! ("abc" : pystr) = Some [[0]; [3]] ∧ r2 = ∅ ∧ r1 ≠ r2.
Proof.
  intros Hb Hperm. rewrite (built_det _ _ _ Hb built_B).
  exists (list_to_map [("abc" : pystr, [[0]; [3]]); ("bc" : pystr, [[1]; [4]])]),
    tree_B1, ∅, tree_B1.
  split_and!.
  - eapply find_common_substrings_any_order; [done| | | |].
    + vm_compute. reflexivity.
    + vm_compute. reflexivity.
    + apply (bool_decide_unpack _). vm_compute. reflexivity.
    + vm_compute. reflexivity.
  - eapply find_common_substrings_any_order; [done| | | |].
    + vm_compute. reflexivity.
    + vm_compute. reflexivity.
    + apply (bool_decide_unpack _). vm_compute. reflexivity.
    + vm_compute. reflexivity.
  - vm_compute. reflexivity.
  - reflexivity.
  - intros Heq. apply (f_equal (λ r : gmap pystr (list (list Z)), r !! ("abc" : pystr))) in Heq.
    vm_compute in Heq. discriminate Heq.
Qed.

Lemma second_call_differs_witness :
  built scenario_B tree_B ∧ (∀ X : gset nat, elements X ≡ₚ elements X) ∧
  ∃ r1 t1 r2 t2,
    find_common_substrings elements tree_B 2 = Ok (r1, t1) ∧
    find_common_substrings elements t1 2 = Ok (r2, t2) ∧
    r1 !! ("abc" : pystr) = Some [[0]; [3]] ∧ r2 = ∅ ∧ r1 ≠ r2.
Proof.
  assert (built scenario_B tree_B) as Hb.
  { apply (run_built 100). vm_compute. reflexivity. }
  split; [exact Hb|]. split; [reflexivity|].
  apply (second_call_differs tree_B elements Hb). reflexivity.
Defined.

(** C1 fails on the code: on the tree of [append_string("ab")] a call with
    [min_substr_len = 2] returns "ab" with the offset 2 in string 0, and the
    slice of "ab" at 2 is empty.  The candidate is a leaf, and for a leaf
    [find_leaves_in_subtree] gives the depth without the length of the leaf's
    own edge, which [_format_positions] then subtracts. *)
Theorem leaf_candidate_offset t set_order :
  built scenario_ab t → (∀ X, set_order X ≡ₚ elements X) →
  ∃ t', find_common_substrings set_order t 2
        = Ok ({[ ("ab" : pystr) := [[2]] ]}, t') ∧
    slice ("ab" : pystr) 2 (2 + len ("ab" : pystr)) ≠ ("ab" : pystr).
Proof.
  intros Hb Hperm.
  assert (built scenario_ab tree_ab) as Hb'.
  { apply (run_built 100). vm_compute. reflexivity. }
  rewrite (built_det _ _ _ Hb Hb'). eexists. split; [|by vm_compute].
  eapply find_common_substrings_any_order; [done| | | |].
  - vm_compute. reflexivity.
  - vm_compute. reflexivity.
  - apply (bool_decide_unpack _). vm_compute. reflexivity.
  - vm_compute. reflexivity.
Qed.

Lemma leaf_candidate_offset_witness :
  built scenario_ab tree_ab ∧ (∀ X : gset nat, elements X ≡ₚ elements X) ∧
  ∃ t', find_common_substrings elements tree_ab 2
        = Ok ({[ ("ab" : pystr) := [[2]] ]}, t') ∧
    slice ("ab" : pystr) 2 (2 + len ("ab" : pystr)) ≠ ("ab" : pystr).
Proof.
  assert (built scenario_ab tree_ab) as Hb.
  { apply (run_built 100). vm_compute. reflexivity. }
  split; [exact Hb|]. split; [reflexivity|].
  apply (leaf_candidate_offset tree_ab elements Hb). reflexivity.
Defined.

(** C5 fails on the code: with the strings "ab1\nc" in class "A" and "ab1\nd"
    in class "B", a call with [min_substr_len = 3] returns the one key
    "ab\n", which occurs in neither string: the pattern takes the digit away
    from before the newline that ends the label "ab1\n". *)
Theorem stripped_key_is_no_substring t set_order :
  built scenario_newline t → (∀ X, set_order X ≡ₚ elements X) →
  ∃ r t', find_common_substrings set_order t 3 = Ok (r, t') ∧
    dom r = {[ ("ab" : pystr) ++ [newline] ]} ∧
    occurs (("ab" : pystr) ++ [newline]) line_c = false ∧
    occurs (("ab" : pystr) ++ [newline]) line_d = false.
Proof.
  intros Hb Hperm.
  assert (built scenario_newline tree_newline) as Hb'.
  { apply (run_built 100). vm_compute. reflexivity. }
  rewrite (built_det _ _ _ Hb Hb'). eexists _, _. split_and!.
  - eapply find_common_substrings_any_order; [done| | | |reflexivity].
    + vm_compute. reflexivity.
    + vm_compute. reflexivity.
    + apply (bool_decide_unpack _). vm_compute. reflexivity.
  - vm_compute. reflexivity.
  - vm_compute. reflexivity.
  - vm_compute. reflexivity.
Qed.

Lemma stripped_key_is_no_substring_witness :
  built scenario_newline tree_newline ∧
  (∀ X : gset nat, elements X ≡ₚ elements X) ∧
  ∃ r t', find_common_substrings elements tree_newline 3 = Ok (r, t') ∧
    dom r = {[ ("ab" : pystr) ++ [newline] ]} ∧
    occurs (("ab" : pystr) ++ [newline]) line_c = false ∧
    occurs (("ab" : pystr) ++ [newline]) line_d = false.
Proof.
  assert (built scenario_newline tree_newline) as Hb.
  { apply (run_built 100). vm_compute. reflexivity. }
  split; [exact Hb|]. split; [reflexivity|].
  apply (stripped_key_is_no_substring tree_newline elements Hb). reflexivity.
Defined.

(** C8 fails on the code: after [append_string("a", "$1")] and
    [append_string("b")] the second string, which has no class of its own,
    sits in the class "$1" together with the first. *)
Theorem synthetic_class_collides t :
  built scenario_collision t →
  classes t = {[ ("$1" : pystr) := [0; 1]%nat ]}.
Proof.
  intros Hb.
  assert (built scenario_collision tree_collision) as Hb'.
  { apply (run_built 100). vm_compute. reflexivity. }
  rewrite (built_det _ _ _ Hb Hb'). vm_compute. reflexivity.
Qed.

Lemma synthetic_class_collides_witness :
  built scenario_collision tree_collision ∧
  classes tree_collision = {[ ("$1" : pystr) := [0; 1]%nat ]}.
Proof.
  assert (built scenario_collision tree_collision) as Hb.
  { apply (run_built 100). vm_compute. reflexivity. }
  split; [exact Hb|]. apply (synthetic_class_collides tree_collision Hb).
Defined.

(** ** What [append_string] leaves behind *)

Lemma append_string_Ok fuel t s c t' :
  append_string fuel t s c = Ok t' →
  root t' = root t ∧
  strings_count t' = S (strings_count t) ∧
  input_string t' = input_string t ++ s ++ dollar :: str (strings_count t) ∧
  classes t' = classes (register t s c) ∧
  ∃ new_leaves, leaves t' = leaves t ++ new_leaves.
Proof.
  unfold append_string, build. intros H.
  apply bind_Ok in H as (sf & Hmain & H).
  apply bind_Ok in H as (h' & Hends & H). injection H as <-. simpl.
  split_and!; [done | lia | done | done | eauto].
Qed.

Lemma append_string_accepts_dollar :
  ∃ t', append_string 100 new_tree [dollar] None = Ok t' ∧
    strings_count t' = 1%nat ∧ length (leaves t') = 3%nat ∧
    input_string t' = ("$$0" : pystr).
Proof. eexists. split; [vm_compute; reflexivity|]. by vm_compute. Qed.

(** C2, amended: [append_string] does not look for the delimiter.  When a
    call with an input that contains it returns, the string has been taken
    like any other: [strings_count] is one more, the buffer has grown by the
    input and its ending, and the leaves of the call, if any, follow the old
    ones. *)
Theorem append_string_takes_dollar fuel t s c t' :
  dollar ∈ s → append_string fuel t s c = Ok t' →
  strings_count t' = S (strings_count t) ∧
  input_string t' = input_string t ++ s ++ dollar :: str (strings_count t) ∧
  (∃ new_leaves, leaves t' = leaves t ++ new_leaves) ∧
  t' ≠ t.
Proof.
  intros _ H. destruct (append_string_Ok _ _ _ _ _ H) as (_ & Hc & Hi & _ & Hl).
  split_and!; try done. intros ->. lia.
Qed.

Lemma append_string_takes_dollar_witness :
  dollar ∈ [dollar] ∧ append_string 100 new_tree [dollar] None = Ok tree_dollar ∧
  strings_count tree_dollar = S (strings_count new_tree) ∧
  input_string tree_dollar
    = input_string new_tree ++ [dollar] ++ dollar :: str (strings_count new_tree) ∧
  (∃ new_leaves, leaves tree_dollar = leaves new_tree ++ new_leaves) ∧
  tree_dollar ≠ new_tree.
Proof.
  assert (dollar ∈ [dollar]) as Hin by (apply list_elem_of_here).
  assert (append_string 100 new_tree [dollar] None = Ok tree_dollar) as Happ
    by (vm_compute; reflexivity).
  split; [exact Hin|]. split; [exact Happ|].
  apply (append_string_takes_dollar 100 new_tree [dollar] None tree_dollar Hin Happ).
Defined.



(** The count of the original claim is no lower bound either: the eleven
    strings of [scenario_short], none empty and none with the delimiter,
    leave 23 leaves, one less than the sum of (length + 1). *)
Lemma leaf_count_below :
  built scenario_short tree_short ∧
  Forall (λ s, s ≠ [] ∧ dollar ∉ s) scenario_short.*1 ∧
  (length (leaves tree_short)
   < sum_list ((λ s, length s + 1)%nat <$> scenario_short.*1))%nat.
Proof.
  split; [apply (run_built 100); vm_compute; reflexivity|]. split.
  - repeat constructor; try discriminate;
      intros H; repeat (apply elem_of_cons in H as [H|H]; [discriminate H|]);
      by apply elem_of_nil in H.
  - vm_compute. lia.
Qed.



Lemma find_common_substrings_frame_witness :
  find_common_substrings elements tree_B 2 = Ok (result_B, tree_B1) ∧
  root tree_B1 = root tree_B ∧ input_string tree_B1 = input_string tree_B ∧
  strings_count tree_B1 = strings_count tree_B ∧ leaves tree_B1 = leaves tree_B ∧
  classes tree_B1 = classes tree_B ∧ length (nodes tree_B1) = length (nodes tree_B) ∧
  ∀ i n, nodes tree_B !! i = Some n →
    ∃ n', nodes tree_B1 !! i = Some n' ∧ start n' = start n ∧ end_ n' = end_ n ∧
      edges n' = edges n ∧ parent n' = parent n ∧
      suffix_link n' = suffix_link n.
Proof.
  assert (find_common_substrings elements tree_B 2 = Ok (result_B, tree_B1)) as Hf
    by (vm_compute; reflexivity).
  split; [exact Hf|].
  apply (find_common_substrings_frame elements tree_B 2 result_B tree_B1 Hf).
Defined.

(** A node of the list of leaves can have children: the main loop of a
    later call can walk down the closed edge of such a node and add a child
    below it. *)
Lemma listed_leaf_with_child :
  built scenario_ab0 tree_ab0 ∧
  ∃ l n, l ∈ leaves tree_ab0 ∧ nodes tree_ab0 !! l = Some n ∧ edges n ≠ [].
Proof.
  split; [apply (run_built 100); vm_compute; reflexivity|].
  exists 3%nat. eexists. split; [|split; [vm_compute; reflexivity|done]].
  vm_compute. do 2 right. left.
Qed.

Lemma propagation_reaches_fixpoint_witness :
  built scenario_B tree_B ∧
  ∃ t1 lca, propagation tree_B = Ok (t1, lca) ∧
    (∀ set_order m r t',
       find_common_substrings set_order tree_B m = Ok (r, t') → t' = t1) ∧
    ∀ i n', nodes t1 !! i = Some n' →
      (∀ b, Z.testbit (bit_vector n') b = true ↔
            ∃ l k, b = Z.of_nat k ∧ leaf_of scenario_B.*1 tree_B l k ∧
                   in_subtree (nodes tree_B) i l) ∧
      (∀ L : list (nat * nat),
         (∀ l k, (l, k) ∈ L ↔ leaf_of scenario_B.*1 tree_B l k ∧
                              in_subtree (nodes tree_B) i l) →
         bit_vector n' =
           foldr (λ lk acc, Z.lor (Z.shiftl 1 (Z.of_nat lk.2)) acc) 0 L).
Proof.
  assert (built scenario_B tree_B) as Hb.
  { apply (run_built 100). vm_compute. reflexivity. }
  split; [exact Hb|].
  apply (propagation_reaches_fixpoint scenario_B tree_B Hb).
Defined.

(** * Further properties of the code *)

(** ** [_extract_identifiers] and [is_successful] *)

Lemma extract_bits_elem p i0 i :
  i ∈ extract_bits p i0 ↔
  ∃ j, i = (i0 + j)%nat ∧ Z.testbit (Zpos p) (Z.of_nat j) = true.
Proof.
  split; [apply extract_bits_spec|]. intros (j & -> & Hj).
  revert i0 j Hj. induction p as [p IH|p IH|]; intros i0 j Hj; simpl.
  - destruct j as [|j].
    + rewrite Nat.add_0_r. left.
    + right. replace (i0 + S j)%nat with (S i0 + j)%nat by lia. apply IH.
      rewrite Nat2Z.inj_succ in Hj. rewrite <-Hj.
      change (Zpos p~1) with (2 * Zpos p + 1). symmetry. apply Z.testbit_odd_succ. lia.
  - destruct j as [|j]; [done|].
    replace (i0 + S j)%nat with (S i0 + j)%nat by lia. apply IH.
    rewrite Nat2Z.inj_succ in Hj. rewrite <-Hj.
    change (Zpos p~0) with (2 * Zpos p). symmetry. apply Z.testbit_even_succ. lia.
  - destruct j as [|j]; [rewrite Nat.add_0_r; left|].
    rewrite Nat2Z.inj_succ in Hj.
    change 1 with (2 * 0 + 1) in Hj. rewrite Z.testbit_odd_succ in Hj by lia.
    by rewrite Z.bits_0 in Hj.
Qed.

Lemma extract_bits_sorted p i0 :
  StronglySorted lt (extract_bits p i0) ∧ Forall (le i0) (extract_bits p i0).
Proof.
  revert i0. induction p as [p IH|p IH|]; intros i0; simpl.
  - destruct (IH (S i0)) as [Hs Hf]. split.
    + constructor; [done|]. eapply Forall_impl; [exact Hf|]. simpl. lia.
    + constructor; [lia|]. eapply Forall_impl; [exact Hf|]. simpl. lia.
  - destruct (IH (S i0)) as [Hs Hf]. split; [done|].
    eapply Forall_impl; [exact Hf|]. simpl. lia.
  - split; repeat constructor.
Qed.

Lemma extract_bits_lor p i0 :
  foldr (λ i acc, Z.lor (Z.shiftl 1 (Z.of_nat i)) acc) 0 (extract_bits p i0)
  = Z.shiftl (Zpos p) (Z.of_nat i0).
Proof.
  apply Z.bits_inj'. intros b Hb. apply eq_true_iff_eq.
  transitivity (∃ i, i ∈ extract_bits p i0 ∧ b = Z.of_nat i).
  - generalize (extract_bits p i0) as l. induction l as [|x l IH]; simpl.
    + rewrite Z.bits_0. split; [done|]. by intros (? & ?%elem_of_nil & _).
    + rewrite Z.lor_spec, orb_true_iff, testbit_shiftl_1, IH. split.
      * intros [->|(i & Hi & ->)]; [exists x; split; [left|done]|].
        exists i. split; [by right|done].
      * intros (i & [->|Hi]%elem_of_cons & ->); [by left|]. right. eauto.
  - rewrite Z.shiftl_spec by done. split.
    + intros (i & (j & -> & Hj)%extract_bits_elem & ->).
      rewrite <-Hj. f_equal. lia.
    + intros Hbit. assert (0 ≤ b - Z.of_nat i0) as Hge.
      { destruct (decide (0 ≤ b - Z.of_nat i0)); [done|].
        rewrite Z.testbit_neg_r in Hbit by lia. done. }
      exists (i0 + Z.to_nat (b - Z.of_nat i0))%nat. split; [|lia].
      apply extract_bits_elem. eexists. split; [done|].
      rewrite Z2Nat.id by done. done.
Qed.

(** The identifiers returned for a vector are the positions of its one bits,
    in increasing order, when the vector is positive; no identifier is
    returned for zero or a negative vector.  The bits [1 << i] of the
    identifiers give the vector back. *)
Theorem _extract_identifiers_exact bit_vector :
  (∀ i, i ∈ _extract_identifiers bit_vector ↔
        0 < bit_vector ∧ Z.testbit bit_vector (Z.of_nat i) = true) ∧
  StronglySorted lt (_extract_identifiers bit_vector) ∧
  foldr (λ i acc, Z.lor (Z.shiftl 1 (Z.of_nat i)) acc) 0
    (_extract_identifiers bit_vector) = Z.max 0 bit_vector.
Proof.
  destruct bit_vector as [|p|p]; simpl.
  - split_and!; [|constructor|done].
    intros i. split; [by intros ?%elem_of_nil|]. intros [? _]. lia.
  - split_and!.
    + intros i. rewrite extract_bits_elem. split.
      * intros (j & -> & Hj). split; [lia|done].
      * intros [_ Hi]. by exists i.
    + apply extract_bits_sorted.
    + rewrite extract_bits_lor. change (Z.of_nat 0) with 0.
      rewrite Z.shiftl_0_r. lia.
  - split_and!; [|constructor|done].
    intros i. split; [by intros ?%elem_of_nil|]. intros [? _]. lia.
Qed.

Lemma shiftr_mod_testbit (bit_vector : Z) (k : nat) :
  (Z.shiftr bit_vector (Z.of_nat k) mod 2 =? 1) = Z.testbit bit_vector (Z.of_nat k).
Proof.
  rewrite <-(Z.add_0_l (Z.of_nat k)) at 2.
  rewrite <-Z.shiftr_spec by lia. rewrite <-Z.bit0_mod.
  by destruct (Z.testbit _ 0).
Qed.

Lemma is_successful_iff (cls : gmap pystr (list nat)) bit_vector :
  is_successful cls bit_vector = true ↔
  ∀ c members, cls !! c = Some members →
    ∃ k, k ∈ members ∧ Z.testbit bit_vector (Z.of_nat k) = true.
Proof.
  unfold is_successful. rewrite forallb_forall. split.
  - intros H c members Hc.
    specialize (H members). rewrite existsb_exists in H.
    destruct H as (k & Hk & Hbit).
    + apply list_elem_of_In, list_elem_of_fmap. exists (c, members).
      split; [done|]. by apply elem_of_map_to_list.
    + exists k. split; [by apply list_elem_of_In|]. by rewrite <-shiftr_mod_testbit.
  - intros H members Hin.
    apply list_elem_of_In, list_elem_of_fmap in Hin as ([c ms] & -> & Hin).
    apply elem_of_map_to_list in Hin. destruct (H _ _ Hin) as (k & Hk & Hbit).
    apply existsb_exists. exists k. split; [by apply list_elem_of_In|].
    by rewrite shiftr_mod_testbit.
Qed.

Lemma is_successful_mono (cls : gmap pystr (list nat)) a b :
  bits_le a b → is_successful cls a = true → is_successful cls b = true.
Proof.
  intros Hle. rewrite !is_successful_iff. intros H c members Hc.
  destruct (H _ _ Hc) as (k & Hk & Hbit). exists k. split; [done|]. by apply Hle.
Qed.

(** A vector is successful exactly when every class has a member whose bit
    is set in it; with no class at all every vector is successful, and a
    vector that has all the bits of a successful one is successful. *)
Theorem is_successful_spec (cls : gmap pystr (list nat)) bit_vector :
  (is_successful cls bit_vector = true ↔
   ∀ c members, cls !! c = Some members →
     ∃ k, k ∈ members ∧ Z.testbit bit_vector (Z.of_nat k) = true) ∧
  is_successful ∅ bit_vector = true ∧
  ∀ bit_vector', bits_le bit_vector bit_vector' →
    is_successful cls bit_vector = true → is_successful cls bit_vector' = true.
Proof.
  split_and!.
  - apply is_successful_iff.
  - apply is_successful_iff. intros c members. by rewrite lookup_empty.
  - intros bv'. apply is_successful_mono.
Qed.

(** ** The classes *)

Lemma class_members_snoc ops op c :
  class_members (ops ++ [op]) c
  = class_members ops c
    ++ (if decide (class_of (length ops) op = c) then [length ops] else []).
Proof.
  unfold class_members. rewrite imap_app, filter_app, fmap_app. f_equal.
  simpl. rewrite Nat.add_0_r, filter_cons. simpl.
  destruct (decide (class_of (length ops) op = c)); done.
Qed.

(** After any sequence of calls the entry of a class lists the indices of
    the calls that named it, in increasing order of the calls, where a call
    without class identifier names ['$' + str(index)]; a class that no call
    named has no entry. *)
Theorem classes_of_built ops t :
  built ops t →
  ∀ c members, classes t !! c = Some members ↔
    members = class_members ops c ∧ members ≠ [].
Proof.
  induction 1 as [|ops t fuel s c0 t' Hb IH Happ]; intros c members.
  - simpl. rewrite lookup_empty. split; [done|]. by intros [-> ?].
  - pose proof (built_inv _ _ Hb) as Hinv. pose proof (ti_count _ _ Hinv) as Hcnt.
    rewrite length_fmap in Hcnt.
    destruct (append_string_Ok _ _ _ _ _ Happ) as (_ & _ & _ & -> & _).
    rewrite class_members_snoc. unfold register. simpl.
    unfold class_of at 1. simpl. rewrite <-Hcnt.
    set (cid := default (dollar :: str (strings_count t)) c0).
    pose proof (IH cid) as IHcid.
    destruct (decide (cid = c)) as [<-|Hne].
    + destruct (classes t !! cid) as [ms|] eqn:Hms; rewrite lookup_insert_eq.
      * destruct (proj1 (IHcid ms) eq_refl) as [<- _]. split.
        -- intros [= <-]. split; [done|]. by destruct ms.
        -- by intros [-> _].
      * assert (class_members ops cid = []) as ->.
        { destruct (class_members ops cid) as [|x l] eqn:E; [done|].
          assert (None = Some (x :: l)) as Habs; [|done].
          apply IHcid. done. }
        simpl. split; [by intros [= <-]|by intros [-> _]].
    + rewrite app_nil_r.
      destruct (classes t !! cid); rewrite lookup_insert_ne by done; apply IH.
Qed.

Lemma classes_of_built_witness :
  built scenario_collision tree_collision ∧
  ∀ c members, classes tree_collision !! c = Some members ↔
    members = class_members scenario_collision c ∧ members ≠ [].
Proof.
  assert (built scenario_collision tree_collision) as Hb.
  { apply (run_built 100). vm_compute. reflexivity. }
  split; [exact Hb|]. apply (classes_of_built scenario_collision tree_collision Hb).
Defined.

(** ** Endings and digits *)

Lemma string_of_uint_digits d :
  Forall (λ c, is_digit c = true) (list_ascii_of_string (NilZero.string_of_uint d)).
Proof.
  assert (∀ d, Forall (λ c, is_digit c = true)
                 (list_ascii_of_string (DecimalString.NilEmpty.string_of_uint d))) as H.
  { clear. induction d; simpl; constructor; done. }
  destruct d; try apply H. simpl. by constructor.
Qed.

Lemma str_digits k : Forall (λ c, is_digit c = true) (str k).
Proof. apply string_of_uint_digits. Qed.

Lemma digits_no_dollar d : Forall (λ c, is_digit c = true) d → dollar ∉ d.
Proof.
  intros Hd Hin. rewrite Forall_forall in Hd. specialize (Hd _ Hin). done.
Qed.

Lemma lstrip_digits_app d s :
  Forall (λ c, is_digit c = true) d → lstrip_digits (d ++ s) = lstrip_digits s.
Proof. induction 1 as [|c d Hc _ IH]; simpl; [done|]. by rewrite Hc. Qed.

Lemma strip_digits_app d s :
  Forall (λ c, is_digit c = true) d → strip_digits (d ++ s) = strip_digits s.
Proof. intros. unfold strip_digits. by rewrite lstrip_digits_app. Qed.

Lemma strip_digits_all d : Forall (λ c, is_digit c = true) d → strip_digits d = [].
Proof.
  intros Hd. rewrite <-(app_nil_r d), strip_digits_app by done. done.
Qed.

(** ** [get_string_lengths] *)

Lemma str_split_app c a b : c ∉ a → str_split c (a ++ c :: b) = a :: str_split c b.
Proof.
  induction a as [|x a IH]; intros Hc; simpl.
  - by rewrite decide_True.
  - apply not_elem_of_cons in Hc as [Hne Hc].
    rewrite decide_False by done. by rewrite IH.
Qed.

Lemma str_split_none c a : c ∉ a → str_split c a = [a].
Proof.
  induction a as [|x a IH]; intros Hc; simpl; [done|].
  apply not_elem_of_cons in Hc as [Hne Hc].
  rewrite decide_False by done. by rewrite IH.
Qed.

Lemma lengths_from (f : nat → nat) pre strs :
  Forall (λ c, is_digit c = true) pre → (∀ s, s ∈ strs → dollar ∉ s) →
  len <$> (strip_digits <$>
             str_split dollar (pre ++ concat (imap (λ j, terminated (f j)) strs)))
  = ((λ s, len (strip_digits s)) <$> strs) ++ [0].
Proof.
  revert f pre. induction strs as [|s strs IH]; intros f pre Hpre Hstrs.
  - simpl. rewrite app_nil_r, str_split_none by (by apply digits_no_dollar).
    simpl. by rewrite strip_digits_all.
  - rewrite imap_cons. cbn [concat]. unfold terminated at 1.
    rewrite <-!app_assoc, app_assoc. cbn [app].
    rewrite str_split_app.
    2:{ intros [?|?]%elem_of_app; [by eapply digits_no_dollar|].
        eapply Hstrs; [left|done]. }
    rewrite !fmap_cons, strip_digits_app by done. rewrite <-app_comm_cons. f_equal.
    apply (IH (f ∘ S)); [apply str_digits|]. intros s' Hs'. apply Hstrs. by right.
Qed.

(** When no appended string contains the delimiter, [get_string_lengths]
    returns one entry for each string and a last entry 0; the entry of a
    string is its length without the decimal digits at its two ends. *)
Theorem get_string_lengths_built ops t :
  built ops t → (∀ s, s ∈ ops.*1 → dollar ∉ s) →
  get_string_lengths t = ((λ s, len (strip_digits s)) <$> ops.*1) ++ [0].
Proof.
  intros Hb Hstrs. pose proof (built_inv _ _ Hb) as Hinv.
  unfold get_string_lengths. rewrite (ti_input _ _ Hinv). unfold buffer_of.
  apply (lengths_from (λ j, j) []); [constructor|done].
Qed.

Lemma get_string_lengths_built_witness :
  built scenario_B tree_B ∧ (∀ s, s ∈ scenario_B.*1 → dollar ∉ s) ∧
  get_string_lengths tree_B = ((λ s, len (strip_digits s)) <$> scenario_B.*1) ++ [0].
Proof.
  assert (∀ s, s ∈ scenario_B.*1 → dollar ∉ s) as Hs.
  { apply Forall_forall.
    repeat constructor; apply (bool_decide_unpack _); vm_compute; reflexivity. }
  split; [exact built_B|]. split; [exact Hs|].
  apply (get_string_lengths_built scenario_B tree_B built_B Hs).
Defined.

(** ** [_format_positions] *)

Lemma offsets_for_cons sizes nsl ml i fl ps j :
  offsets_for sizes nsl ml ((i, fl) :: ps) j
  = match (if decide (i = j)
           then (λ size, size - (fl - nsl) - ml) <$> sizes !! j else None) with
    | Some x => x :: offsets_for sizes nsl ml ps j
    | None => offsets_for sizes nsl ml ps j
    end.
Proof. done. Qed.

Lemma format_loop_spec positions nsl ml sizes (rv : list (list Z)) :
  format_loop positions nsl ml sizes rv
  = if decide (Forall (λ p : nat * Z,
                         (p.1 < length sizes)%nat ∧ (p.1 < length rv)%nat) positions)
    then Ok (imap (λ i l, l ++ offsets_for sizes nsl ml positions i) rv)
    else Raise IndexError.
Proof.
  revert rv. induction positions as [|[i fl] ps IH]; intros rv.
  - rewrite decide_True by constructor. simpl. f_equal.
    apply list_eq. intros j. rewrite list_lookup_imap.
    destruct (rv !! j); simpl; [|done]. by rewrite app_nil_r.
  - cbn [format_loop].
    destruct (sizes !! i) as [size|] eqn:Hsize; cbn [get_some mbind res_bind].
    2:{ rewrite decide_False; [done|]. intros [[Hlt _] _]%Forall_cons.
        apply lookup_ge_None in Hsize. simpl in Hlt. lia. }
    destruct (rv !! i) as [l|] eqn:Hl; cbn [get_some mbind res_bind].
    2:{ rewrite decide_False; [done|]. intros [[_ Hlt] _]%Forall_cons.
        apply lookup_ge_None in Hl. simpl in Hlt. lia. }
    rewrite IH, length_insert.
    pose proof (lookup_lt_Some _ _ _ Hsize). pose proof (lookup_lt_Some _ _ _ Hl).
    destruct (decide (Forall _ ps)) as [Hps|Hps].
    + rewrite decide_True by (constructor; [done|exact Hps]). f_equal.
      apply list_eq. intros j. rewrite !list_lookup_imap, offsets_for_cons.
      destruct (decide (i = j)) as [->|Hne].
      * rewrite list_lookup_insert_eq by done. rewrite Hl, Hsize. simpl.
        by rewrite <-app_assoc.
      * by rewrite list_lookup_insert_ne.
    + rewrite decide_False; [done|]. by intros [_ ?]%Forall_cons.
Qed.

(** [_format_positions] raises [IndexError] exactly when an identifier of
    [positions] has no entry in [sizes] or is not the index of an appended
    string.  Otherwise it returns one list for each appended string: the
    list of string [i] holds, for the pairs with identifier [i] in their
    order, [sizes[i] - (from_last - node_substr_len) - matching_len]. *)
Theorem _format_positions_spec t positions node_substr_len matching_len sizes :
  _format_positions t positions node_substr_len matching_len sizes
  = if decide (Forall (λ p : nat * Z,
                         (p.1 < length sizes)%nat ∧ (p.1 < strings_count t)%nat)
                 positions)
    then Ok (offsets_for sizes node_substr_len matching_len positions
               <$> seq 0 (strings_count t))
    else Raise IndexError.
Proof.
  unfold _format_positions. rewrite format_loop_spec, length_replicate.
  destruct (decide _); [|done]. f_equal. apply list_eq. intros j.
  rewrite list_lookup_imap, list_lookup_fmap.
  destruct (decide (j < strings_count t)%nat) as [Hlt|Hge].
  - rewrite lookup_replicate_2, lookup_seq_lt by done. done.
  - rewrite (proj1 (lookup_replicate_None _ _ _)), lookup_seq_ge by lia. done.
Qed.

(** ** The ending of a string and its removal *)

Lemma match_digits_end_digits d :
  Forall (λ c, is_digit c = true) d → match_digits_end d = Some [].
Proof. induction 1 as [|c d Hc _ IH]; simpl; [done|]. by rewrite Hc, IH. Qed.

Lemma match_digits_end_dollar x : dollar ∈ x → match_digits_end x = None.
Proof.
  induction x as [|c x IH]; intros Hin; [by apply elem_of_nil in Hin|].
  cbn [match_digits_end].
  assert (at_end (c :: x) = false) as Hend.
  { destruct x as [|c' x]; [|done]. apply list_elem_of_singleton in Hin as <-. done. }
  rewrite Hend. destruct (is_digit c) eqn:Hc; [|done].
  rewrite IH; [done|]. apply elem_of_cons in Hin as [<-|Hin]; [done|done].
Qed.

Lemma match_tail_ending d :
  Forall (λ c, is_digit c = true) d → match_tail (dollar :: d) = Some [].
Proof.
  intros Hd. unfold match_tail. rewrite decide_True by done.
  by rewrite match_digits_end_digits.
Qed.

Lemma match_tail_dollar c x : dollar ∈ x → match_tail (c :: x) = None.
Proof.
  intros Hin. unfold match_tail.
  rewrite (match_digits_end_dollar (c :: x)) by (by right).
  rewrite (match_digits_end_dollar x) by done. by destruct (decide _).
Qed.

Lemma match_here_unfold s :
  match_here s
  = match match_tail s with
    | Some r => Some ([], r)
    | None =>
        match s with
        | c :: s' =>
            if decide (c = newline) then None
            else '(g, r) ← match_here s'; Some (c :: g, r)
        | [] => None
        end
    end.
Proof. by destruct s. Qed.

Lemma strip_unique_ending_unfold s :
  strip_unique_ending s
  = match match_here s with
    | Some (g, r) => g ++ r
    | None =>
        match s with
        | c :: s' => c :: strip_unique_ending s'
        | [] => []
        end
    end.
Proof. by destruct s. Qed.

Lemma match_here_ending s d :
  Forall (λ c, is_digit c = true) d →
  match_here (s ++ dollar :: d)
  = if decide (newline ∈ s) then None else Some (s, []).
Proof.
  intros Hd. induction s as [|c s IH]; rewrite match_here_unfold; cbn [app].
  - rewrite match_tail_ending by done.
    rewrite decide_False; [done|apply not_elem_of_nil].
  - rewrite match_tail_dollar.
    2:{ apply elem_of_app. right. left. }
    rewrite IH. destruct (decide (c = newline)) as [->|Hne].
    + rewrite decide_True; [done|left].
    + destruct (decide (newline ∈ s)) as [Hin|Hin].
      * rewrite decide_True; [done|by right].
      * rewrite decide_False; [done|].
        intros [?|?]%elem_of_cons; congruence.
Qed.

Lemma strip_unique_ending_ending s d :
  Forall (λ c, is_digit c = true) d → strip_unique_ending (s ++ dollar :: d) = s.
Proof.
  intros Hd. induction s as [|c s IH];
    rewrite strip_unique_ending_unfold, match_here_ending by done.
  - rewrite decide_False; [done|apply not_elem_of_nil].
  - destruct (decide _); [|by rewrite app_nil_r].
    cbn [app]. by rewrite IH.
Qed.

(** The ending ['$' + str(k)] that [append_string] gives a string, and every
    prefix of it that has the ['$'], is what the clean-up of
    [find_common_substrings] removes from the end of a label, whatever the
    symbols before it. *)
Theorem strip_unique_ending_terminated s k j :
  strip_unique_ending (terminated k s) = s ∧
  strip_unique_ending (s ++ dollar :: take j (str k)) = s.
Proof.
  split.
  - apply strip_unique_ending_ending, str_digits.
  - apply strip_unique_ending_ending, Forall_take, str_digits.
Qed.

Lemma match_digits_end_other x c :
  c ∈ x → is_digit c = false → c ≠ newline → match_digits_end x = None.
Proof.
  intros Hin Hc Hnl. induction x as [|c0 x IH]; [by apply elem_of_nil in Hin|].
  cbn [match_digits_end].
  assert (at_end (c0 :: x) = false) as Hend.
  { destruct x as [|c' x]; [|done]. apply list_elem_of_singleton in Hin as <-.
    simpl. by rewrite bool_decide_eq_false. }
  rewrite Hend. destruct (is_digit c0) eqn:Hc0; [|done].
  rewrite IH; [done|]. apply elem_of_cons in Hin as [->|Hin]; [congruence|done].
Qed.

Lemma match_tail_other x c :
  c ∈ x → is_digit c = false → c ≠ newline → c ≠ dollar → match_tail x = None.
Proof.
  intros Hin Hc Hnl Hd. destruct x as [|c0 x]; [by apply elem_of_nil in Hin|].
  unfold match_tail. rewrite (match_digits_end_other (c0 :: x) c) by done.
  destruct (decide (c0 = dollar)) as [->|]; [|done].
  rewrite (match_digits_end_other x c); [done| |done|done].
  apply elem_of_cons in Hin as [->|Hin]; done.
Qed.

Lemma match_here_digits d :
  Forall (λ c, is_digit c = true) d → match_here d = Some ([], []).
Proof.
  intros Hd. rewrite match_here_unfold.
  assert (match_tail d = Some []) as ->; [|done].
  destruct Hd as [|c d Hc Hd]; [done|]. unfold match_tail.
  rewrite decide_False by (intros ->; done).
  by apply match_digits_end_digits; constructor.
Qed.

Lemma match_here_label y c d :
  Forall (λ c, is_digit c = true) d → newline ∉ y →
  is_digit c = false → c ≠ newline → c ≠ dollar →
  match_here (y ++ c :: d) = Some (y ++ [c], []).
Proof.
  intros Hd Hy Hc Hnl Hdl. induction y as [|c0 y IH]; rewrite match_here_unfold; cbn [app].
  - rewrite (match_tail_other _ c) by (done || left).
    rewrite decide_False by done. by rewrite match_here_digits.
  - apply not_elem_of_cons in Hy as [Hne Hy].
    rewrite (match_tail_other _ c); [|right; apply elem_of_app; right; left|done..].
    rewrite decide_False by done. by rewrite IH.
Qed.

(** Decimal digits at the end of a label go with the ending: when the label
    has no newline and the symbol before the digits is neither a digit nor
    ['$'], the clean-up returns the label without the digits. *)
Theorem strip_unique_ending_digits (g d : pystr) :
  Forall (λ c, is_digit c = true) d → newline ∉ g →
  (∀ g' c, g = g' ++ [c] → is_digit c = false ∧ c ≠ dollar) →
  strip_unique_ending (g ++ d) = g.
Proof.
  intros Hd Hnl Hlast. rewrite strip_unique_ending_unfold.
  induction g as [|c0 g0 _] using rev_ind.
  - cbn [app]. by rewrite match_here_digits.
  - destruct (Hlast g0 c0 eq_refl) as [Hc Hdl].
    apply not_elem_of_app in Hnl as [Hnl Hc0].
    rewrite <-app_assoc. cbn [app]. rewrite match_here_label; try done.
    + by rewrite app_nil_r.
    + intros ->. apply Hc0. left.
Qed.

Lemma strip_unique_ending_digits_witness :
  Forall (λ c, is_digit c = true) ("12" : pystr) ∧ (newline ∉ ("ab" : pystr)) ∧
  (∀ g' c, ("ab" : pystr) = g' ++ [c] → is_digit c = false ∧ c ≠ dollar) ∧
  strip_unique_ending (("ab" : pystr) ++ ("12" : pystr)) = ("ab" : pystr).
Proof.
  assert (Forall (λ c, is_digit c = true) ("12" : pystr)) as Hd
    by (repeat constructor).
  assert (newline ∉ ("ab" : pystr)) as Hnl
    by (apply (bool_decide_unpack _); vm_compute; reflexivity).
  assert (∀ g' c, ("ab" : pystr) = g' ++ [c] → is_digit c = false ∧ c ≠ dollar)
    as Hlast.
  { intros g' c Heq. change ("ab" : pystr) with (("a" : pystr) ++ ["b"%char]) in Heq.
    apply app_inj_tail in Heq as [_ <-]. split; [reflexivity|discriminate]. }
  split; [exact Hd|]. split; [exact Hnl|]. split; [exact Hlast|].
  apply (strip_unique_ending_digits ("ab" : pystr) ("12" : pystr) Hd Hnl Hlast).
Defined.

(** ** What [find_common_substrings] returns *)

Lemma walk_up_lca fuel cls h lca node prev h' lca' :
  walk_up fuel cls h lca node prev = Ok (h', lca') →
  lca_ok cls h lca → lca_ok cls h' lca'.
Proof.
  revert h lca node prev. induction fuel as [|fuel IH]; intros h lca [r|] prev; simpl;
    try discriminate; try (by intros [= <- <-]).
  intros H Hok. apply bind_Ok in H as (n & Hn & H). apply get_some_Ok in Hn.
  destruct (_ && _); [by injection H as <- <-|].
  apply bind_Ok in H as (h1 & Hset & H). apply assign_Ok in Hset as (n1 & Hn1 & ->).
  assert (n1 = n) by congruence. subst n1.
  apply IH in H; [done|]. intros x Hx.
  rewrite (lookup_upd _ _ n) by done. case_decide as Hxr.
  - subst x. eexists. split; [done|]. simpl.
    destruct (is_successful cls (Z.lor (bit_vector n) prev)) eqn:Hs; [done|].
    destruct (Hok r Hx) as (n' & Hn' & Hs'). assert (n' = n) by congruence. subst n'.
    rewrite <-Hs. eapply is_successful_mono; [apply bits_le_lor_l|done].
  - apply Hok. destruct (is_successful cls _); [|done].
    apply elem_of_union in Hx as [Hx%elem_of_singleton|Hx]; done.
Qed.

Lemma propagate_lca cls h lca ls h' lca' :
  propagate cls h lca ls = Ok (h', lca') → lca_ok cls h lca → lca_ok cls h' lca'.
Proof.
  revert h lca. induction ls as [|l ls IH]; intros h lca; simpl.
  - by intros [= <- <-].
  - intros H Hok. apply bind_Ok in H as ([h1 lca1] & Hw & H).
    eapply IH; [exact H|]. by eapply walk_up_lca.
Qed.

Lemma materialize_keys (t : SuffixTree) (m : Z) (ord : list nat) (R r : gmap pystr (list (list Z))) :
  materialize t m ord (dom R) R = Ok r →
  ∀ key, key ∈ dom r ↔
    key ∈ dom R ∨
    ∃ ca cs, ca ∈ ord ∧ path_label (length (nodes t)) t ca [] = Ok cs ∧
      key = strip_unique_ending cs ∧ m ≤ len key.
Proof.
  revert R. induction ord as [|ca ord IH]; intros R; simpl.
  - intros [= <-] key. split; [by left|].
    intros [?|(? & ? & ?%elem_of_nil & _)]; done.
  - intros H key. apply bind_Ok in H as (cs & Hcs & H).
    destruct (_ && _) eqn:Hc.
    + apply bind_Ok in H as (pos & _ & H). apply bind_Ok in H as (n & _ & H).
      apply bind_Ok in H as (pos' & _ & H).
      apply andb_true_iff in Hc as [Hlen _].
      replace ({[strip_unique_ending cs]} ∪ dom R)
        with (dom (<[strip_unique_ending cs := pos']> R)) in H
        by (by rewrite dom_insert_L).
      rewrite (IH _ H), dom_insert_L, elem_of_union, elem_of_singleton. split.
      * intros [[->|?]|(ca' & cs' & Hin & ?)]; [right|by left|right].
        -- exists ca, cs. split_and!; [left|done|done|lia].
        -- exists ca', cs'. split; [by right|done].
      * intros [?|(ca' & cs' & [->|Hin]%elem_of_cons & Hcs' & -> & Hl)].
        -- left. by right.
        -- left. left. congruence.
        -- right. eauto 10.
    + rewrite (IH _ H). split.
      * intros [?|(ca' & cs' & Hin & ?)]; [by left|right].
        exists ca', cs'. split; [by right|done].
      * intros [?|(ca' & cs' & [->|Hin]%elem_of_cons & Hcs' & -> & Hl)]; [by left| |].
        -- left. assert (cs' = cs) by congruence. subst cs'.
           apply andb_false_iff in Hc as [Hc|Hc]; [lia|].
           apply bool_decide_eq_false in Hc. by apply dec_stable in Hc.
        -- right. eauto 10.
Qed.

Lemma _format_positions_length t positions nsl ml sizes r :
  _format_positions t positions nsl ml sizes = Ok r → length r = strings_count t.
Proof.
  unfold _format_positions. intros ->%format_loop_length. apply length_replicate.
Qed.

Lemma materialize_values (t : SuffixTree) (m : Z) (ord : list nat) (S : gset pystr) (R r : gmap pystr (list (list Z))) :
  materialize t m ord S R = Ok r →
  (∀ key pos, R !! key = Some pos → length pos = strings_count t) →
  ∀ key pos, r !! key = Some pos → length pos = strings_count t.
Proof.
  revert S R. induction ord as [|ca ord IH]; intros S R; simpl.
  - by intros [= <-].
  - intros H HR. apply bind_Ok in H as (cs & Hcs & H).
    destruct (_ && _); [|by eapply IH].
    apply bind_Ok in H as (pos & _ & H). apply bind_Ok in H as (n & _ & H).
    apply bind_Ok in H as (pos' & Hpos' & H). eapply IH; [exact H|].
    intros key p. rewrite lookup_insert_Some.
    intros [[_ <-]|[_ Hk]]; [by eapply _format_positions_length|by eapply HR].
Qed.

(** Every key of the returned mapping is the cleaned label of the path from
    the root to a node whose vector, after the call, has a bit in every
    class; the key has at least [min_substr_len] symbols, and its value has
    one list for each appended string. *)
Theorem find_common_substrings_result set_order t m r t' :
  (∀ X, set_order X ≡ₚ elements X) →
  find_common_substrings set_order t m = Ok (r, t') →
  ∀ key positions, r !! key = Some positions →
    m ≤ len key ∧ length positions = strings_count t ∧
    ∃ ca n cs, nodes t' !! ca = Some n ∧
      is_successful (classes t) (bit_vector n) = true ∧
      path_label (length (nodes t')) t' ca [] = Ok cs ∧
      key = strip_unique_ending cs.
Proof.
  intros Hperm (lca & Hp & Hm)%find_common_substrings_Ok key positions Hkey.
  pose proof (propagation_Ok _ _ _ Hp) as (Hr & Hi & Hc & Hl & Hcl & lca0 & Hpp).
  assert (lca_ok (classes t) (nodes t') lca) as Hok.
  { unfold propagation in Hp. apply bind_Ok in Hp as ([h lca1] & Hp1 & Hp).
    injection Hp as <- <-. simpl. eapply propagate_lca; [exact Hp1|].
    by intros x ?%not_elem_of_empty. }
  assert (key ∈ dom r) as Hdom by (apply elem_of_dom; eauto).
  assert (materialize t' m (set_order lca)
            (dom (∅ : gmap pystr (list (list Z)))) ∅ = Ok r) as Hm'
    by (by rewrite dom_empty_L).
  apply (materialize_keys _ _ _ _ _ Hm') in Hdom
    as [Hin|(ca & cs & Hca & Hcs & -> & Hlen)].
  { rewrite dom_empty_L in Hin. by apply not_elem_of_empty in Hin. }
  split; [done|]. split.
  - rewrite <-Hc. eapply materialize_values; [exact Hm| |exact Hkey].
    intros k p. by rewrite lookup_empty.
  - rewrite (Hperm lca) in Hca. apply elem_of_elements in Hca.
    destruct (Hok ca Hca) as (n & Hn & Hs). exists ca, n, cs. done.
Qed.

Lemma find_common_substrings_result_witness :
  (∀ X : gset nat, elements X ≡ₚ elements X) ∧
  find_common_substrings elements tree_B 2 = Ok (result_B, tree_B1) ∧
  ∀ key positions, result_B !! key = Some positions →
    2 ≤ len key ∧ length positions = strings_count tree_B ∧
    ∃ ca n cs, nodes tree_B1 !! ca = Some n ∧
      is_successful (classes tree_B) (bit_vector n) = true ∧
      path_label (length (nodes tree_B1)) tree_B1 ca [] = Ok cs ∧
      key = strip_unique_ending cs.
Proof.
  assert (∀ X : gset nat, elements X ≡ₚ elements X) as Hperm by done.
  assert (find_common_substrings elements tree_B 2 = Ok (result_B, tree_B1)) as Hf
    by (vm_compute; reflexivity).
  split; [exact Hperm|]. split; [exact Hf|].
  apply (find_common_substrings_result elements tree_B 2 result_B tree_B1 Hperm Hf).
Defined.

(** ** The minimal length *)

Lemma materialize_raise (t : SuffixTree) (m m' : Z) (ord : list nat)
    (S S' : gset pystr) (R r : gmap pystr (list (list Z))) :
  m ≤ m' →
  materialize t m ord S R = Ok r →
  (∀ key, key ∈ S' ↔ key ∈ S ∧ m' ≤ len key) →
  materialize t m' ord S' (filter (λ kv, m' ≤ len kv.1) R)
  = Ok (filter (λ kv, m' ≤ len kv.1) r).
Proof.
  intros Hmm'. revert S S' R. induction ord as [|ca ord IH]; intros S S' R; simpl.
  - by intros [= <-].
  - intros H HS. apply bind_Ok in H as (cs & Hcs & H). rewrite Hcs. simpl.
    set (key := strip_unique_ending cs) in *.
    destruct ((m <=? len key) && bool_decide (key ∉ S)) eqn:Hc.
    + apply bind_Ok in H as (pos & Hpos & H). apply bind_Ok in H as (n & Hn & H).
      apply bind_Ok in H as (pos' & Hpos' & H).
      apply andb_true_iff in Hc as [Hlen Hin]. apply bool_decide_eq_true in Hin.
      destruct (m' <=? len key) eqn:Hlen'; simpl.
      * rewrite bool_decide_eq_true_2 by (rewrite HS; intros [? _]; done).
        rewrite Hpos. simpl. rewrite Hn. simpl. rewrite Hpos'. simpl.
        rewrite <-map_filter_insert_True by (simpl; lia).
        eapply IH; [exact H|]. intros k.
        rewrite !elem_of_union, !elem_of_singleton, HS. split.
        -- intros [->|[? ?]]; [split; [by left|lia]|split; [by right|done]].
        -- intros [[->|?] ?]; [by left|by right].
      * rewrite <-(map_filter_insert_not (λ kv : pystr * list (list Z), m' ≤ len kv.1)
                     R key pos') by (simpl; lia).
        eapply IH; [exact H|]. intros k.
        rewrite !elem_of_union, !elem_of_singleton, HS. split.
        -- intros [? ?]. split; [by right|done].
        -- intros [[->|?] ?]; [lia|done].
    + assert ((m' <=? len key) && bool_decide (key ∉ S') = false) as ->.
      { apply andb_false_iff in Hc as [Hc|Hc]; apply andb_false_iff.
        - left. lia.
        - destruct (m' <=? len key) eqn:Hlen'; [right|by left].
          apply bool_decide_eq_false in Hc. apply dec_stable in Hc.
          apply bool_decide_eq_false. intros Hnot. apply Hnot, HS. split; [done|lia]. }
      by eapply IH.
Qed.

(** A first call with a larger [min_substr_len] returns the mapping of the
    call with the smaller one without the keys that are too short, and
    leaves the same tree. *)
Theorem find_common_substrings_min_length set_order t m m' r t' :
  m ≤ m' →
  find_common_substrings set_order t m = Ok (r, t') →
  find_common_substrings set_order t m'
  = Ok (filter (λ kv, m' ≤ len kv.1) r, t').
Proof.
  intros Hmm' (lca & Hp & Hm)%find_common_substrings_Ok.
  unfold find_common_substrings. rewrite Hp. simpl.
  pose proof (materialize_raise t' m m' (set_order lca) ∅ ∅ ∅ r Hmm' Hm) as H.
  rewrite map_filter_empty in H. rewrite H; [done|].
  intros key. split; [by intros ?%not_elem_of_empty|by intros [?%not_elem_of_empty _]].
Qed.

Lemma find_common_substrings_min_length_witness :
  1 ≤ 3 ∧
  find_common_substrings elements tree_B 1
  = Ok (list_to_map [("abc" : pystr, [[0]; [3]]); ("bc" : pystr, [[1]; [4]]);
                     ("c" : pystr, [[2]; [5]])], tree_B1) ∧
  find_common_substrings elements tree_B 3
  = Ok (filter (λ kv, 3 ≤ len kv.1)
          (list_to_map [("abc" : pystr, [[0]; [3]]); ("bc" : pystr, [[1]; [4]]);
                        ("c" : pystr, [[2]; [5]])] : gmap pystr (list (list Z))),
        tree_B1).
Proof.
  assert (1 ≤ 3) as Hle by lia.
  assert (find_common_substrings elements tree_B 1
          = Ok (list_to_map [("abc" : pystr, [[0]; [3]]); ("bc" : pystr, [[1]; [4]]);
                             ("c" : pystr, [[2]; [5]])], tree_B1)) as Hf
    by (vm_compute; reflexivity).
  split; [exact Hle|]. split; [exact Hf|].
  apply (find_common_substrings_min_length elements tree_B 1 3 _ tree_B1 Hle Hf).
Defined.

(** ** The order of the candidate set, again *)

(** Two runs of a call that visit the candidate set in different orders
    leave the same tree and return mappings with the same keys. *)
Theorem find_common_substrings_keys_any_order o1 o2 t m r1 t1 r2 t2 :
  (∀ X, o1 X ≡ₚ elements X) → (∀ X, o2 X ≡ₚ elements X) →
  find_common_substrings o1 t m = Ok (r1, t1) →
  find_common_substrings o2 t m = Ok (r2, t2) →
  t1 = t2 ∧ dom r1 = dom r2.
Proof.
  intros H1 H2 (lca1 & Hp1 & Hm1)%find_common_substrings_Ok
    (lca2 & Hp2 & Hm2)%find_common_substrings_Ok.
  rewrite Hp1 in Hp2. injection Hp2 as <- <-. split; [done|].
  assert (∀ o, materialize t1 m (o lca1) ∅ ∅ = Ok r1 →
            materialize t1 m (o lca1) (dom (∅ : gmap pystr (list (list Z)))) ∅
            = Ok r1) as Hdom by (intros o; by rewrite dom_empty_L).
  apply set_eq. intros key.
  rewrite (materialize_keys _ _ _ _ _ (Hdom o1 Hm1)).
  assert (materialize t1 m (o2 lca1) (dom (∅ : gmap pystr (list (list Z)))) ∅
          = Ok r2) as Hm2' by (by rewrite dom_empty_L).
  rewrite (materialize_keys _ _ _ _ _ Hm2').
  split; (intros [?|(ca & cs & Hca & ?)]; [by left|right]; exists ca, cs;
          split; [|done]).
  - by rewrite (H2 lca1), <-(H1 lca1).
  - by rewrite (H1 lca1), <-(H2 lca1).
Qed.

Lemma find_common_substrings_keys_any_order_witness :
  (∀ X : gset nat, elements X ≡ₚ elements X) ∧
  (∀ X : gset nat, reverse (elements X) ≡ₚ elements X) ∧
  find_common_substrings elements tree_B 2 = Ok (result_B, tree_B1) ∧
  find_common_substrings (λ X, reverse (elements X)) tree_B 2
  = Ok (result_B, tree_B1) ∧
  tree_B1 = tree_B1 ∧ dom result_B = dom result_B.
Proof.
  assert (∀ X : gset nat, elements X ≡ₚ elements X) as H1 by done.
  assert (∀ X : gset nat, reverse (elements X) ≡ₚ elements X) as H2
    by (intros X; apply reverse_Permutation).
  assert (find_common_substrings elements tree_B 2 = Ok (result_B, tree_B1)) as Hf1
    by (vm_compute; reflexivity).
  assert (find_common_substrings (λ X, reverse (elements X)) tree_B 2
          = Ok (result_B, tree_B1)) as Hf2 by (vm_compute; reflexivity).
  split; [exact H1|]. split; [exact H2|]. split; [exact Hf1|]. split; [exact Hf2|].
  apply (find_common_substrings_keys_any_order elements (λ X, reverse (elements X))
           tree_B 2 result_B tree_B1 result_B tree_B1 H1 H2 Hf1 Hf2).
Defined.

Lemma built_order : built scenario_order tree_order.
Proof. apply (run_built 100). vm_compute. reflexivity. Qed.

(** The values of the mapping do depend on that order.  After
    [append_string("abab", "A")] and [append_string("ab", "B")] the nodes with
    the labels "ab" and "ab$" are both candidates and both give the key
    "ab"; the one that the set yields first gives the positions. *)
Theorem find_common_substrings_order_matters :
  ∃ o1 o2 r1 r2 t',
    built scenario_order tree_order ∧
    (∀ X, o1 X ≡ₚ elements X) ∧ (∀ X, o2 X ≡ₚ elements X) ∧
    find_common_substrings o1 tree_order 2 = Ok (r1, t') ∧
    find_common_substrings o2 tree_order 2 = Ok (r2, t') ∧
    r1 !! ("ab" : pystr) = Some [[3]; [1]] ∧
    r2 !! ("ab" : pystr) = Some [[0; 2]; [0]].
Proof.
  exists elements, (λ X, reverse (elements X)).
  eexists _, _, _. split; [exact built_order|].
  split; [done|]. split; [intros X; apply reverse_Permutation|].
  split; [vm_compute; reflexivity|]. split; [vm_compute; reflexivity|].
  split; vm_compute; reflexivity.
Qed.

(** ** A second call *)

Lemma lor_absorb_inv a b : bits_le b a → Z.lor a b = a.
Proof.
  intros Hle. apply Z.bits_inj'. intros i _. rewrite Z.lor_spec.
  destruct (Z.testbit b i) eqn:Hb; [|by rewrite orb_false_r].
  by rewrite (Hle _ Hb).
Qed.

Lemma walk_up_None fuel cls h lca prev :
  walk_up fuel cls h lca None prev = Ok (h, lca).
Proof. by destruct fuel. Qed.

(** In an arena whose vectors are closed a walk stops at the parent of the
    leaf and changes nothing. *)
Lemma walk_up_closed fuel cls h r lca l nl :
  wf_shape h r → closed h → h !! l = Some nl → bit_vector nl ≠ 0 →
  (length h ≤ fuel)%nat →
  ∃ lca', walk_up fuel cls h lca (Some l) 0 = Ok (h, lca') ∧
    ∀ x, x ∈ lca' → x ∈ lca ∨ x = l.
Proof.
  intros Hwf Hcl Hl Hbv Hfuel.
  pose proof (lookup_lt_Some _ _ _ Hl) as Hlt.
  destruct fuel as [|fuel]; [lia|]. cbn [walk_up]. unfold deref at 1.
  rewrite Hl. cbn [get_some mbind res_bind]. rewrite Z.eqb_refl. cbn [negb andb].
  unfold assign, deref. rewrite Hl. cbn [get_some mbind res_bind].
  rewrite Z.lor_0_r, set_bit_vector_id, list_insert_id by done.
  set (lca1 := if is_successful cls (bit_vector nl) then {[l]} ∪ lca else lca).
  assert (∀ x, x ∈ lca1 → x ∈ lca ∨ x = l) as Hlca1.
  { intros x. unfold lca1. destruct (is_successful _ _); [|by left].
    intros [->%elem_of_singleton|?]%elem_of_union; [by right|by left]. }
  exists lca1. split; [|done].
  destruct (parent nl) as [p|] eqn:Hp; [|apply walk_up_None].
  destruct (wf_parent_edge _ _ Hwf _ _ _ Hl Hp) as (np & key & Hnp & Hin).
  assert (p ≠ l) as Hne.
  { intros ->. by eapply wf_no_loop. }
  pose proof (lookup_lt_Some _ _ _ Hnp) as Hltp.
  destruct fuel as [|fuel]; [lia|]. cbn [walk_up]. unfold deref.
  rewrite Hnp. cbn [get_some mbind res_bind].
  rewrite (lor_absorb_inv (bit_vector np) (bit_vector nl)) by (by eapply Hcl).
  rewrite Z.eqb_refl. destruct (bit_vector nl =? 0) eqn:Hz; [lia|done].
Qed.

Lemma propagate_closed cls h r lca ls :
  wf_shape h r → closed h →
  (∀ l, l ∈ ls → ∃ nl, h !! l = Some nl ∧ bit_vector nl ≠ 0) →
  ∃ lca', propagate cls h lca ls = Ok (h, lca') ∧
    ∀ x, x ∈ lca' → x ∈ lca ∨ x ∈ ls.
Proof.
  intros Hwf Hcl. revert lca. induction ls as [|l ls IH]; intros lca Hls; simpl.
  - exists lca. split; [done|]. by left.
  - destruct (Hls l) as (nl & Hl & Hbv); [left|].
    destruct (walk_up_closed (length h) cls h r lca l nl) as (lca1 & -> & H1);
      [done..|]. simpl.
    destruct (IH lca1) as (lca' & -> & H'); [intros; apply Hls; by right|].
    exists lca'. split; [done|]. intros x Hx.
    destruct (H' x Hx) as [Hx1|?]; [|right; by right].
    destruct (H1 x Hx1) as [?| ->]; [by left|right; left].
Qed.

(** On a tree built by appends alone, a call of [find_common_substrings]
    after the first one changes nothing and reports leaves only.  The loop
    of lines 227-241 returns and leaves every node as the first call left
    it, and the candidates it collects are nodes of the list of leaves, as
    every walk stops at the parent of its leaf; so a later call that
    returns leaves the tree as the first call left it, and every key of its
    mapping is the cleaned label of the path from the root to a node of the
    list of leaves. *)
Theorem find_common_substrings_again ops t o1 m1 r1 t1 o2 m2 :
  built ops t → find_common_substrings o1 t m1 = Ok (r1, t1) →
  (∀ X, o2 X ≡ₚ elements X) →
  (∃ lca2, propagation t1 = Ok (t1, lca2) ∧ ∀ x, x ∈ lca2 → x ∈ leaves t) ∧
  ∀ r2 t2, find_common_substrings o2 t1 m2 = Ok (r2, t2) →
    t2 = t1 ∧
    ∀ key, key ∈ dom r2 →
      ∃ l cs, l ∈ leaves t ∧
        path_label (length (nodes t1)) t1 l [] = Ok cs ∧
        key = strip_unique_ending cs.
Proof.
  intros Hbuilt (lca & Hp & _)%find_common_substrings_Ok Hperm.
  pose proof (built_inv _ _ Hbuilt) as [Hsh Hin Hcnt Hlv Hinner Hbound].
  pose proof (propagation_Ok _ _ _ Hp) as (Hr & Hi & Hc & Hl & Hcl & lca0 & Hpp).
  pose proof (propagate_frame _ _ _ _ _ _ Hpp) as Hbv.
  pose proof (propagate_inv _ (nodes t) _ _ _ _ _ (prop_inv_start _ _ Hinner) Hpp)
    as Hinv.
  assert (wf_shape (nodes t1) (root t1)) as Hwf.
  { rewrite Hr. eapply same_shape_wf; [by apply bv_only_same_shape|done]. }
  assert (closed (nodes t1)) as Hclosed.
  { intros j nj p np Hj Hpj Hnp.
    destruct (pi_closed _ _ _ _ Hinv _ _ _ _ Hj Hpj Hnp) as [?%elem_of_nil|[?|?]]; done. }
  destruct (propagate_closed (classes t1) (nodes t1) (root t1) ∅ (leaves t1) Hwf Hclosed)
    as (lca2 & Hp2 & Hlca2).
  { intros l Hlin. rewrite Hl in Hlin.
    destruct (Hlv l Hlin) as (k & _ & _ & n & Hn & Hb & _).
    destruct Hbv as [_ Hbv]. destruct (Hbv _ _ Hn) as (n' & Hn' & _).
    exists n'. split; [done|]. intros Hz.
    pose proof (pi_mono _ _ _ _ Hinv _ _ _ Hn Hn' (Z.of_nat k)) as Hle.
    rewrite Hb, Hz, Z.bits_0 in Hle. discriminate Hle. by apply testbit_shiftl_1. }
  assert (propagation t1 = Ok (t1, lca2)) as Hprop2.
  { unfold propagation. rewrite Hp2. simpl. by destruct t1. }
  assert (∀ x, x ∈ lca2 → x ∈ leaves t) as Hleaves.
  { intros x Hx. destruct (Hlca2 x Hx) as [?%not_elem_of_empty|Hx']; [done|].
    by rewrite <-Hl. }
  split; [by exists lca2|].
  intros r2 t2 (lca' & Hp' & Hm)%find_common_substrings_Ok.
  rewrite Hprop2 in Hp'. injection Hp' as <- <-. split; [done|].
  intros key Hkey.
  assert (materialize t1 m2 (o2 lca2) (dom (∅ : gmap pystr (list (list Z)))) ∅
          = Ok r2) as Hm' by (by rewrite dom_empty_L).
  apply (materialize_keys _ _ _ _ _ Hm') in Hkey
    as [Hkey|(ca & cs & Hca & Hcs & -> & _)].
  { rewrite dom_empty_L in Hkey. by apply not_elem_of_empty in Hkey. }
  rewrite (Hperm lca2) in Hca. apply elem_of_elements in Hca.
  exists ca, cs. split; [by apply Hleaves|done].
Qed.

Lemma find_common_substrings_again_witness :
  built scenario_A tree_A ∧ (∀ X : gset nat, elements X ≡ₚ elements X) ∧
  ∃ r1 r2,
    find_common_substrings elements tree_A 2 = Ok (r1, tree_A1) ∧
    find_common_substrings elements tree_A1 2 = Ok (r2, tree_A1) ∧
    ("ac" : pystr) ∈ dom r2 ∧
    (∃ lca2, propagation tree_A1 = Ok (tree_A1, lca2) ∧
       ∀ x, x ∈ lca2 → x ∈ leaves tree_A) ∧
    ∀ r2 t2, find_common_substrings elements tree_A1 2 = Ok (r2, t2) →
      t2 = tree_A1 ∧
      ∀ key, key ∈ dom r2 →
        ∃ l cs, l ∈ leaves tree_A ∧
          path_label (length (nodes tree_A1)) tree_A1 l [] = Ok cs ∧
          key = strip_unique_ending cs.
Proof.
  assert (∃ r1, find_common_substrings elements tree_A 2 = Ok (r1, tree_A1))
    as [r1 Hf1] by (eexists; vm_compute; reflexivity).
  assert (∃ r2, find_common_substrings elements tree_A1 2 = Ok (r2, tree_A1) ∧
                ("ac" : pystr) ∈ dom r2) as (r2 & Hf2 & Hkey).
  { eexists. split; [vm_compute; reflexivity|].
    apply elem_of_dom. eexists. vm_compute. reflexivity. }
  assert (∀ X : gset nat, elements X ≡ₚ elements X) as Hperm by done.
  split; [exact built_A|]. split; [exact Hperm|]. exists r1, r2.
  split; [exact Hf1|]. split; [exact Hf2|]. split; [exact Hkey|].
  apply (find_common_substrings_again scenario_A tree_A elements 2 r1 tree_A1
           elements 2 built_A Hf1 Hperm).
Defined.

(** ** References and the size of the arena *)

Lemma refs_ok_alloc (h : arena) x :
  refs_ok h → suffix_link x = None → refs_ok (h ++ [x]).
Proof.
  intros Hok Hx i n l. rewrite lookup_alloc, length_app. simpl. case_decide.
  - intros [= <-]. congruence.
  - intros Hi Hl. specialize (Hok _ _ _ Hi Hl). lia.
Qed.

Lemma refs_ok_upd (h : arena) i n x :
  refs_ok h → h !! i = Some n →
  (∀ l, suffix_link x = Some l → (l < length h)%nat) →
  refs_ok (<[i := x]> h).
Proof.
  intros Hok Hi Hx j nj l. rewrite (lookup_upd _ _ n), length_insert by done.
  case_decide; [intros [= <-]; apply Hx|apply Hok].
Qed.

Lemma assign_refs f i (h h' : arena) :
  assign f i h = Ok h' → (∀ n, suffix_link (f n) = suffix_link n) →
  refs_ok h → refs_ok h' ∧ length h' = length h.
Proof.
  intros (n & Hi & ->)%assign_Ok Hf Hok. split; [|apply length_insert].
  eapply refs_ok_upd; [done..|]. intros l. rewrite Hf. intros Hl. eapply Hok; eauto.
Qed.

Lemma add_child_refs (h h' : arena) self key s e child :
  add_child h self key s e = Ok (h', child) → refs_ok h →
  refs_ok h' ∧ length h' = S (length h) ∧ child = length h.
Proof.
  intros (ns & Hs & -> & ->)%add_child_Ok Hok.
  assert (length (h ++ [set_parent (Some self) (new_node s e)]) = S (length h)) as Hlen
    by (rewrite length_app; simpl; lia).
  split_and!; [|by rewrite length_insert|done].
  eapply refs_ok_upd.
  - by apply refs_ok_alloc.
  - rewrite lookup_app_l by eauto using lookup_lt_Some. done.
  - simpl. intros l Hl. rewrite Hlen. specialize (Hok _ _ _ Hs Hl). lia.
Qed.

Lemma add_exisiting_node_as_child_refs (h h' : arena) self key node :
  add_exisiting_node_as_child h self key node = Ok h' → refs_ok h →
  refs_ok h' ∧ length h' = length h.
Proof.
  unfold add_exisiting_node_as_child. intros H Hok.
  apply bind_Ok in H as (h1 & H1 & H2).
  apply assign_refs in H1 as [Hok1 Hlen1]; [|done|done].
  apply assign_refs in H2 as [Hok2 Hlen2]; [|done|done].
  split; [done|congruence].
Qed.

Lemma link_refs (h h' : arena) prev target :
  link h prev target = Ok h' → (target < length h)%nat → refs_ok h →
  refs_ok h' ∧ length h' = length h.
Proof.
  destruct prev as [p|]; simpl; [|by intros [= <-]].
  intros (n & Hp & ->)%assign_Ok Ht Hok. split; [|apply length_insert].
  eapply refs_ok_upd; [done..|]. simpl. by intros l [= <-].
Qed.

Lemma update_ends_refs (h h' : arena) ls e :
  update_ends h ls e = Ok h' → refs_ok h → refs_ok h' ∧ length h' = length h.
Proof.
  revert h. induction ls as [|l ls IH]; intros h; simpl.
  - by intros [= <-].
  - intros H Hok. apply bind_Ok in H as (h1 & H1 & H).
    apply assign_refs in H1 as [Hok1 Hlen1]; [|done|done].
    destruct (IH _ H Hok1) as [? ?]. split; [done|congruence].
Qed.

Section construction_loop.
Variable input : pystr.
Variable r : nat.
Variable k : nat.
Variable n0 : nat.

Lemma follow_loop index s s' :
  follow r index s = Ok s' →
  refs_ok (b_nodes s) → (r < length (b_nodes s))%nat →
  (active_node s < length (b_nodes s))%nat →
  (active_node s' < length (b_nodes s'))%nat.
Proof.
  unfold follow. destruct (_ && _).
  - by intros [= <-].
  - intros H Hok Hr Ha. apply bind_Ok in H as (n & Hn & H). injection H as <-. simpl.
    apply get_some_Ok in Hn. destruct (suffix_link n) as [l|] eqn:Hl; simpl; [|done].
    eapply Hok; eauto.
Qed.

(** What one iteration of the [while] loop does to the references, the size
    and the active point: it ends the loop, or it adds a leaf and decrements
    [remainder], or it walks down to a child of the active node. *)
Lemma extend_loop index s f s' :
  wf_shape (b_nodes s) r → loop_inv n0 s →
  extend input r k index s = Ok (f, s') →
  loop_inv n0 s' ∧
  (f = Break ∨
   (remainder s' = remainder s - 1 ∧
    (length (b_nodes s') ≤ length (b_nodes s) + 2)%nat) ∨
   (remainder s' = remainder s ∧ b_nodes s' = b_nodes s ∧
    ∃ nn, b_nodes s !! active_node s' = Some nn ∧
      parent nn = Some (active_node s))).
Proof.
  intros Hwf [Hok Hact Hprev Hlv Hnd Hsize] H. unfold extend in H.
  assert (r < length (b_nodes s))%nat as Hr.
  { destruct (wf_root _ _ Hwf) as (nr & ? & _). eauto using lookup_lt_Some. }
  apply bind_Ok in H as (key & Hkey & H).
  apply bind_Ok in H as (na & Hna & H). apply get_some_Ok in Hna.
  destruct (dict_get key (edges na)) as [next|] eqn:Hget.
  - apply bind_Ok in H as (nn & Hnn & H). apply get_some_Ok in Hnn.
    destruct (active_length s >=? get_edge_length nn index) eqn:Hwalk.
    { injection H as <- <-. simpl. split.
      - split; simpl; try done. eauto using lookup_lt_Some.
      - right. right. split_and!; [done..|].
        apply dict_get_elem in Hget.
        destruct (wf_edge_parent _ _ Hwf _ _ _ _ Hna Hget) as (nj & Hj & Hpj).
        eauto. }
    apply bind_Ok in H as (c1 & Hc1 & H).
    apply bind_Ok in H as (c2 & Hc2 & H).
    destruct (decide (c1 = c2)) as [->|Hc].
    { apply bind_Ok in H as (h1 & Hlink & H). injection H as <- <-.
      apply link_refs in Hlink as [Hok1 Hlen1]; [|done|done].
      split; [|by left]. split; simpl; rewrite ?Hlen1; try done.
      by intros p [= <-]. }
    apply bind_Ok in H as ([h1 sp] & Hadd & H).
    apply bind_Ok in H as (nn1 & Hnn1 & H).
    apply bind_Ok in H as (h2 & Hstart & H).
    apply bind_Ok in H as (nn2 & Hnn2 & H).
    apply bind_Ok in H as (k2 & Hk2 & H).
    apply bind_Ok in H as (h3 & Hex & H).
    apply bind_Ok in H as (k3 & Hk3 & H).
    apply bind_Ok in H as ([h4 leaf] & Hadd2 & H).
    apply bind_Ok in H as (h5 & Hbv & H).
    apply bind_Ok in H as (h6 & Hlink & H).
    apply bind_Ok in H as (s1 & Hfollow & H). injection H as <- <-.
    apply add_child_refs in Hadd as (Hok1 & Hlen1 & ->); [|done].
    apply assign_refs in Hstart as [Hok2 Hlen2]; [|done|done].
    apply add_exisiting_node_as_child_refs in Hex as [Hok3 Hlen3]; [|done].
    apply add_child_refs in Hadd2 as (Hok4 & Hlen4 & ->); [|done].
    apply assign_refs in Hbv as [Hok5 Hlen5]; [|done|done].
    apply link_refs in Hlink as [Hok6 Hlen6]; [|lia|done].
    pose proof (follow_loop _ _ _ Hfollow) as Hact'. simpl in Hact'.
    destruct (follow_Ok _ _ _ _ Hfollow) as (Hn1 & Hl1 & Hr1 & Hp1 & _).
    simpl in *. split.
    + split; rewrite ?Hn1, ?Hl1, ?Hp1.
      * done.
      * rewrite Hn1 in Hact'. apply Hact'; [done|lia|lia].
      * intros p [= <-]. lia.
      * intros l [Hl| ->%list_elem_of_singleton]%elem_of_app; [|lia].
        specialize (Hlv _ Hl). lia.
      * apply NoDup_app. split_and!; [done| |apply NoDup_singleton].
        intros l Hl ->%list_elem_of_singleton. specialize (Hlv _ Hl). lia.
      * rewrite length_app. simpl. lia.
    + right. left. split; [done|]. rewrite Hn1. lia.
  - apply bind_Ok in H as ([h1 leaf] & Hadd & H).
    apply bind_Ok in H as (h2 & Hbv & H).
    apply bind_Ok in H as (h3 & Hlink & H).
    apply bind_Ok in H as (s1 & Hfollow & H). injection H as <- <-.
    apply add_child_refs in Hadd as (Hok1 & Hlen1 & ->); [|done].
    apply assign_refs in Hbv as [Hok2 Hlen2]; [|done|done].
    apply link_refs in Hlink as [Hok3 Hlen3]; [|lia|done].
    pose proof (follow_loop _ _ _ Hfollow) as Hact'. simpl in Hact'.
    destruct (follow_Ok _ _ _ _ Hfollow) as (Hn1 & Hl1 & Hr1 & Hp1 & _).
    simpl in *. split.
    + split; rewrite ?Hn1, ?Hl1, ?Hp1.
      * done.
      * rewrite Hn1 in Hact'. apply Hact'; [done|lia|lia].
      * intros p [= <-]. lia.
      * intros l [Hl| ->%list_elem_of_singleton]%elem_of_app; [|lia].
        specialize (Hlv _ Hl). lia.
      * apply NoDup_app. split_and!; [done| |apply NoDup_singleton].
        intros l Hl ->%list_elem_of_singleton. specialize (Hlv _ Hl). lia.
      * rewrite length_app. simpl. lia.
    + right. left. split; [done|]. rewrite Hn1. lia.
Qed.
End construction_loop.

(** ** The main loop finishes *)

Lemma finishes_bind {A B} (m : res A) (f : A → res B) :
  finishes m → (∀ a, m = Ok a → finishes (f a)) → finishes (m ≫= f).
Proof. destruct m as [a|e]; simpl; [by auto|by destruct e]. Qed.

Lemma getitem_finishes (s : pystr) i : finishes (getitem s i).
Proof.
  unfold getitem. destruct (0 <=? i); [by destruct (s !! _)|].
  destruct (- len s <=? i); [by destruct (s !! _)|done].
Qed.

Lemma deref_total (h : arena) i :
  (i < length h)%nat → ∃ n, deref h i = Ok n ∧ h !! i = Some n.
Proof.
  intros Hi. destruct (lookup_lt_is_Some_2 _ _ Hi) as [n Hn].
  exists n. unfold deref. by rewrite Hn.
Qed.

Lemma assign_total f i (h : arena) :
  (i < length h)%nat → ∃ h', assign f i h = Ok h' ∧ length h' = length h.
Proof.
  intros Hi. destruct (deref_total _ _ Hi) as (n & Hn & _).
  unfold assign. rewrite Hn. simpl. eexists. split; [done|apply length_insert].
Qed.

Lemma add_child_total (h : arena) self key s e :
  (self < length h)%nat →
  ∃ h', add_child h self key s e = Ok (h', length h) ∧ length h' = S (length h).
Proof.
  intros Hs. destruct (deref_total _ _ Hs) as (n & Hn & _).
  unfold add_child. rewrite Hn. cbn [mbind res_bind].
  destruct (assign_total (λ n, set_edges (dict_set key (length h) (edges n)) n) self
              (h ++ [set_parent (Some self) (new_node s e)])) as (h' & -> & Hlen).
  { rewrite length_app. simpl. lia. }
  simpl. eexists. split; [done|]. rewrite Hlen, length_app. simpl. lia.
Qed.

Lemma add_exisiting_node_as_child_total (h : arena) self key node :
  (self < length h)%nat → (node < length h)%nat →
  ∃ h', add_exisiting_node_as_child h self key node = Ok h' ∧ length h' = length h.
Proof.
  intros Hs Hn. unfold add_exisiting_node_as_child.
  destruct (assign_total (set_parent (Some self)) node h Hn) as (h1 & -> & Hlen1).
  simpl.
  destruct (assign_total (λ n, set_edges (dict_set key node (edges n)) n) self h1)
    as (h2 & -> & Hlen2); [lia|].
  exists h2. split; [done|lia].
Qed.

Lemma link_total (h : arena) prev target :
  (∀ p, prev = Some p → (p < length h)%nat) →
  ∃ h', link h prev target = Ok h' ∧ length h' = length h.
Proof.
  destruct prev as [p|]; simpl; [|by eauto].
  intros Hp. apply assign_total. by apply Hp.
Qed.

Lemma follow_total r index s :
  (active_node s < length (b_nodes s))%nat → ∃ s', follow r index s = Ok s'.
Proof.
  intros Ha. unfold follow. destruct (_ && _); [by eauto|].
  destruct (deref_total _ _ Ha) as (n & -> & _). simpl. eauto.
Qed.

Lemma update_ends_total (h : arena) ls e :
  (∀ l, l ∈ ls → (l < length h)%nat) → ∃ h', update_ends h ls e = Ok h'.
Proof.
  revert h. induction ls as [|l ls IH]; intros h Hls; simpl; [by eauto|].
  destruct (assign_total (set_end e) l h) as (h1 & -> & Hlen); [apply Hls; left|].
  simpl. apply IH. intros l' Hl'. rewrite Hlen. apply Hls. by right.
Qed.

Section construction_finishes.
Variable input : pystr.
Variable r : nat.
Variable k : nat.
Variable start_index : Z.
Variable old : arena.

Local Abbreviation builder_inv := (builder_inv r k start_index old).
Local Abbreviation loop_inv := (loop_inv (length old)).

(** One iteration of the [while] loop returns or raises [IndexError]. *)
Lemma extend_finishes index s :
  wf_shape (b_nodes s) r → loop_inv s → finishes (extend input r k index s).
Proof.
  intros Hwf [Hok Hact Hprev Hlv Hnd Hsize]. unfold extend.
  apply finishes_bind; [apply getitem_finishes|intros key Hkey].
  destruct (deref_total _ _ Hact) as (na & -> & Hna). cbn [mbind res_bind].
  destruct (dict_get key (edges na)) as [next|] eqn:Hget.
  - apply dict_get_elem in Hget.
    pose proof (wf_child_lt _ _ _ _ _ _ Hwf Hna Hget) as Hnext.
    destruct (deref_total _ _ Hnext) as (nn & -> & Hnn). cbn [mbind res_bind].
    destruct (active_length s >=? get_edge_length nn index); [done|].
    apply finishes_bind; [apply getitem_finishes|intros c1 Hc1].
    apply finishes_bind; [apply getitem_finishes|intros c2 Hc2].
    destruct (decide (c1 = c2)).
    { destruct (link_total (b_nodes s) (previous_node s) (active_node s) Hprev)
        as (h1 & -> & _). done. }
    destruct (add_child_total (b_nodes s) (active_node s) key (start nn)
                (start nn + active_length s) Hact) as (h1 & -> & Hlen1).
    cbn [mbind res_bind].
    destruct (deref_total h1 next) as (nn1 & -> & Hnn1); [lia|]. cbn [mbind res_bind].
    destruct (assign_total (set_start (start nn1 + active_length s)) next h1)
      as (h2 & -> & Hlen2); [lia|]. cbn [mbind res_bind].
    destruct (deref_total h2 next) as (nn2 & -> & Hnn2); [lia|]. cbn [mbind res_bind].
    apply finishes_bind; [apply getitem_finishes|intros k2 Hk2].
    destruct (add_exisiting_node_as_child_total h2 (length (b_nodes s)) k2 next)
      as (h3 & -> & Hlen3); [lia|lia|]. cbn [mbind res_bind].
    apply finishes_bind; [apply getitem_finishes|intros k3 Hk3].
    destruct (add_child_total h3 (length (b_nodes s)) k3 index END_OF_STRING)
      as (h4 & -> & Hlen4); [lia|]. cbn [mbind res_bind].
    destruct (assign_total (set_bit_vector (leaf_bit k)) (length h3) h4)
      as (h5 & -> & Hlen5); [lia|]. cbn [mbind res_bind].
    destruct (link_total h5 (previous_node s) (length (b_nodes s)))
      as (h6 & -> & Hlen6).
    { intros p Hp. specialize (Hprev p Hp). lia. }
    cbn [mbind res_bind].
    edestruct (follow_total r index) as (s1 & ->); [|done]. simpl. lia.
  - destruct (add_child_total (b_nodes s) (active_node s) key index END_OF_STRING
                Hact) as (h1 & -> & Hlen1).
    cbn [mbind res_bind].
    destruct (assign_total (set_bit_vector (leaf_bit k)) (length (b_nodes s)) h1)
      as (h2 & -> & Hlen2); [lia|]. cbn [mbind res_bind].
    destruct (link_total h2 (previous_node s) (active_node s)) as (h3 & -> & Hlen3).
    { intros p Hp. specialize (Hprev p Hp). lia. }
    cbn [mbind res_bind].
    edestruct (follow_total r index) as (s1 & ->); [|done]. simpl. lia.
Qed.

Lemma reach_lt (h : arena) j d :
  wf_shape h r → (j < length h)%nat → reach h r j d → (d < length h)%nat.
Proof.
  intros Hwf Hj Hd. destruct (wf_reach _ _ Hwf j Hj) as (d' & Hd' & Hlt).
  by rewrite (reach_det _ _ _ _ _ (wf_root _ _ Hwf) Hd Hd').
Qed.

Lemma while_remainder_loop fuel index s s' :
  builder_inv index s → loop_inv s → start_index ≤ index →
  while_remainder input r k fuel index s = Ok s' → loop_inv s'.
Proof.
  revert s. induction fuel as [|fuel IH]; intros s Hinv Hloop Hidx; simpl.
  - destruct (0 <? remainder s); [discriminate|by intros [= <-]].
  - destruct (0 <? remainder s) eqn:Hpos; [|by intros [= <-]].
    intros H. apply bind_Ok in H as ([f s1] & Hext & H).
    pose proof (extend_inv _ _ _ _ _ _ _ _ _ Hinv Hidx ltac:(lia) Hext) as Hinv1.
    destruct (extend_loop _ _ _ _ _ _ _ _ (bi_shape _ _ _ _ _ _ Hinv) Hloop Hext)
      as [Hloop1 _].
    destruct f; [by apply (IH s1)|by injection H as <-].
Qed.

Lemma for_index_start index s :
  builder_inv (index - 1) s → loop_inv s →
  builder_inv index
    (mkBuilder (b_nodes s) (active_node s) (active_edge s) (active_length s)
       (remainder s + 1) None (new_leaves s)) ∧
  loop_inv
    (mkBuilder (b_nodes s) (active_node s) (active_edge s) (active_length s)
       (remainder s + 1) None (new_leaves s)).
Proof.
  intros [Hsh Hal Hrem Hcnt Hgrow Hold Hnew Hinner] [Hok Hact Hprev Hlv Hnd Hsize].
  split.
  - split; simpl; try done; [lia | lia |].
    intros i Hi. destruct (Hnew i Hi) as (Hge & n & Hn & Hb & Hs & He).
    split; [done|]. exists n. unfold open_leaf. split_and!; [done|done|lia|lia|done].
  - split; simpl; done.
Qed.

Lemma for_index_loop fuel index s s' :
  builder_inv (index - 1) s → loop_inv s → start_index ≤ index →
  for_index input r k fuel s index = Ok s' → loop_inv s'.
Proof.
  intros Hinv Hloop Hidx H. destruct (for_index_start index s Hinv Hloop) as [? ?].
  by eapply while_remainder_loop.
Qed.

Lemma main_circle_loop fuel (c : nat) m s s' :
  builder_inv (m - 1) s → loop_inv s → start_index ≤ m →
  main_circle input r k fuel s (seqZ m (Z.of_nat c)) = Ok s' → loop_inv s'.
Proof.
  revert m s. induction c as [|c IH]; intros m s Hinv Hloop Hm.
  - simpl. by intros [= <-].
  - rewrite seqZ_cons by lia. simpl. intros H.
    apply bind_Ok in H as (s1 & Hfor & H).
    pose proof (for_index_inv _ _ _ _ _ _ _ _ _ Hinv Hm Hfor) as Hinv1.
    pose proof (for_index_loop _ _ _ _ Hinv Hloop Hm Hfor) as Hloop1.
    replace (Z.pred (Z.of_nat (S c))) with (Z.of_nat c) in H by lia.
    apply (IH (Z.succ m) s1); [|done|lia|done].
    by replace (Z.succ m - 1) with m by lia.
Qed.

(** The [while] loop finishes: the walks down are bounded by the depth of
    the tree, and every other iteration decrements [remainder]. *)
Lemma while_remainder_finishes fuel index s d :
  builder_inv index s → loop_inv s → start_index ≤ index →
  reach (b_nodes s) r (active_node s) d →
  (Z.to_nat (remainder s)
   * (length (b_nodes s) + 2 * Z.to_nat (remainder s)) ≤ fuel + d)%nat →
  finishes (while_remainder input r k fuel index s).
Proof.
  revert s d. induction fuel as [|fuel IH]; intros s d Hinv Hloop Hidx Hd Hfuel.
  - pose proof (reach_lt _ _ _ (bi_shape _ _ _ _ _ _ Hinv) (li_active _ _ Hloop) Hd).
    simpl. destruct (0 <? remainder s) eqn:Hpos; [nia|done].
  - simpl. destruct (0 <? remainder s) eqn:Hpos; [|done].
    pose proof (bi_shape _ _ _ _ _ _ Hinv) as Hwf.
    pose proof (extend_finishes index s Hwf Hloop) as Hfin.
    destruct (extend input r k index s) as [[f s1]|e] eqn:Hext; [|by destruct e].
    cbn [mbind res_bind].
    pose proof (extend_inv _ _ _ _ _ _ _ _ _ Hinv Hidx ltac:(lia) Hext) as Hinv1.
    destruct (extend_loop _ _ _ _ _ _ _ _ Hwf Hloop Hext) as [Hloop1 Hcase].
    destruct f; [|done].
    pose proof (reach_lt _ _ _ Hwf (li_active _ _ Hloop) Hd) as Hdlt.
    destruct Hcase as [?|[[Hrem Hlen]|(Hrem & Hn & nn & Hnn & Hpar)]]; [done| |].
    + destruct (wf_reach _ _ (bi_shape _ _ _ _ _ _ Hinv1) _ (li_active _ _ Hloop1))
        as (d1 & Hd1 & _).
      apply (IH s1 d1); try done. rewrite Hrem. nia.
    + apply (IH s1 (S d)); try done.
      * rewrite Hn. eapply reach_step; eauto.
      * rewrite Hrem, Hn. lia.
Qed.

Lemma for_index_finishes fuel index s :
  builder_inv (index - 1) s → loop_inv s → start_index ≤ index →
  (Z.to_nat (remainder s + 1)
   * (length (b_nodes s) + 2 * Z.to_nat (remainder s + 1)) ≤ fuel)%nat →
  finishes (for_index input r k fuel s index).
Proof.
  intros Hinv Hloop Hidx Hfuel. unfold for_index.
  destruct (for_index_start index s Hinv Hloop) as [Hinv1 Hloop1].
  destruct (wf_reach _ _ (bi_shape _ _ _ _ _ _ Hinv) _ (li_active _ _ Hloop))
    as (d & Hd & _).
  apply (while_remainder_finishes fuel index _ d); try done. simpl. lia.
Qed.

Lemma main_circle_finishes fuel (c : nat) m s :
  builder_inv (m - 1) s → loop_inv s → start_index ≤ m →
  (Z.to_nat (m + Z.of_nat c - start_index)
   * (length old + 4 * Z.to_nat (m + Z.of_nat c - start_index)) ≤ fuel)%nat →
  finishes (main_circle input r k fuel s (seqZ m (Z.of_nat c))).
Proof.
  revert m s. induction c as [|c IH]; intros m s Hinv Hloop Hm Hfuel; [done|].
  rewrite seqZ_cons by lia. cbn [main_circle].
  replace (Z.pred (Z.of_nat (S c))) with (Z.of_nat c) by lia.
  assert (finishes (for_index input r k fuel s m)) as Hfin.
  { apply for_index_finishes; try done.
    pose proof (bi_count _ _ _ _ _ _ Hinv) as Hcnt.
    pose proof (bi_remainder _ _ _ _ _ _ Hinv) as Hrem.
    pose proof (li_size _ _ Hloop) as Hsize. nia. }
  destruct (for_index input r k fuel s m) as [s1|e] eqn:Hfor; [|by destruct e].
  cbn [mbind res_bind].
  pose proof (for_index_inv _ _ _ _ _ _ _ _ _ Hinv Hm Hfor) as Hinv1.
  pose proof (for_index_loop _ _ _ _ Hinv Hloop Hm Hfor) as Hloop1.
  apply (IH (Z.succ m) s1).
  - by replace (Z.succ m - 1) with m by lia.
  - done.
  - lia.
  - replace (Z.succ m + Z.of_nat c) with (m + Z.of_nat (S c)) by lia. done.
Qed.
End construction_finishes.

(** ** The size of a built tree *)

Lemma initial_builder strs t :
  tree_inv strs t → refs_ok (nodes t) →
  builder_inv (root t) (strings_count t) (len (input_string t)) (nodes t)
    (len (input_string t) - 1) (mkBuilder (nodes t) (root t) 0 0 0 None []) ∧
  loop_inv (length (nodes t)) (mkBuilder (nodes t) (root t) 0 0 0 None []).
Proof.
  intros [Hsh Hin Hcnt Hlv Hinner Hbound] Hok. split.
  - split; simpl; try done; try lia.
    + intros i n1 Hi. exists n1. unfold old_node. split_and!; auto with lia.
    + by intros i ?%elem_of_nil.
    + intros i n Hi Hge. apply lookup_lt_Some in Hi. lia.
  - split; simpl; try done; [|by intros l ?%elem_of_nil|apply NoDup_nil_2|lia].
    destruct (wf_root _ _ Hsh) as (nr & ? & _). eauto using lookup_lt_Some.
Qed.

Lemma built_loop ops t :
  built ops t →
  refs_ok (nodes t) ∧ (length (nodes t) ≤ 1 + 2 * length (leaves t))%nat ∧
  NoDup (leaves t) ∧ root t ∉ leaves t.
Proof.
  induction 1 as [|ops t fuel s c t' Hb (Hok & Hsize & Hnd & Hroot) Happ].
  - split_and!; [|simpl; lia|apply NoDup_nil_2|apply not_elem_of_nil].
    intros [|i] n l; simpl; [|done]. by intros [= <-].
  - destruct (initial_builder _ _ (built_inv _ _ Hb) Hok) as [Hinv0 Hloop0].
    unfold append_string, build in Happ.
    cbn [register root nodes input_string strings_count leaves classes] in Happ.
    apply bind_Ok in Happ as (sf & Hmain & H).
    apply bind_Ok in H as (h' & Hends & H). injection H as <-.
    cbn [root nodes leaves].
    assert (len (input_string t ++ s ++ dollar :: str (strings_count t))
            - len (input_string t)
            = Z.of_nat (length s + S (length (str (strings_count t))))) as Hn.
    { unfold len. rewrite !length_app. simpl. lia. }
    rewrite Hn in Hmain.
    pose proof (main_circle_inv _ _ _ _ _ _ _ _ _ _ Hinv0 ltac:(lia) Hmain) as Hinv1.
    apply (main_circle_loop _ _ _ (len (input_string t)) (nodes t)) in Hmain;
      [|done|done|lia].
    destruct Hmain as [Hok1 _ _ _ Hnd1 Hsize1]. simpl in Hsize1.
    destruct (update_ends_refs _ _ _ _ Hends Hok1) as [Hok2 Hlen2].
    split_and!; [done|rewrite Hlen2, length_app; lia| |].
    + apply NoDup_app. split_and!; [done| |done].
      intros l Hl Hl'. apply (bi_new _ _ _ _ _ _ Hinv1) in Hl' as [Hge _].
      destruct (ti_leaves _ _ (built_inv _ _ Hb) l Hl) as (k' & _ & _ & n & Hl0 & _).
      apply lookup_lt_Some in Hl0. lia.
    + intros [?|Hl']%elem_of_app; [done|].
      apply (bi_new _ _ _ _ _ _ Hinv1) in Hl' as [Hge _].
      destruct (wf_root _ _ (ti_shape _ _ (built_inv _ _ Hb))) as (nr & Hr & _).
      apply lookup_lt_Some in Hr. lia.
Qed.

(** A tree built by appends alone has at most one node more than twice its
    leaves, and so at most twice the length of the buffer and one; the leaves
    of its list are pairwise distinct nodes other than the root, and before
    any extraction every other node has the vector 0. *)
Theorem nodes_of_built ops t :
  built ops t →
  (length (nodes t) ≤ 1 + 2 * length (leaves t))%nat ∧
  (length (nodes t) ≤ 1 + 2 * length (input_string t))%nat ∧
  NoDup (leaves t) ∧ (root t ∉ leaves t) ∧
  ∀ i n, nodes t !! i = Some n → i ∉ leaves t → bit_vector n = 0.
Proof.
  intros Hb. destruct (built_loop _ _ Hb) as (_ & Hsize & Hnd & Hroot).
  pose proof (built_inv _ _ Hb) as [Hsh Hin Hcnt Hlv Hinner Hbound].
  split_and!; [done|lia|done|done|done].
Qed.

Lemma nodes_of_built_witness :
  built scenario_B tree_B ∧
  (length (nodes tree_B) ≤ 1 + 2 * length (leaves tree_B))%nat ∧
  (length (nodes tree_B) ≤ 1 + 2 * length (input_string tree_B))%nat ∧
  NoDup (leaves tree_B) ∧ (root tree_B ∉ leaves tree_B) ∧
  ∀ i n, nodes tree_B !! i = Some n → i ∉ leaves tree_B → bit_vector n = 0.
Proof.
  split; [exact built_B|]. apply (nodes_of_built scenario_B tree_B built_B).
Defined.

(** ** What [append_string] does to the nodes *)

Lemma initial_builder_inv t :
  wf_shape (nodes t) (root t) →
  builder_inv (root t) (strings_count t) (len (input_string t)) (nodes t)
    (len (input_string t) - 1) (mkBuilder (nodes t) (root t) 0 0 0 None []).
Proof.
  intros Hsh. split; simpl; try done; try lia.
  - intros i n1 Hi. exists n1. unfold old_node. split_and!; auto with lia.
  - by intros i ?%elem_of_nil.
  - intros i n Hi Hge. apply lookup_lt_Some in Hi. lia.
Qed.

(** A call of [append_string] that returns, on any tree, keeps the node
    graph a tree.  A node that was there before keeps its vector and its
    end, and its start does not move left.  Of the nodes that the call has
    made, the new leaves carry the bit of the new string alone and end where
    the buffer now ends, and the others have the vector 0. *)
Theorem append_string_frame fuel t s c t' :
  wf_shape (nodes t) (root t) → append_string fuel t s c = Ok t' →
  wf_shape (nodes t') (root t') ∧
  ∃ new_leaves, leaves t' = leaves t ++ new_leaves ∧
    (∀ i n, nodes t !! i = Some n →
       ∃ n', nodes t' !! i = Some n' ∧ bit_vector n' = bit_vector n ∧
         end_ n' = end_ n ∧ start n ≤ start n') ∧
    (∀ i n', nodes t' !! i = Some n' → (length (nodes t) ≤ i)%nat →
       if decide (i ∈ new_leaves)
       then bit_vector n' = Z.shiftl 1 (Z.of_nat (strings_count t)) ∧
            end_ n' = len (input_string t') ∧
            len (input_string t) ≤ start n' < end_ n'
       else bit_vector n' = 0).
Proof.
  intros Hsh H. pose proof (initial_builder_inv t Hsh) as Hinv0.
  unfold append_string, build in H.
  cbn [register root nodes input_string strings_count leaves classes] in H.
  apply bind_Ok in H as (sf & Hmain & H).
  apply bind_Ok in H as (h' & Hends & H). injection H as <-.
  cbn [root nodes input_string leaves].
  set (input' := input_string t ++ s ++ dollar :: str (strings_count t)) in *.
  assert (len input' - len (input_string t)
          = Z.of_nat (length s + S (length (str (strings_count t))))) as Hn.
  { unfold input', len. rewrite !length_app. simpl. lia. }
  rewrite Hn in Hmain.
  apply (main_circle_inv _ _ _ (len (input_string t)) (nodes t)) in Hmain;
    [|done|lia].
  rewrite <-Hn in Hmain.
  replace (len (input_string t) + (len input' - len (input_string t)) - 1)
    with (len input' - 1) in Hmain by lia.
  destruct Hmain as [Hsh' Hal Hrem Hcnt' Hgrow Hold Hnew Hinner'].
  destruct (update_ends_Ok _ _ _ _ Hends) as [Hsame Hflds].
  split; [by eapply same_shape_wf|].
  exists (new_leaves sf). split; [done|]. split.
  - intros i n Hi. destruct (Hold _ _ Hi) as (n1 & Hn1 & Hb & He & Hs & _).
    destruct (Hflds _ _ Hn1) as (n' & Hn' & Hb' & Hs' & He').
    rewrite decide_False in He'.
    2:{ intros Hmem. apply Hnew in Hmem as [Hge _]. apply lookup_lt_Some in Hi. lia. }
    exists n'. split_and!; [done|congruence|congruence|lia].
  - intros i n' Hi Hge.
    destruct (lookup_lt_is_Some_2 (b_nodes sf) i) as [n Hn1].
    { destruct Hsame as [<- _]. eauto using lookup_lt_Some. }
    destruct (Hflds _ _ Hn1) as (n'' & Hn'' & Hb' & Hs' & He').
    assert (n'' = n') by congruence. subst n''.
    destruct (decide (i ∈ new_leaves sf)) as [Hin|Hnot].
    + destruct (Hnew _ Hin) as (_ & n2 & Hn2 & Hb & Hs & He).
      assert (n2 = n) by congruence. subst n2.
      unfold leaf_bit in Hb. split_and!; [congruence|done|lia|lia].
    + rewrite Hb'. by eapply Hinner'.
Qed.

Lemma append_string_frame_witness :
  wf_shape (nodes tree_a) (root tree_a) ∧
  append_string 100 tree_a ("b" : pystr) None = Ok tree_a_b ∧
  wf_shape (nodes tree_a_b) (root tree_a_b) ∧
  ∃ new_leaves, leaves tree_a_b = leaves tree_a ++ new_leaves ∧
    (∀ i n, nodes tree_a !! i = Some n →
       ∃ n', nodes tree_a_b !! i = Some n' ∧ bit_vector n' = bit_vector n ∧
         end_ n' = end_ n ∧ start n ≤ start n') ∧
    (∀ i n', nodes tree_a_b !! i = Some n' → (length (nodes tree_a) ≤ i)%nat →
       if decide (i ∈ new_leaves)
       then bit_vector n' = Z.shiftl 1 (Z.of_nat (strings_count tree_a)) ∧
            end_ n' = len (input_string tree_a_b) ∧
            len (input_string tree_a) ≤ start n' < end_ n'
       else bit_vector n' = 0).
Proof.
  assert (built scenario_a tree_a) as Hb.
  { apply (run_built 100). vm_compute. reflexivity. }
  pose proof (ti_shape _ _ (built_inv _ _ Hb)) as Hsh.
  assert (append_string 100 tree_a ("b" : pystr) None = Ok tree_a_b) as Happ
    by (vm_compute; reflexivity).
  split; [exact Hsh|]. split; [exact Happ|].
  apply (append_string_frame 100 tree_a ("b" : pystr) None tree_a_b Hsh Happ).
Defined.

(** ** The strings that a key reports *)

(** In an arena with closed vectors every identifier that
    [find_leaves_in_subtree] returns for a node is a bit of the node's
    vector. *)
Lemma find_leaves_in_subtree_bits fuel t r j vals :
  wf_shape (nodes t) r → closed (nodes t) →
  find_leaves_in_subtree fuel t j = Ok vals →
  ∀ p, p ∈ vals →
    ∃ nj, nodes t !! j = Some nj ∧
      Z.testbit (bit_vector nj) (Z.of_nat p.1) = true.
Proof.
  intros Hwf Hcl. revert j vals.
  induction fuel as [|fuel IH]; intros j vals; [done|].
  cbn [find_leaves_in_subtree]. intros H.
  apply bind_Ok in H as (nj & Hj & H). apply get_some_Ok in Hj.
  destruct (0 <=? str_find dollar _).
  - injection H as <-. intros [i x] (i' & Heq & Hi)%list_elem_of_fmap.
    injection Heq as -> _. exists nj. split; [done|].
    by apply _extract_identifiers_spec.
  - assert (∀ key c vals', (key, c) ∈ edges nj →
              find_leaves_in_subtree fuel t c = Ok vals' →
              ∀ p, p ∈ vals' → Z.testbit (bit_vector nj) (Z.of_nat p.1) = true) as Hch.
    { intros key c vals' Hin Hc p Hp.
      destruct (IH _ _ Hc p Hp) as (nc & Hnc & Hbit).
      destruct (wf_edge_parent _ _ Hwf _ _ _ _ Hj Hin) as (nc' & Hnc' & Hpc).
      assert (nc' = nc) by congruence. subst nc'.
      by apply (Hcl _ _ _ _ Hnc Hpc Hj). }
    intros p Hp. exists nj. split; [done|]. revert H Hch p Hp.
    assert (∀ acc : list (nat * Z),
              (∀ p, p ∈ acc → Z.testbit (bit_vector nj) (Z.of_nat p.1) = true) →
              ∀ es : dict,
              (fix children (es : dict) (vals : list (nat * Z)) {struct es} :=
                 match es with
                 | [] => Ok vals
                 | (_, child) :: es =>
                     new_vals ← find_leaves_in_subtree fuel t child;
                     children es
                       (vals ++ ((λ tple : nat * Z,
                                    (tple.1, tple.2 + end_ nj - start nj)) <$> new_vals))
                 end) es acc = Ok vals →
              (∀ key c vals', (key, c) ∈ es →
                 find_leaves_in_subtree fuel t c = Ok vals' →
                 ∀ p, p ∈ vals' → Z.testbit (bit_vector nj) (Z.of_nat p.1) = true) →
              ∀ p, p ∈ vals → Z.testbit (bit_vector nj) (Z.of_nat p.1) = true) as Hloop.
    { intros acc Hacc es. revert acc Hacc.
      induction es as [|[key c] es IHes]; intros acc Hacc; [by intros [= <-]|].
      intros H Hes. apply bind_Ok in H as (new_vals & Hnew & H).
      eapply IHes; [|exact H|].
      - intros p [Hp|Hp]%elem_of_app; [by apply Hacc|].
        apply list_elem_of_fmap in Hp as (q & -> & Hq). simpl.
        eapply (Hes key c); [left|done|done].
      - intros key' c' vals' Hin. apply (Hes key' c'). by right. }
    apply Hloop. by intros p ?%elem_of_nil.
Qed.

Lemma materialize_entry (t : SuffixTree) (m : Z) (ord : list nat) (S : gset pystr)
    (R r : gmap pystr (list (list Z))) key pos :
  materialize t m ord S R = Ok r → r !! key = Some pos →
  R !! key = Some pos ∨ ∃ ca, ca ∈ ord ∧ candidate t m ca = Ok (Some (key, pos)).
Proof.
  revert S R. induction ord as [|ca ord IH]; intros S R; simpl.
  - intros [= <-]. by left.
  - intros H Hkey. apply bind_Ok in H as (cs & Hcs & H).
    destruct (_ && _) eqn:Hc.
    + apply bind_Ok in H as (vals & Hvals & H). apply bind_Ok in H as (n & Hn & H).
      apply bind_Ok in H as (pos' & Hpos' & H).
      apply andb_true_iff in Hc as [Hlen _].
      destruct (IH _ _ H Hkey) as [HR|(ca' & Hin & Hca')].
      * apply lookup_insert_Some in HR as [[<- <-]|[_ HR]]; [|by left].
        right. exists ca. split; [left|]. unfold candidate.
        rewrite Hcs. simpl. rewrite Hlen, Hvals. simpl. rewrite Hn. simpl.
        by rewrite Hpos'.
      * right. exists ca'. split; [by right|done].
    + destruct (IH _ _ H Hkey) as [HR|(ca' & Hin & Hca')]; [by left|].
      right. exists ca'. split; [by right|done].
Qed.

Lemma offsets_for_nonempty sizes nsl ml positions i :
  offsets_for sizes nsl ml positions i ≠ [] → ∃ p, p ∈ positions ∧ p.1 = i.
Proof.
  induction positions as [|[j fl] ps IH]; [done|].
  rewrite offsets_for_cons. destruct (decide (j = i)) as [->|Hne].
  - intros _. exists (i, fl). split; [left|done].
  - intros (p & Hp & <-)%IH. exists p. split; [by right|done].
Qed.

(** On a tree built by appends alone, a first call reports offsets for a
    string under a key only if a leaf of that string lies below the node
    whose cleaned label the key is. *)
Theorem find_common_substrings_strings ops t set_order m r t' :
  built ops t → find_common_substrings set_order t m = Ok (r, t') →
  ∀ key positions, r !! key = Some positions →
    ∃ ca cs, path_label (length (nodes t')) t' ca [] = Ok cs ∧
      key = strip_unique_ending cs ∧
      ∀ k offsets, positions !! k = Some offsets → offsets ≠ [] →
        ∃ l, leaf_of ops.*1 t l k ∧ in_subtree (nodes t) ca l.
Proof.
  intros Hbuilt (lca & Hp & Hm)%find_common_substrings_Ok key positions Hkey.
  pose proof (built_inv _ _ Hbuilt) as [Hsh Hin Hcnt Hlv Hinner Hbound].
  pose proof (propagation_Ok _ _ _ Hp) as (Hr & Hi & Hc & Hl & Hcl & lca0 & Hpp).
  pose proof (propagate_frame _ _ _ _ _ _ Hpp) as Hbv.
  pose proof (propagate_inv _ (nodes t) _ _ _ _ _ (prop_inv_start _ _ Hinner) Hpp)
    as Hinv.
  assert (wf_shape (nodes t') (root t')) as Hwf.
  { rewrite Hr. eapply same_shape_wf; [by apply bv_only_same_shape|done]. }
  assert (closed (nodes t')) as Hclosed.
  { intros j nj p np Hj Hpj Hnp.
    destruct (pi_closed _ _ _ _ Hinv _ _ _ _ Hj Hpj Hnp) as [?%elem_of_nil|[?|?]]; done. }
  destruct (materialize_entry _ _ _ _ _ _ _ _ Hm Hkey) as [HR|(ca & _ & Hca)];
    [by rewrite lookup_empty in HR|].
  unfold candidate in Hca. apply bind_Ok in Hca as (cs & Hcs & Hca).
  destruct (m <=? _); [|done].
  apply bind_Ok in Hca as (vals & Hvals & Hca).
  apply bind_Ok in Hca as (nca & Hnca & Hca).
  apply bind_Ok in Hca as (pos & Hpos & Hca). injection Hca as <- <-.
  exists ca, cs. split; [done|]. split; [done|].
  intros k offsets Hk Hne.
  unfold _format_positions in Hpos. rewrite format_loop_spec in Hpos.
  destruct (decide _); [|done]. injection Hpos as <-.
  rewrite list_lookup_imap in Hk.
  destruct (replicate (strings_count t') [] !! k) as [l0|] eqn:Hrep; [|done].
  apply lookup_replicate in Hrep as [-> _]. injection Hk as <-.
  apply offsets_for_nonempty in Hne as ([k' fl] & Hin' & Hk'). simpl in Hk'. subst k'.
  destruct (find_leaves_in_subtree_bits _ _ _ _ _ Hwf Hclosed Hvals _ Hin')
    as (nj & Hnj & Hbit). simpl in Hbit.
  apply (propagation_bits _ _ _ _ _ _ _ Hbuilt Hp Hnj) in Hbit
    as (l & k' & Heq%(inj Z.of_nat) & Hleaf & Hsub).
  subst k'. eauto.
Qed.

Lemma find_common_substrings_strings_witness :
  built scenario_B tree_B ∧
  find_common_substrings elements tree_B 2 = Ok (result_B, tree_B1) ∧
  ∀ key positions, result_B !! key = Some positions →
    ∃ ca cs, path_label (length (nodes tree_B1)) tree_B1 ca [] = Ok cs ∧
      key = strip_unique_ending cs ∧
      ∀ k offsets, positions !! k = Some offsets → offsets ≠ [] →
        ∃ l, leaf_of scenario_B.*1 tree_B l k ∧ in_subtree (nodes tree_B) ca l.
Proof.
  assert (find_common_substrings elements tree_B 2 = Ok (result_B, tree_B1)) as Hf
    by (vm_compute; reflexivity).
  split; [exact built_B|]. split; [exact Hf|].
  apply (find_common_substrings_strings scenario_B tree_B elements 2 result_B tree_B1
           built_B Hf).
Defined.

(** ** Every tree that the methods can leave *)

Lemma initial_loop_inv t :
  wf_shape (nodes t) (root t) → refs_ok (nodes t) →
  loop_inv (length (nodes t)) (mkBuilder (nodes t) (root t) 0 0 0 None []).
Proof.
  intros Hsh Hok.
  split; simpl; try done; [|by intros l ?%elem_of_nil|apply NoDup_nil_2|lia].
  destruct (wf_root _ _ Hsh) as (nr & ? & _). eauto using lookup_lt_Some.
Qed.

(** A call of [append_string] that returns, taken apart: the state in which
    the main loop ended, and the update of the ends. *)
Lemma append_string_run fuel t s c t' :
  wf_shape (nodes t) (root t) → refs_ok (nodes t) →
  append_string fuel t s c = Ok t' →
  ∃ sf,
    builder_inv (root t) (strings_count t) (len (input_string t)) (nodes t)
      (len (input_string t') - 1) sf ∧
    loop_inv (length (nodes t)) sf ∧
    update_ends (b_nodes sf) (new_leaves sf) (len (input_string t')) = Ok (nodes t') ∧
    leaves t' = leaves t ++ new_leaves sf ∧ root t' = root t ∧
    strings_count t' = S (strings_count t) ∧
    input_string t' = input_string t ++ s ++ dollar :: str (strings_count t).
Proof.
  intros Hsh Hok H. pose proof (initial_builder_inv t Hsh) as Hinv0.
  pose proof (initial_loop_inv t Hsh Hok) as Hloop0.
  unfold append_string, build in H.
  cbn [register root nodes input_string strings_count leaves classes] in H.
  apply bind_Ok in H as (sf & Hmain & H).
  apply bind_Ok in H as (h' & Hends & H). injection H as <-.
  cbn [root nodes input_string leaves strings_count].
  set (input' := input_string t ++ s ++ dollar :: str (strings_count t)) in *.
  assert (len input' - len (input_string t)
          = Z.of_nat (length s + S (length (str (strings_count t))))) as Hn.
  { unfold input', len. rewrite !length_app. simpl. lia. }
  rewrite Hn in Hmain. exists sf.
  pose proof (main_circle_inv _ _ _ _ _ _ _ _ _ _ Hinv0 ltac:(lia) Hmain) as Hinv1.
  pose proof (main_circle_loop _ _ _ _ _ _ _ _ _ _ Hinv0 Hloop0 ltac:(lia) Hmain)
    as Hloop1.
  rewrite <-Hn in Hinv1.
  replace (len (input_string t) + (len input' - len (input_string t)) - 1)
    with (len input' - 1) in Hinv1 by lia.
  split_and!; [done|done|done|done|done|lia|done].
Qed.

Lemma walk_up_below (n : Z) fuel cls h lca node prev h' lca' :
  walk_up fuel cls h lca node prev = Ok (h', lca') →
  (∀ b, Z.testbit prev b = true → b < n) →
  (∀ i ni b, h !! i = Some ni → Z.testbit (bit_vector ni) b = true → b < n) →
  ∀ i ni b, h' !! i = Some ni → Z.testbit (bit_vector ni) b = true → b < n.
Proof.
  revert h lca node prev. induction fuel as [|fuel IH]; intros h lca [r|] prev; simpl;
    try discriminate; try (by intros [= <- <-]).
  intros H Hprev Hh. apply bind_Ok in H as (nr & Hnr & H). apply get_some_Ok in Hnr.
  destruct (_ && _); [by injection H as <- <-|].
  apply bind_Ok in H as (h1 & Hset & H). apply assign_Ok in Hset as (n1 & Hn1 & ->).
  assert (n1 = nr) by congruence. subst n1.
  assert (∀ b, Z.testbit (Z.lor (bit_vector nr) prev) b = true → b < n) as Hbv.
  { intros b. rewrite Z.lor_spec. intros [?|?]%orb_true_iff; eauto. }
  eapply IH; [exact H|exact Hbv|].
  intros i ni b. rewrite (lookup_upd _ _ nr) by done.
  case_decide; [intros [= <-]; apply Hbv|apply Hh].
Qed.

Lemma propagate_below (n : Z) cls h lca ls h' lca' :
  propagate cls h lca ls = Ok (h', lca') →
  (∀ i ni b, h !! i = Some ni → Z.testbit (bit_vector ni) b = true → b < n) →
  ∀ i ni b, h' !! i = Some ni → Z.testbit (bit_vector ni) b = true → b < n.
Proof.
  revert h lca. induction ls as [|l ls IH]; intros h lca; simpl.
  - by intros [= <- <-].
  - intros H Hh. apply bind_Ok in H as ([h1 lca1] & Hw & H).
    eapply IH; [exact H|]. eapply walk_up_below; [exact Hw| |exact Hh].
    intros b. by rewrite Z.bits_0.
Qed.

Lemma bv_only_refs h h' : bv_only h h' → refs_ok h → refs_ok h'.
Proof.
  intros [Hlen Hbv] Hok i n' l Hi Hl.
  destruct (lookup_lt_is_Some_2 h i) as [n Hn].
  { rewrite <-Hlen. eauto using lookup_lt_Some. }
  destruct (Hbv _ _ Hn) as (n'' & Hn'' & E). assert (n'' = n') by congruence. subst n''.
  rewrite E in Hl. simpl in Hl. rewrite Hlen. eauto.
Qed.

Lemma made_inv_new : made_inv new_tree.
Proof.
  split; simpl.
  - apply (ti_shape _ _ tree_inv_new).
  - intros [|i] n l; simpl; [|done]. by intros [= <-].
  - by intros l ?%elem_of_nil.
  - apply NoDup_nil_2.
  - intros [|i] n b; simpl; [|done]. intros [= <-]. simpl. by rewrite Z.bits_0.
  - done.
Qed.

Lemma made_inv_append fuel t s c t' :
  made_inv t → append_string fuel t s c = Ok t' → made_inv t'.
Proof.
  intros [Hsh Hok Hlv Hnd Hbits Hdol] H.
  destruct (append_string_run _ _ _ _ _ Hsh Hok H)
    as (sf & Hinv & Hloop & Hends & Hleaves & Hroot & Hcnt & Hinput).
  destruct Hinv as [Hsh' Hal Hrem Hcnt' Hgrow Hold Hnew Hinner'].
  destruct Hloop as [Hok1 _ _ Hlv1 Hnd1 _].
  destruct (update_ends_Ok _ _ _ _ Hends) as [Hsame Hflds].
  destruct (update_ends_refs _ _ _ _ Hends Hok1) as [Hok2 Hlen2].
  split.
  - rewrite Hroot. by eapply same_shape_wf.
  - done.
  - rewrite Hleaves, Hlen2. intros l [Hl|Hl]%elem_of_app; [|by apply Hlv1].
    specialize (Hlv l Hl). lia.
  - rewrite Hleaves. apply NoDup_app. split_and!; [done| |done].
    intros l Hl Hl'. apply Hnew in Hl' as [Hge _]. specialize (Hlv l Hl). lia.
  - intros i n' b Hi Hb. rewrite Hcnt.
    destruct (lookup_lt_is_Some_2 (b_nodes sf) i) as [n Hn1].
    { rewrite <-Hlen2. eauto using lookup_lt_Some. }
    destruct (Hflds _ _ Hn1) as (n'' & Hn'' & Hb' & _).
    assert (n'' = n') by congruence. subst n''. rewrite Hb' in Hb.
    destruct (decide (i < length (nodes t))%nat) as [Hlt|Hge].
    + destruct (lookup_lt_is_Some_2 (nodes t) i) as [n0 Hn0]; [done|].
      destruct (Hold _ _ Hn0) as (n2 & Hn2 & Hbv & _).
      assert (n2 = n) by congruence. subst n2. rewrite Hbv in Hb.
      specialize (Hbits _ _ _ Hn0 Hb). lia.
    + destruct (decide (i ∈ new_leaves sf)) as [Hin|Hnot].
      * destruct (Hnew _ Hin) as (_ & n2 & Hn2 & Hbv & _).
        assert (n2 = n) by congruence. subst n2. rewrite Hbv in Hb.
        unfold leaf_bit in Hb. apply testbit_shiftl_1 in Hb. lia.
      * rewrite (Hinner' i n), Z.bits_0 in Hb; [done|done|lia|done].
  - rewrite Hinput, Hcnt, !filter_app, filter_cons, decide_True by done.
    rewrite !length_app. simpl. lia.
Qed.

Lemma made_inv_find set_order t m r t' :
  made_inv t → find_common_substrings set_order t m = Ok (r, t') → made_inv t'.
Proof.
  intros [Hsh Hok Hlv Hnd Hbits Hdol] (lca & Hp & _)%find_common_substrings_Ok.
  pose proof (propagation_Ok _ _ _ Hp) as (Hr & Hi & Hc & Hl & Hcl & lca0 & Hpp).
  pose proof (propagate_frame _ _ _ _ _ _ Hpp) as Hbv.
  split; rewrite ?Hr, ?Hi, ?Hc, ?Hl.
  - eapply same_shape_wf; [by apply bv_only_same_shape|done].
  - by eapply bv_only_refs.
  - destruct Hbv as [-> _]. done.
  - done.
  - eapply propagate_below; [exact Hpp|]. intros i ni b. apply Hbits.
  - done.
Qed.

Lemma made_made_inv t : made t → made_inv t.
Proof.
  induction 1 as [|t fuel s c t' _ IH Happ|t o m r t' _ IH Hf].
  - apply made_inv_new.
  - by eapply made_inv_append.
  - by eapply made_inv_find.
Qed.

Lemma built_made ops t : built ops t → made t.
Proof. induction 1; [constructor|by econstructor]. Qed.

(** Every identifier that [find_leaves_in_subtree] returns is a bit of the
    vector of some node. *)
Lemma find_leaves_in_subtree_known fuel t j vals :
  find_leaves_in_subtree fuel t j = Ok vals →
  ∀ p, p ∈ vals → known_bit t p.1.
Proof.
  revert j vals. induction fuel as [|fuel IH]; intros j vals; [done|].
  cbn [find_leaves_in_subtree]. intros H.
  apply bind_Ok in H as (nj & Hj & H). apply get_some_Ok in Hj.
  destruct (0 <=? str_find dollar _).
  - injection H as <-. intros [i x] (i' & Heq & Hi)%list_elem_of_fmap.
    injection Heq as -> _. exists j, nj. split; [done|].
    by apply _extract_identifiers_spec.
  - revert H.
    assert (∀ (es : dict) (acc : list (nat * Z)),
              (∀ p, p ∈ acc → known_bit t p.1) →
              (fix children (es : dict) (vals : list (nat * Z)) {struct es} :=
                 match es with
                 | [] => Ok vals
                 | (_, child) :: es =>
                     new_vals ← find_leaves_in_subtree fuel t child;
                     children es
                       (vals ++ ((λ tple : nat * Z,
                                    (tple.1, tple.2 + end_ nj - start nj)) <$> new_vals))
                 end) es acc = Ok vals →
              ∀ p, p ∈ vals → known_bit t p.1) as Hloop.
    { induction es as [|[key c] es IHes]; intros acc Hacc; [by intros [= <-]|].
      intros H. apply bind_Ok in H as (new_vals & Hnew & H).
      eapply IHes; [|exact H].
      intros p [Hp|Hp]%elem_of_app; [by apply Hacc|].
      apply list_elem_of_fmap in Hp as (q & -> & Hq). simpl.
      by eapply IH. }
    apply Hloop. by intros p ?%elem_of_nil.
Qed.

(** Nothing but the depth of the recursion can stop [find_common_substrings]
    on a tree that the two methods have left.  The loop of lines 227-241
    returns: the walks of the leaves end at the root.  For every candidate
    it collects, the loop of lines 252-255 returns a label;
    [find_leaves_in_subtree] returns when the interpreter allows as many
    nested calls as the tree has nodes; and whenever it returns, for
    whatever depth, [_format_positions] returns on what it gave: no index
    into [sizes] or [return_value] is out of range. *)
Theorem find_common_substrings_no_index_error t :
  made t →
  ∃ t1 lca, propagation t = Ok (t1, lca) ∧
    ∀ ca, ca ∈ lca →
      ∃ nca cs, nodes t1 !! ca = Some nca ∧
        path_label (length (nodes t1)) t1 ca [] = Ok cs ∧
        (∀ fuel, (length (nodes t1) ≤ fuel)%nat →
           ∃ positions, find_leaves_in_subtree fuel t1 ca = Ok positions) ∧
        ∀ fuel positions nsl ml,
          find_leaves_in_subtree fuel t1 ca = Ok positions →
          ∃ v, _format_positions t1 positions nsl ml (get_string_lengths t1)
               = Ok v.
Proof.
  intros Hmade. pose proof (made_made_inv _ Hmade) as Hinv.
  destruct (propagate_returns (classes t) (nodes t) (root t) ∅ (leaves t)
              (mi_shape _ Hinv) (mi_leaves _ Hinv)) as (h' & lca & Hp & Hlca).
  set (t1 := mkTree (root t) h' (input_string t) (strings_count t) (leaves t)
               (classes t)).
  assert (propagation t = Ok (t1, lca)) as Hprop.
  { unfold propagation. by rewrite Hp. }
  assert (made_inv t1) as [Hwf Hok Hlv Hnd Hbits Hdol].
  { apply (made_inv_find (λ _, []) t 0 ∅ t1 Hinv).
    unfold find_common_substrings. by rewrite Hprop. }
  exists t1, lca. split; [done|]. intros ca Hca.
  assert (ca < length (nodes t1))%nat as Hlt.
  { destruct (Hlca ca Hca) as [?%not_elem_of_empty|Hlt]; [done|]. simpl.
    apply propagate_frame in Hp as [-> _]. done. }
  destruct (lookup_lt_is_Some_2 _ _ Hlt) as [nca Hnca].
  destruct (wf_reach _ _ Hwf ca Hlt) as (d & Hd & Hdlt).
  destruct (path_label_returns (length (nodes t1)) t1 (root t1) ca d []
              (wf_root _ _ Hwf) Hd Hdlt) as (cs & Hcs).
  exists nca, cs. split_and!; [done|done| |].
  - intros fuel Hfuel.
    destruct (find_leaves_in_subtree_returns fuel t1 (root t1) ca d Hwf Hd)
      as (vals & Hvals & _); [lia|]. eauto.
  - intros fuel positions nsl ml Hpos. unfold _format_positions.
    apply format_loop_returns. intros p Hpin.
    destruct (find_leaves_in_subtree_known _ _ _ _ Hpos p Hpin) as (j & n & Hj & Hbit).
    specialize (Hbits _ _ _ Hj Hbit).
    unfold get_string_lengths. rewrite !length_fmap, str_split_length, length_replicate.
    lia.
Qed.

Lemma find_common_substrings_no_index_error_witness :
  made tree_B ∧
  ∃ t1 lca, propagation tree_B = Ok (t1, lca) ∧
    ∀ ca, ca ∈ lca →
      ∃ nca cs, nodes t1 !! ca = Some nca ∧
        path_label (length (nodes t1)) t1 ca [] = Ok cs ∧
        (∀ fuel, (length (nodes t1) ≤ fuel)%nat →
           ∃ positions, find_leaves_in_subtree fuel t1 ca = Ok positions) ∧
        ∀ fuel positions nsl ml,
          find_leaves_in_subtree fuel t1 ca = Ok positions →
          ∃ v, _format_positions t1 positions nsl ml (get_string_lengths t1)
               = Ok v.
Proof.
  assert (made tree_B) as Hmade by exact (built_made _ _ built_B).
  split; [exact Hmade|].
  apply (find_common_substrings_no_index_error tree_B Hmade).
Defined.

(** With the fuel [enough_fuel t s] or more, a call of [append_string] on a
    tree that the two methods have left does not run out of fuel: the loops
    of the method end, and the call returns or raises [IndexError]. *)
Theorem append_string_finishes t s c fuel :
  made t → (enough_fuel t s ≤ fuel)%nat →
  (∃ t', append_string fuel t s c = Ok t')
  ∨ append_string fuel t s c = Raise IndexError.
Proof.
  intros Hmade Hfuel. pose proof (made_made_inv _ Hmade) as [Hsh Hok _ _ _ _].
  pose proof (initial_builder_inv t Hsh) as Hinv0.
  pose proof (initial_loop_inv t Hsh Hok) as Hloop0.
  unfold append_string, build.
  cbn [register root nodes input_string strings_count leaves classes].
  assert (len (input_string t ++ s ++ dollar :: str (strings_count t))
          - len (input_string t)
          = Z.of_nat (length s + 1 + length (str (strings_count t)))) as Hn.
  { unfold len. rewrite !length_app. simpl. lia. }
  rewrite Hn.
  set (s0 := mkBuilder (nodes t) (root t) 0 0 0 None []) in *.
  pose proof (main_circle_finishes
                (input_string t ++ s ++ dollar :: str (strings_count t))
                (root t) (strings_count t) (len (input_string t)) (nodes t) fuel
                (length s + 1 + length (str (strings_count t)))
                (len (input_string t)) s0 Hinv0 Hloop0 ltac:(lia)) as Hfin.
  destruct (main_circle _ _ _ fuel s0 _) as [sf|e] eqn:Hmain.
  - cbn [mbind res_bind].
    apply (main_circle_loop _ _ _ (len (input_string t)) (nodes t)) in Hmain;
      [|done|done|lia].
    destruct (update_ends_total (b_nodes sf) (new_leaves sf)
                (len (input_string t ++ s ++ dollar :: str (strings_count t)))
                (li_leaves _ _ Hmain)) as (h' & ->).
    left. simpl. eauto.
  - right. simpl. destruct e; try done; exfalso; apply Hfin;
      unfold enough_fuel in Hfuel; lia.
Qed.

Lemma append_string_finishes_witness :
  made tree_B1 ∧ (enough_fuel tree_B1 ("b" : pystr) ≤ 200)%nat ∧
  ((∃ t', append_string 200 tree_B1 ("b" : pystr) None = Ok t')
   ∨ append_string 200 tree_B1 ("b" : pystr) None = Raise IndexError).
Proof.
  assert (made tree_B1) as Hmade.
  { apply (made_find tree_B elements 2 result_B tree_B1);
      [exact (built_made _ _ built_B)|vm_compute; reflexivity]. }
  assert (enough_fuel tree_B1 ("b" : pystr) ≤ 200)%nat as Hfuel
    by (vm_compute; lia).
  split; [exact Hmade|]. split; [exact Hfuel|].
  apply (append_string_finishes tree_B1 ("b" : pystr) None 200 Hmade Hfuel).
Defined.

(** ** [to_graphviz] *)

Lemma deref_Some (h : arena) i n : h !! i = Some n → deref h i = Ok n.
Proof. unfold deref. by intros ->. Qed.

Lemma reach_below (h : arena) j c nc l k :
  h !! c = Some nc → parent nc = Some j → reach h c l k → reach h j l (S k).
Proof.
  intros Hc Hp. induction 1 as [|l nl p k Hl Hpl _ IH].
  - eapply reach_step; [exact Hc|exact Hp|constructor].
  - eapply reach_step; [exact Hl|exact Hpl|exact IH].
Qed.

Lemma reach_first (h : arena) j l k :
  reach h j l (S k) →
  ∃ c nc, h !! c = Some nc ∧ parent nc = Some j ∧ reach h c l k.
Proof.
  revert l. induction k as [|k IH]; intros l Hreach.
  - inversion Hreach as [|? nl p ? Hl Hp Hreach']; subst.
    inversion Hreach'; subst. exists l, nl. split_and!; [done|done|constructor].
  - inversion Hreach as [|? nl p ? Hl Hp Hreach']; subst.
    destruct (IH _ Hreach') as (c & nc & Hc & Hpc & Hcp).
    exists c, nc. split_and!; [done|done|]. by eapply reach_step.
Qed.

(** The statement of a node, its dashed arrow and its children. *)
Lemma graphviz_node_unfold fuel identifier t j nj output :
  nodes t !! j = Some nj → refs_ok (nodes t) →
  ∃ b1,
    graphviz_node (S fuel) identifier t j output
    = (output ←
         (fix children (es : dict) (output : pystr) {struct es} :=
            match es with
            | [] => Ok output
            | (_, child) :: es =>
                c ← deref (nodes t) child;
                let label := slice (input_string t) (start c) (end_ c) in
                output ← graphviz_node fuel identifier t child
                           (output ++ graphviz_edge identifier j child label);
                children es output
            end) (edges nj)
           ((output ++ graphviz_statement identifier t j nj) ++ b1);
       Ok (if bool_decide (j = root t) then output ++ ["}"%char] else output)).
Proof.
  intros Hj Hok. cbn [graphviz_node]. rewrite (deref_Some _ _ _ Hj).
  cbn [mbind res_bind].
  set (out0 := output ++ graphviz_statement identifier t j nj).
  destruct (suffix_link nj) as [l|] eqn:Hl.
  - destruct (deref_total (nodes t) l) as (nl & -> & _); [by eapply Hok|].
    cbn [mbind res_bind]. eexists. reflexivity.
  - exists []. cbn [mbind res_bind]. by rewrite app_nil_r.
Qed.

(** With as many nested calls as the subtree is deep, the call returns. *)
Lemma graphviz_node_deep_enough fuel identifier t j nj output :
  wf_shape (nodes t) (root t) → refs_ok (nodes t) →
  nodes t !! j = Some nj →
  (∀ l k, reach (nodes t) j l k → (k < fuel)%nat) →
  ∃ body,
    graphviz_node fuel identifier t j output
    = Ok (output ++ graphviz_statement identifier t j nj ++ body
          ++ (if bool_decide (j = root t) then ["}"%char] else [])).
Proof.
  intros Hwf Hok. revert j nj output.
  induction fuel as [|fuel IH]; intros j nj output Hj Hdeep.
  { specialize (Hdeep j 0%nat (reach_root _ _)). lia. }
  destruct (graphviz_node_unfold fuel identifier t j nj output Hj Hok) as (b1 & ->).
  set (out0 := output ++ graphviz_statement identifier t j nj).
  assert (∀ (es : dict) (out : pystr),
            (∀ key c, (key, c) ∈ es → (key, c) ∈ edges nj) →
            ∃ b2,
              (fix children (es : dict) (output : pystr) {struct es} :=
                 match es with
                 | [] => Ok output
                 | (_, child) :: es =>
                     c ← deref (nodes t) child;
                     let label := slice (input_string t) (start c) (end_ c) in
                     output ← graphviz_node fuel identifier t child
                                (output ++ graphviz_edge identifier j child label);
                     children es output
                 end) es out = Ok (out ++ b2)) as Hloop.
  { induction es as [|[key c] es IHes]; intros out Hes.
    - exists []. by rewrite app_nil_r.
    - destruct (wf_edge_parent _ _ Hwf _ _ _ _ Hj (Hes key c ltac:(left)))
        as (nc & Hc & Hpc).
      rewrite (deref_Some _ _ _ Hc). cbn [mbind res_bind].
      destruct (IH c nc
                  (out ++ graphviz_edge identifier j c
                            (slice (input_string t) (start nc) (end_ nc))) Hc)
        as (body & ->).
      { intros l k Hreach.
        pose proof (Hdeep l (S k) (reach_below _ _ _ _ _ _ Hc Hpc Hreach)). lia. }
      destruct (IHes (((out ++ graphviz_edge identifier j c
                                 (slice (input_string t) (start nc) (end_ nc)))
                        ++ graphviz_statement identifier t c nc ++ body
                        ++ (if bool_decide (c = root t) then ["}"%char] else []))))
        as (b2 & Hb2); [intros key' c' Hin; apply Hes; by right|].
      eexists. etrans; [exact Hb2|]. by rewrite <-!app_assoc. }
  destruct (Hloop (edges nj) (out0 ++ b1)) as (b2 & Hb2); [done|].
  exists (b1 ++ b2).
  etrans; [exact (f_equal (λ m, m ≫= λ out, Ok (if bool_decide (j = root t)
                                                 then out ++ ["}"%char] else out))
                    Hb2)|].
  cbn [mbind res_bind]. unfold out0.
  case_bool_decide; by rewrite <-?app_assoc, ?app_nil_r.
Qed.

(** The nested calls are the only thing that can run out. *)
Lemma graphviz_node_outcome fuel identifier t j output :
  wf_shape (nodes t) (root t) → refs_ok (nodes t) →
  (j < length (nodes t))%nat →
  (∃ text, graphviz_node fuel identifier t j output = Ok text)
  ∨ graphviz_node fuel identifier t j output = Raise OutOfFuel.
Proof.
  intros Hwf Hok. revert j output.
  induction fuel as [|fuel IH]; intros j output Hlt; [by right|].
  destruct (lookup_lt_is_Some_2 _ _ Hlt) as [nj Hj].
  destruct (graphviz_node_unfold fuel identifier t j nj output Hj Hok) as (b1 & ->).
  set (out0 := (output ++ graphviz_statement identifier t j nj) ++ b1).
  assert (∀ (es : dict) (out : pystr),
            (∀ key c, (key, c) ∈ es → (key, c) ∈ edges nj) →
            let r :=
              (fix children (es : dict) (output : pystr) {struct es} :=
                 match es with
                 | [] => Ok output
                 | (_, child) :: es =>
                     c ← deref (nodes t) child;
                     let label := slice (input_string t) (start c) (end_ c) in
                     output ← graphviz_node fuel identifier t child
                                (output ++ graphviz_edge identifier j child label);
                     children es output
                 end) es out in
            (∃ text, r = Ok text) ∨ r = Raise OutOfFuel) as Hloop.
  { induction es as [|[key c] es IHes]; intros out Hes; [left; by eexists|].
    destruct (wf_edge_parent _ _ Hwf _ _ _ _ Hj (Hes key c ltac:(left)))
      as (nc & Hc & Hpc).
    cbn zeta. rewrite (deref_Some _ _ _ Hc). cbn [mbind res_bind].
    destruct (IH c (out ++ graphviz_edge identifier j c
                            (slice (input_string t) (start nc) (end_ nc))))
      as [(text & ->)| ->]; [by eapply lookup_lt_Some| |by right].
    cbn [mbind res_bind]. apply IHes. intros key' c' Hin. apply Hes. by right. }
  destruct (Hloop (edges nj) out0) as [(text & Ht)|Ht]; [done| |].
  - left. eexists.
    etrans; [exact (f_equal (λ m, m ≫= λ out, Ok (if bool_decide (j = root t)
                                                   then out ++ ["}"%char] else out))
                      Ht)|]. reflexivity.
  - right.
    etrans; [exact (f_equal (λ m, m ≫= λ out, Ok (if bool_decide (j = root t)
                                                   then out ++ ["}"%char] else out))
                      Ht)|]. reflexivity.
Qed.

(** A call that returns has gone no deeper than its nested calls allow. *)
Lemma graphviz_node_depth fuel identifier t j output text :
  wf_shape (nodes t) (root t) → refs_ok (nodes t) →
  graphviz_node fuel identifier t j output = Ok text →
  ∀ l k, reach (nodes t) j l k → (k < fuel)%nat.
Proof.
  intros Hwf Hok. revert j output text.
  induction fuel as [|fuel IH]; intros j output text H l k Hreach; [done|].
  destruct k as [|k]; [lia|].
  destruct (reach_first _ _ _ _ Hreach) as (c & nc & Hc & Hpc & Hcl).
  destruct (wf_parent_edge _ _ Hwf _ _ _ Hc Hpc) as (nj & key & Hj & Hin).
  destruct (graphviz_node_unfold fuel identifier t j nj output Hj Hok) as (b1 & Hu).
  rewrite Hu in H. apply bind_Ok in H as (out1 & Hch & _).
  revert Hch. generalize ((output ++ graphviz_statement identifier t j nj) ++ b1).
  revert Hin. generalize (edges nj). intros es.
  induction es as [|[key' c'] es IHes]; intros Hin out Hch.
  { by apply elem_of_nil in Hin. }
  apply bind_Ok in Hch as (nc' & Hc' & Hch).
  apply bind_Ok in Hch as (out2 & Hcall & Hch).
  apply elem_of_cons in Hin as [Heq|Hin].
  - injection Heq as <- <-. pose proof (IH _ _ _ Hcall _ _ Hcl). lia.
  - by eapply IHes.
Qed.

(** [to_graphviz()] returns exactly when the interpreter allows a recursion
    as deep as the tree.  On a tree that the two methods have left, with
    [fuel] nested calls allowed: if every node is less than [fuel] levels
    below the root, the call returns the header, the statement of the root,
    the rest of the graph and the closing brace; if some node is [fuel]
    levels or more below the root, the call ends with the exception of the
    recursion depth, and with nothing else. *)
Theorem to_graphviz_depth fuel identifier t output :
  made t →
  ((∀ j d, reach (nodes t) (root t) j d → (d < fuel)%nat) →
   ∃ nr body, nodes t !! root t = Some nr ∧
     to_graphviz fuel identifier t None output
     = Ok (graphviz_header ++ graphviz_statement identifier t (root t) nr
           ++ body ++ ["}"%char])) ∧
  (∀ j d, reach (nodes t) (root t) j d → (fuel ≤ d)%nat →
     to_graphviz fuel identifier t None output = Raise OutOfFuel).
Proof.
  intros Hmade. pose proof (made_made_inv _ Hmade) as [Hsh Hok _ _ _ _].
  destruct (wf_root _ _ Hsh) as (nr & Hr & _). split.
  - intros Hdeep.
    destruct (graphviz_node_deep_enough fuel identifier t (root t) nr
                graphviz_header Hsh Hok Hr Hdeep) as (body & Hg).
    exists nr, body. split; [done|]. unfold to_graphviz. rewrite Hg.
    by rewrite bool_decide_eq_true_2.
  - intros j d Hreach Hle. unfold to_graphviz.
    destruct (graphviz_node_outcome fuel identifier t (root t) graphviz_header
                Hsh Hok) as [(text & Ht)|Ht]; [by eapply lookup_lt_Some| |done].
    pose proof (graphviz_node_depth _ _ _ _ _ _ Hsh Hok Ht _ _ Hreach). lia.
Qed.

Lemma to_graphviz_depth_witness :
  made tree_B1 ∧
  (∃ nr body, nodes tree_B1 !! root tree_B1 = Some nr ∧
     to_graphviz (length (nodes tree_B1)) (λ i, i) tree_B1 None []
     = Ok (graphviz_header ++ graphviz_statement (λ i, i) tree_B1 (root tree_B1) nr
           ++ body ++ ["}"%char])) ∧
  to_graphviz 1 (λ i, i) tree_B1 None [] = Raise OutOfFuel.
Proof.
  assert (made tree_B1) as Hmade.
  { apply (made_find tree_B elements 2 result_B tree_B1);
      [exact (built_made _ _ built_B)|vm_compute; reflexivity]. }
  assert (∀ j d, reach (nodes tree_B1) (root tree_B1) j d →
            (d < length (nodes tree_B1))%nat) as Hdeep.
  { intros j d Hreach.
    pose proof (mi_shape _ (made_made_inv _ Hmade)) as Hsh.
    assert (j < length (nodes tree_B1))%nat as Hj.
    { inversion Hreach; subst; [vm_compute; lia|by eapply lookup_lt_Some]. }
    destruct (wf_reach _ _ Hsh j Hj) as (d' & Hd' & Hlt).
    by rewrite (reach_det _ _ _ _ _ (wf_root _ _ Hsh) Hreach Hd'). }
  assert (reach (nodes tree_B1) (root tree_B1) 12%nat 1%nat) as Hone.
  { eapply reach_step; [vm_compute; reflexivity|reflexivity|constructor]. }
  split; [exact Hmade|]. split.
  - exact (proj1 (to_graphviz_depth (length (nodes tree_B1)) (λ i, i) tree_B1 []
                    Hmade) Hdeep).
  - exact (proj2 (to_graphviz_depth 1 (λ i, i) tree_B1 [] Hmade) 12%nat 1%nat Hone
             (le_n 1)).
Defined.

(** ** Vectors and endings *)

(** In every tree that the two methods can leave, a vector has no bit
    beyond the appended strings: it lies between 0 and
    [2 ** strings_count - 1]. *)
Theorem bit_vectors_of_made t :
  made t →
  ∀ i n, nodes t !! i = Some n →
    0 ≤ bit_vector n < 2 ^ Z.of_nat (strings_count t).
Proof.
  intros Hmade i n Hi.
  pose proof (λ b, mi_bits _ (made_made_inv _ Hmade) i n b Hi) as Hbits. split.
  - destruct (decide (0 ≤ bit_vector n)) as [|Hneg]; [done|].
    apply Z.nle_gt, Z.bits_iff_neg_ex in Hneg as (k & Hk).
    assert (k < Z.max k (Z.of_nat (strings_count t)) + 1) as Hlt by lia.
    specialize (Hbits _ (Hk _ Hlt)). lia.
  - destruct (decide (bit_vector n < 2 ^ Z.of_nat (strings_count t))) as [|Hge]; [done|].
    apply Z.nlt_ge in Hge.
    assert (0 < bit_vector n) as Hpos.
    { pose proof (Z.pow_pos_nonneg 2 (Z.of_nat (strings_count t))). lia. }
    apply Z.log2_le_pow2 in Hge; [|done].
    specialize (Hbits _ (Z.bit_log2 _ Hpos)). lia.
Qed.

Lemma bit_vectors_of_made_witness :
  made tree_B1 ∧
  ∀ i n, nodes tree_B1 !! i = Some n →
    0 ≤ bit_vector n < 2 ^ Z.of_nat (strings_count tree_B1).
Proof.
  assert (made tree_B1) as Hmade.
  { apply (made_find tree_B elements 2 result_B tree_B1);
      [exact (built_made _ _ built_B)|vm_compute; reflexivity]. }
  split; [exact Hmade|]. apply (bit_vectors_of_made tree_B1 Hmade).
Defined.

Lemma to_uint_nonnil n : Nat.to_uint n ≠ Decimal.Nil.
Proof.
  pose proof (DecimalNat.Unsigned.to_of (Nat.to_uint n)) as H.
  rewrite DecimalNat.Unsigned.of_to in H. intros E. rewrite E in H. discriminate H.
Qed.

Lemma str_inj i j : str i = str j → i = j.
Proof.
  unfold str. intros H.
  apply (f_equal string_of_list_ascii) in H.
  rewrite !string_of_list_ascii_of_string in H.
  apply (f_equal NilZero.uint_of_string) in H.
  rewrite !NilZero.usu in H by apply to_uint_nonnil.
  injection H as H. by apply DecimalNat.Unsigned.to_uint_inj.
Qed.

(** The endings ['$' + str(i)] of different strings are different, so the
    strings are told apart; but an ending can begin another one, as ['$1']
    begins ['$10']: no ending is a single symbol that occurs nowhere else. *)
Theorem endings_differ :
  (∀ i j s s', terminated i s = terminated j s' → dollar ∉ s → dollar ∉ s' →
               i = j ∧ s = s') ∧
  is_prefix (dollar :: str 1) (dollar :: str 10) = true.
Proof.
  split; [|reflexivity]. intros i j s. unfold terminated.
  induction s as [|c s IH]; intros [|c' s'] H Hs Hs'; cbn [app] in H.
  - injection H as H. split; [by apply str_inj|done].
  - injection H as Hc _. exfalso. apply Hs'. rewrite <-Hc. left.
  - injection H as Hc _. exfalso. apply Hs. rewrite Hc. left.
  - injection H as -> H. apply not_elem_of_cons in Hs as [_ Hs].
    apply not_elem_of_cons in Hs' as [_ Hs'].
    destruct (IH _ H Hs Hs') as [-> ->]. done.
Qed.

(** ** The labels of the nodes *)

Lemma clamp_nonneg (s : pystr) i : 0 ≤ i → clamp s i = Z.to_nat (Z.min (len s) i).
Proof. intros Hi. unfold clamp. by rewrite (proj2 (Z.leb_le 0 i) Hi). Qed.

Lemma slice_app (s : pystr) a b c :
  0 ≤ a → a ≤ b → b ≤ c → slice s a b ++ slice s b c = slice s a c.
Proof.
  intros Ha Hab Hbc. unfold slice. rewrite !clamp_nonneg by lia.
  set (A := Z.to_nat (Z.min (len s) a)). set (B := Z.to_nat (Z.min (len s) b)).
  set (C := Z.to_nat (Z.min (len s) c)).
  assert (A ≤ B ≤ C)%nat as [HAB HBC] by (unfold A, B, C; lia).
  replace (drop B s) with (drop (B - A) (drop A s))
    by (rewrite drop_drop; f_equal; lia).
  rewrite take_take_drop. f_equal. lia.
Qed.

Lemma slice_extend (s more : pystr) a b :
  0 ≤ a → 0 ≤ b → b ≤ len s → slice (s ++ more) a b = slice s a b.
Proof.
  intros Ha Hb Hbs. unfold slice. rewrite !clamp_nonneg by lia.
  assert (len (s ++ more) = len s + len more) as Hlen
    by (unfold len; rewrite length_app; lia).
  assert (0 ≤ len more) by (unfold len; lia).
  replace (Z.min (len (s ++ more)) b) with (Z.min (len s) b) by lia.
  destruct (decide (a ≤ b)) as [Hab|Hab].
  - replace (Z.min (len (s ++ more)) a) with (Z.min (len s) a) by lia.
    assert (Z.to_nat (Z.min (len s) a) ≤ length s)%nat by (unfold len in *; lia).
    rewrite drop_app_le by done. apply take_app_le. rewrite length_drop.
    unfold len in *. lia.
  - replace (Z.to_nat (Z.min (len s) b) - Z.to_nat (Z.min (len (s ++ more)) a))%nat
      with 0%nat by lia.
    replace (Z.to_nat (Z.min (len s) b) - Z.to_nat (Z.min (len s) a))%nat
      with 0%nat by lia.
    done.
Qed.

Lemma slice_open (s : pystr) a b :
  0 ≤ a → len s ≤ b → slice s a b = slice s a (len s).
Proof.
  intros Ha Hb. unfold slice. rewrite !clamp_nonneg by (unfold len in *; lia).
  do 2 f_equal. lia.
Qed.

Lemma place_step_refl h : place_step h h.
Proof. intros i n Hi. eauto. Qed.

Lemma place_step_trans h1 h2 h3 :
  place_step h1 h2 → place_step h2 h3 → place_step h1 h3.
Proof.
  intros H1 H2 i n Hi. destruct (H1 _ _ Hi) as (n' & Hi' & ? & ? & ?).
  destruct (H2 _ _ Hi') as (n'' & Hi'' & ? & ? & ?).
  exists n''. split_and!; congruence.
Qed.

Lemma place_step_upd (h : arena) i n x :
  h !! i = Some n → parent x = parent n → start x = start n → end_ x = end_ n →
  place_step h (<[i := x]> h).
Proof.
  intros Hi Hp Hs He j nj Hj. rewrite (lookup_upd _ _ n) by done.
  case_decide; [|by eauto]. subst j. assert (nj = n) by congruence. subst nj.
  eauto.
Qed.

Lemma place_step_alloc (h : arena) x : place_step h (h ++ [x]).
Proof.
  intros i n Hi. exists n. rewrite lookup_app_l by eauto using lookup_lt_Some. done.
Qed.

Lemma place_step_assign f i (h h' : arena) :
  assign f i h = Ok h' →
  (∀ n, parent (f n) = parent n ∧ start (f n) = start n ∧ end_ (f n) = end_ n) →
  place_step h h'.
Proof.
  intros (n & Hi & ->)%assign_Ok Hf. destruct (Hf n) as (? & ? & ?).
  by apply (place_step_upd _ _ n).
Qed.

Lemma place_step_add_child (h h' : arena) self key s e child :
  add_child h self key s e = Ok (h', child) → place_step h h'.
Proof.
  intros (ns & Hs & -> & ->)%add_child_Ok.
  eapply place_step_trans; [apply place_step_alloc|].
  apply (place_step_upd _ _ ns); [|done..].
  rewrite lookup_app_l by eauto using lookup_lt_Some. done.
Qed.

Lemma place_step_link (h h' : arena) prev target :
  link h prev target = Ok h' → place_step h h'.
Proof.
  destruct prev as [p|]; simpl; [|intros [= <-]; apply place_step_refl].
  intros H. by eapply place_step_assign.
Qed.

Lemma label_of_eq h input j w w' : label_of h input j w → w = w' → label_of h input j w'.
Proof. by intros H <-. Qed.

Lemma labels_frame input h h' : place_step h h' → labels_kept input h h'.
Proof.
  intros Hstep j w Hl. induction Hl as [j n Hj Hp|j n p w Hj Hp _ IH].
  - destruct (Hstep _ _ Hj) as (n' & Hj' & Hp' & _).
    eapply label_root; [exact Hj'|by rewrite Hp'].
  - destruct (Hstep _ _ Hj) as (n' & Hj' & Hp' & Hs' & He').
    eapply label_of_eq; [eapply label_step; [exact Hj'|by rewrite Hp'|exact IH]|].
    unfold edge_label. by rewrite Hs', He'.
Qed.

Lemma labels_kept_trans input h1 h2 h3 :
  labels_kept input h1 h2 → labels_kept input h2 h3 → labels_kept input h1 h3.
Proof. intros H1 H2 j w Hl. auto. Qed.

Lemma label_of_det h input j w w' :
  label_of h input j w → label_of h input j w' → w = w'.
Proof.
  intros H. revert w'. induction H as [j n Hj Hp|j n p w Hj Hp _ IH]; intros w' H'.
  - inversion H'; subst; [done|congruence].
  - inversion H' as [|? n' p' w0 Hj' Hp' Hl']; subst; [congruence|].
    assert (n' = n) by congruence. subst n'.
    assert (p' = p) by congruence. subst p'. by rewrite (IH _ Hl').
Qed.

Lemma label_of_exists h input r j d :
  (∃ nr, h !! r = Some nr ∧ parent nr = None) →
  reach h r j d → ∃ w, label_of h input j w.
Proof.
  intros (nr & Hr & Hpr). induction 1 as [|j nj p d Hj Hp _ [w IH]].
  - exists []. by eapply label_root.
  - eexists. by eapply label_step.
Qed.

(** [path_label] computes the label of the path. *)
Lemma path_label_label fuel t r j d w acc :
  (∃ nr, nodes t !! r = Some nr ∧ parent nr = None) →
  label_of (nodes t) (input_string t) j w →
  reach (nodes t) r j d → (d < fuel)%nat →
  path_label fuel t j acc = Ok (w ++ acc).
Proof.
  intros (nr & Hr & Hpr) Hl. revert fuel d acc.
  induction Hl as [j n Hj Hp|j n p w Hj Hp _ IH]; intros fuel d acc Hreach Hd.
  - destruct fuel as [|fuel]; [lia|]. cbn [path_label]. unfold deref.
    rewrite Hj. simpl. by rewrite Hp.
  - destruct fuel as [|fuel]; [lia|]. cbn [path_label]. unfold deref.
    rewrite Hj. simpl. rewrite Hp.
    inversion Hreach as [|? nj p' d' Hj' Hp' Hreach']; subst; [congruence|].
    assert (nj = n) by congruence. subst nj.
    assert (p' = p) by congruence. subst p'.
    rewrite (IH fuel d' _ Hreach') by lia. by rewrite <-app_assoc.
Qed.

(** The nodes after an edge has been split: the inner node takes the first
    part of the edge, the node below keeps the rest. *)
Lemma split_edge_places (h h1 h2 h3 : arena) r an na key next nn s e x k2 sp :
  wf_shape h r →
  h !! an = Some na → dict_get key (edges na) = Some next → h !! next = Some nn →
  add_child h an key s e = Ok (h1, sp) →
  assign (set_start x) next h1 = Ok h2 →
  add_exisiting_node_as_child h2 sp k2 next = Ok h3 →
  sp = length h ∧ length h3 = S (length h) ∧
  (∃ sp', h3 !! sp = Some sp' ∧ parent sp' = Some an ∧ start sp' = s ∧
     end_ sp' = e) ∧
  (∃ nn', h3 !! next = Some nn' ∧ parent nn' = Some sp ∧ start nn' = x ∧
     end_ nn' = end_ nn) ∧
  (∀ i n, h !! i = Some n → i ≠ next →
     ∃ n', h3 !! i = Some n' ∧ parent n' = parent n ∧ start n' = start n ∧
       end_ n' = end_ n).
Proof.
  intros Hwf Hna Hget Hnn Hadd Hstart Hex.
  pose proof (dict_get_elem _ _ _ Hget) as Hin.
  assert (next ≠ an) as Hne.
  { intros Heq. subst next. exact (wf_no_loop _ _ _ _ _ Hwf Hna Hin). }
  pose proof (lookup_lt_Some _ _ _ Hnn) as Hlt.
  pose proof (lookup_lt_Some _ _ _ Hna) as Hlta.
  pose proof (add_child_lookup _ _ _ _ _ _ _ _ Hna Hadd) as Hl1.
  pose proof (add_child_step 0 _ _ _ _ _ _ _ Hadd) as (_ & Hlen1 & _ & _).
  apply add_child_Ok in Hadd as (_ & _ & -> & _).
  assert (h1 !! next = Some nn) as Hnn1.
  { rewrite Hl1, !decide_False by lia. done. }
  assert (h1 !! length h = Some (set_parent (Some an) (new_node s e))) as Hsp1.
  { rewrite Hl1, decide_False, decide_True by lia. done. }
  apply assign_Ok in Hstart as (nn1 & Hnn1' & ->).
  assert (nn1 = nn) by congruence. subst nn1.
  apply add_exisiting_node_as_child_Ok in Hex as (nn2 & ns & Hnn2 & Hns & ->).
  rewrite (lookup_upd _ _ nn) in Hnn2 by done. rewrite decide_True in Hnn2 by done.
  injection Hnn2 as <-.
  set (h2 := <[next := set_start x nn]> h1) in *.
  assert (h2 !! next = Some (set_start x nn)) as Hn2.
  { unfold h2. rewrite (lookup_upd _ _ nn) by done. by rewrite decide_True. }
  rewrite (lookup_upd _ _ (set_start x nn)) in Hns by done.
  rewrite decide_False in Hns by lia.
  assert (ns = set_parent (Some an) (new_node s e)) as ->.
  { unfold h2 in Hns. rewrite (lookup_upd _ _ nn) in Hns by done.
    rewrite decide_False in Hns by lia. congruence. }
  set (h2' := <[next := set_parent (Some (length h)) (set_start x nn)]> h2) in *.
  assert (h2' !! length h = Some (set_parent (Some an) (new_node s e))) as Hsp2.
  { unfold h2'. rewrite (lookup_upd _ _ (set_start x nn)) by done.
    rewrite decide_False by lia. unfold h2.
    rewrite (lookup_upd _ _ nn) by done. rewrite decide_False by lia. done. }
  split; [done|]. split.
  { unfold h2', h2. by rewrite !length_insert. }
  split; [|split].
  - eexists. split; [by apply (list_lookup_insert_eq h2'), (lookup_lt_Some _ _ _ Hsp2)|].
    done.
  - eexists. split.
    + rewrite (lookup_upd _ _ _ _ _ Hsp2), decide_False by lia. unfold h2'.
      rewrite (lookup_upd _ _ (set_start x nn)) by done. by rewrite decide_True.
    + done.
  - intros i n Hi Hnext. pose proof (lookup_lt_Some _ _ _ Hi).
    rewrite (lookup_upd _ _ _ _ _ Hsp2), decide_False by lia. unfold h2'.
    rewrite (lookup_upd _ _ (set_start x nn)) by done. rewrite decide_False by done.
    unfold h2. rewrite (lookup_upd _ _ nn) by done. rewrite decide_False by done.
    rewrite Hl1. case_decide; [|rewrite decide_False by lia; eauto].
    subst i. assert (n = na) by congruence. subst n. eauto.
Qed.

Lemma split_labels input (h h3 : arena) r an next nn x sp' nn' :
  wf_shape h r → h !! next = Some nn → parent nn = Some an →
  0 ≤ start nn → start nn ≤ x → x ≤ end_ nn →
  h3 !! length h = Some sp' → parent sp' = Some an → start sp' = start nn →
  end_ sp' = x →
  h3 !! next = Some nn' → parent nn' = Some (length h) → start nn' = x →
  end_ nn' = end_ nn →
  (∀ i n, h !! i = Some n → i ≠ next →
     ∃ n', h3 !! i = Some n' ∧ parent n' = parent n ∧ start n' = start n ∧
       end_ n' = end_ n) →
  labels_kept input h h3.
Proof.
  intros Hwf Hnn Hpn Hs Hsx Hxe Hsp Hpsp Hssp Hesp Hnn' Hpnn' Hsnn' Henn' Hother j w Hl.
  induction Hl as [j n Hj Hp|j n p w Hj Hp _ IH].
  - assert (j ≠ next) as Hne by (intros ->; congruence).
    destruct (Hother _ _ Hj Hne) as (n' & Hj' & Hp' & _).
    eapply label_root; [exact Hj'|by rewrite Hp'].
  - destruct (decide (j = next)) as [->|Hne].
    + assert (n = nn) by congruence. subst n.
      assert (p = an) by congruence. subst p.
      eapply label_of_eq.
      * eapply label_step; [exact Hnn'|exact Hpnn'|].
        eapply label_step; [exact Hsp|exact Hpsp|exact IH].
      * rewrite <-app_assoc. f_equal. unfold edge_label.
        rewrite Hssp, Hesp, Hsnn', Henn'. by apply slice_app.
    + destruct (Hother _ _ Hj Hne) as (n' & Hj' & Hp' & Hs' & He').
      eapply label_of_eq; [eapply label_step; [exact Hj'|by rewrite Hp'|exact IH]|].
      unfold edge_label. by rewrite Hs', He'.
Qed.

Lemma place_step_inv (h h' : arena) i n' :
  place_step h h' → h' !! i = Some n' → (i < length h)%nat →
  ∃ n, h !! i = Some n ∧ parent n' = parent n ∧ start n' = start n ∧
    end_ n' = end_ n.
Proof.
  intros Hstep Hi Hlt. destruct (lookup_lt_is_Some_2 _ _ Hlt) as [n Hn].
  destruct (Hstep _ _ Hn) as (n'' & Hn'' & ? & ? & ?).
  assert (n'' = n') by congruence. subst n''. eauto.
Qed.

Section construction_labels.
Variable input : pystr.
Variable r : nat.
Variable k : nat.
Variable start_index : Z.
Variable old : arena.

Local Abbreviation builder_inv := (builder_inv r k start_index old).
Local Abbreviation geom_inv := (geom_inv r).

(** One iteration of the [while] loop keeps the edges within the buffer and
    the labels of the nodes. *)
Lemma extend_geom index s f s' :
  builder_inv index s → 0 ≤ index → geom_inv index s →
  extend input r k index s = Ok (f, s') →
  geom_inv index s' ∧ labels_kept input (b_nodes s) (b_nodes s').
Proof.
  intros Hinv Hidx [Hst Hen] H. unfold extend in H.
  pose proof (bi_shape _ _ _ _ _ _ Hinv) as Hwf.
  pose proof (bi_length _ _ _ _ _ _ Hinv) as Hal.
  apply bind_Ok in H as (key & Hkey & H).
  apply bind_Ok in H as (na & Hna & H). apply get_some_Ok in Hna.
  destruct (dict_get key (edges na)) as [next|] eqn:Hget.
  - apply bind_Ok in H as (nn & Hnn & H). apply get_some_Ok in Hnn.
    destruct (active_length s >=? get_edge_length nn index) eqn:Hwalk.
    { injection H as <- <-. split; [by split|]. by intros j w. }
    apply bind_Ok in H as (c1 & Hc1 & H).
    apply bind_Ok in H as (c2 & Hc2 & H).
    destruct (decide (c1 = c2)) as [->|Hc].
    { apply bind_Ok in H as (h1 & Hlink & H). injection H as <- <-.
      pose proof (place_step_link _ _ _ _ Hlink) as Hps.
      destruct (link_shape_step index _ _ _ _ Hlink) as [[Hlen _] _].
      split; [|by apply labels_frame]. split; simpl.
      - intros i n Hi. pose proof (lookup_lt_Some _ _ _ Hi) as Hlt. rewrite Hlen in Hlt.
        destruct (place_step_inv _ _ _ _ Hps Hi Hlt) as (n0 & Hn0 & _ & -> & ->).
        eauto.
      - intros i n Hi Hir Hnl. pose proof (lookup_lt_Some _ _ _ Hi) as Hlt.
        rewrite Hlen in Hlt.
        destruct (place_step_inv _ _ _ _ Hps Hi Hlt) as (n0 & Hn0 & _ & _ & ->).
        eauto. }
    apply bind_Ok in H as ([h1 sp] & Hadd & H).
    apply bind_Ok in H as (nn1 & Hnn1 & H). apply get_some_Ok in Hnn1.
    apply bind_Ok in H as (h2 & Hstart & H).
    apply bind_Ok in H as (nn2 & Hnn2 & H). apply get_some_Ok in Hnn2.
    apply bind_Ok in H as (k2 & Hk2 & H).
    apply bind_Ok in H as (h3 & Hex & H).
    apply bind_Ok in H as (k3 & Hk3 & H).
    apply bind_Ok in H as ([h4 leaf] & Hadd2 & H).
    apply bind_Ok in H as (h5 & Hbv & H).
    apply bind_Ok in H as (h6 & Hlink & H).
    apply bind_Ok in H as (s1 & Hfollow & H). injection H as <- <-.
    destruct (split_edge_wf _ _ _ _ _ _ _ _ _ _ _ _ _ _ _ Hwf Hna Hget Hnn Hadd Hstart Hex)
      as (_ & Hnext1 & _).
    assert (nn1 = nn) by congruence. subst nn1.
    destruct (split_edge_places _ _ _ _ _ _ _ _ _ _ _ _ _ _ _ Hwf Hna Hget Hnn Hadd
                Hstart Hex)
      as (-> & Hlen3 & (sp' & Hsp & Hpsp & Hssp & Hesp)
          & (nn' & Hnn' & Hpnn' & Hsnn' & Henn') & Hother).
    pose proof (new_leaf_step _ _ _ _ _ _ _ _ Hadd2 Hbv)
      as (-> & Hlen5 & _ & _ & nl & Hnl & _ & Hnl_s & Hnl_e).
    pose proof (place_step_link _ _ _ _ Hlink) as Hps6.
    destruct (link_shape_step index _ _ _ _ Hlink) as [[Hlen6 _] _].
    assert (place_step h3 h6) as Hps36.
    { eapply place_step_trans; [by eapply place_step_add_child|].
      eapply place_step_trans; [|exact Hps6]. by eapply place_step_assign. }
    destruct (follow_Ok _ _ _ _ Hfollow) as (Hn1 & Hl1 & _ & _ & _).
    simpl in Hn1, Hl1.
    destruct (wf_edge_parent _ _ Hwf _ _ _ _ Hna (dict_get_elem _ _ _ Hget))
      as (nn0 & Hnn0 & Hpn).
    assert (nn0 = nn) by congruence. subst nn0.
    destruct (Hst _ _ Hnn) as [Hs0 He0].
    assert (start nn + active_length s < end_ nn ∧
            start nn + active_length s < index + 1) as [Hx1 Hx2].
    { unfold get_edge_length in Hwalk. lia. }
    pose proof (lookup_lt_Some _ _ _ Hnn) as Hltn.
    split.
    + split; rewrite ?Hn1, ?Hl1.
      * intros i n Hi. pose proof (lookup_lt_Some _ _ _ Hi) as Hlt.
        rewrite Hlen6, Hlen5, Hlen3 in Hlt.
        destruct (decide (i = S (length (b_nodes s)))) as [->|Hne1].
        { rewrite <-Hlen3 in Hi. destruct (Hps6 _ _ Hnl) as (n6 & Hn6 & _ & Hs6 & He6).
          assert (n6 = n) by congruence. subst n6. rewrite Hs6, He6, Hnl_s, Hnl_e.
          unfold END_OF_STRING. lia. }
        destruct (place_step_inv _ _ _ _ Hps36 Hi ltac:(lia)) as (n3 & Hn3 & _ & -> & ->).
        destruct (decide (i = length (b_nodes s))) as [->|Hne2].
        { assert (n3 = sp') by congruence. subst n3. lia. }
        destruct (decide (i = next)) as [->|Hne3].
        { assert (n3 = nn') by congruence. subst n3. lia. }
        destruct (lookup_lt_is_Some_2 (b_nodes s) i) as [n0 Hn0]; [lia|].
        destruct (Hother _ _ Hn0 Hne3) as (n3' & Hn3' & _ & Hs3 & He3).
        assert (n3' = n3) by congruence. subst n3'. rewrite Hs3, He3. eauto.
      * intros i n Hi Hir Hnl'. pose proof (lookup_lt_Some _ _ _ Hi) as Hlt.
        rewrite Hlen6, Hlen5, Hlen3 in Hlt.
        apply not_elem_of_app in Hnl' as [Hnl1 Hnl2].
        apply not_elem_of_cons in Hnl2 as [Hnl2 _]. rewrite Hlen3 in Hnl2.
        destruct (place_step_inv _ _ _ _ Hps36 Hi ltac:(lia)) as (n3 & Hn3 & _ & _ & ->).
        destruct (decide (i = length (b_nodes s))) as [->|Hne2].
        { assert (n3 = sp') by congruence. subst n3. lia. }
        destruct (decide (i = next)) as [->|Hne3].
        { assert (n3 = nn') by congruence. subst n3. rewrite Henn'. eauto. }
        destruct (lookup_lt_is_Some_2 (b_nodes s) i) as [n0 Hn0]; [lia|].
        destruct (Hother _ _ Hn0 Hne3) as (n3' & Hn3' & _ & _ & He3).
        assert (n3' = n3) by congruence. subst n3'. rewrite He3. eauto.
    + rewrite Hn1. eapply labels_kept_trans; [|by apply labels_frame].
      eapply (split_labels input (b_nodes s) h3 r (active_node s) next nn
                (start nn + active_length s) sp' nn'); try done; lia.
  - apply bind_Ok in H as ([h1 leaf] & Hadd & H).
    apply bind_Ok in H as (h2 & Hbv & H).
    apply bind_Ok in H as (h3 & Hlink & H).
    apply bind_Ok in H as (s1 & Hfollow & H). injection H as <- <-.
    pose proof (new_leaf_step _ _ _ _ _ _ _ _ Hadd Hbv)
      as (-> & Hlen2 & _ & _ & nl & Hnl & _ & Hnl_s & Hnl_e).
    pose proof (place_step_link _ _ _ _ Hlink) as Hps3.
    destruct (link_shape_step index _ _ _ _ Hlink) as [[Hlen3 _] _].
    assert (place_step (b_nodes s) h3) as Hps.
    { eapply place_step_trans; [by eapply place_step_add_child|].
      eapply place_step_trans; [|exact Hps3]. by eapply place_step_assign. }
    destruct (follow_Ok _ _ _ _ Hfollow) as (Hn1 & Hl1 & _ & _ & _).
    simpl in Hn1, Hl1.
    split; [|by rewrite Hn1; apply labels_frame]. split; rewrite ?Hn1, ?Hl1.
    + intros i n Hi. pose proof (lookup_lt_Some _ _ _ Hi) as Hlt.
      rewrite Hlen3, Hlen2 in Hlt.
      destruct (decide (i = length (b_nodes s))) as [->|Hne].
      { destruct (Hps3 _ _ Hnl) as (n3 & Hn3 & _ & Hs3 & He3).
        assert (n3 = n) by congruence. subst n3. rewrite Hs3, He3, Hnl_s, Hnl_e.
        unfold END_OF_STRING. lia. }
      destruct (place_step_inv _ _ _ _ Hps Hi ltac:(lia)) as (n0 & Hn0 & _ & -> & ->).
      eauto.
    + intros i n Hi Hir Hnl'. pose proof (lookup_lt_Some _ _ _ Hi) as Hlt.
      rewrite Hlen3, Hlen2 in Hlt.
      apply not_elem_of_app in Hnl' as [Hnl1 Hnl2].
      apply not_elem_of_cons in Hnl2 as [Hnl2 _].
      destruct (place_step_inv _ _ _ _ Hps Hi ltac:(lia)) as (n0 & Hn0 & _ & _ & ->).
      eauto.
Qed.

Lemma while_remainder_geom fuel index s s' :
  builder_inv index s → start_index ≤ index → 0 ≤ index → geom_inv index s →
  while_remainder input r k fuel index s = Ok s' →
  geom_inv index s' ∧ labels_kept input (b_nodes s) (b_nodes s').
Proof.
  revert s. induction fuel as [|fuel IH]; intros s Hinv Hidx Hidx0 Hg; simpl.
  - destruct (0 <? remainder s); [discriminate|]. intros [= <-].
    split; [done|by intros j w].
  - destruct (0 <? remainder s) eqn:Hpos; [|intros [= <-]; split; [done|by intros j w]].
    intros H. apply bind_Ok in H as ([f s1] & Hext & H).
    pose proof (extend_inv _ _ _ _ _ _ _ _ _ Hinv Hidx ltac:(lia) Hext) as Hinv1.
    destruct (extend_geom _ _ _ _ Hinv Hidx0 Hg Hext) as [Hg1 Hl1].
    destruct f; [|by injection H as <-].
    destruct (IH s1 Hinv1 Hidx Hidx0 Hg1 H) as [Hg2 Hl2].
    split; [done|by eapply labels_kept_trans].
Qed.

Lemma for_index_geom fuel index s s' :
  builder_inv (index - 1) s → start_index ≤ index → 0 ≤ index →
  geom_inv (index - 1) s →
  for_index input r k fuel s index = Ok s' →
  geom_inv index s' ∧ labels_kept input (b_nodes s) (b_nodes s').
Proof.
  intros Hinv Hidx Hidx0 [Hst Hen] H.
  destruct Hinv as [Hsh Hal Hrem Hcnt Hgrow Hold Hnew Hinner].
  apply (while_remainder_geom fuel index _ s') in H; try done.
  - split; simpl; try done; [lia | lia |].
    intros i Hi. destruct (Hnew i Hi) as (Hge & n & Hn & Hb & Hs & He).
    split; [done|]. exists n. unfold open_leaf. split_and!; [done|done|lia|lia|done].
  - split; simpl; [done|]. intros i n Hi Hir Hnl. specialize (Hen _ _ Hi Hir Hnl). lia.
Qed.

Lemma main_circle_geom fuel (c : nat) m s s' :
  builder_inv (m - 1) s → start_index ≤ m → 0 ≤ m → geom_inv (m - 1) s →
  main_circle input r k fuel s (seqZ m (Z.of_nat c)) = Ok s' →
  geom_inv (m + Z.of_nat c - 1) s' ∧ labels_kept input (b_nodes s) (b_nodes s').
Proof.
  revert m s. induction c as [|c IH]; intros m s Hinv Hm Hm0 Hg.
  - simpl. intros [= <-]. rewrite Z.add_0_r. split; [done|by intros j w].
  - rewrite seqZ_cons by lia. simpl. intros H.
    apply bind_Ok in H as (s1 & Hfor & H).
    pose proof (for_index_inv _ _ _ _ _ _ _ _ _ Hinv Hm Hfor) as Hinv1.
    destruct (for_index_geom _ _ _ _ Hinv Hm Hm0 Hg Hfor) as [Hg1 Hl1].
    replace (Z.pred (Z.of_nat (S c))) with (Z.of_nat c) in H by lia.
    destruct (IH (Z.succ m) s1) as [Hg2 Hl2]; [| lia | lia | | exact H |].
    + by replace (Z.succ m - 1) with m by lia.
    + by replace (Z.succ m - 1) with m by lia.
    + split; [|by eapply labels_kept_trans].
      by replace (m + Z.of_nat (S c) - 1) with (Z.succ m + Z.of_nat c - 1) by lia.
Qed.
End construction_labels.

Lemma labels_frame_gen input (h h' : arena) :
  (∀ i n, h !! i = Some n →
     ∃ n', h' !! i = Some n' ∧ parent n' = parent n ∧
       edge_label input n' = edge_label input n) →
  labels_kept input h h'.
Proof.
  intros Hstep j w Hl. induction Hl as [j n Hj Hp|j n p w Hj Hp _ IH].
  - destruct (Hstep _ _ Hj) as (n' & Hj' & Hp' & _).
    eapply label_root; [exact Hj'|by rewrite Hp'].
  - destruct (Hstep _ _ Hj) as (n' & Hj' & Hp' & He').
    eapply label_of_eq; [eapply label_step; [exact Hj'|by rewrite Hp'|exact IH]|].
    by rewrite He'.
Qed.

(** Text added at the end of the buffer leaves the labels alone, as every
    edge ends within the buffer. *)
Lemma label_of_extend (h : arena) (input more : pystr) r j w :
  (∃ nr, h !! r = Some nr ∧ parent nr = None) →
  (∀ i n, h !! i = Some n → 0 ≤ start n ∧ 0 ≤ end_ n) →
  (∀ i n, h !! i = Some n → i ≠ r → end_ n ≤ len input) →
  label_of h input j w → label_of h (input ++ more) j w.
Proof.
  intros (nr & Hr & Hpr) Hst Hen Hl.
  induction Hl as [j n Hj Hp|j n p w Hj Hp _ IH].
  - by eapply label_root.
  - assert (j ≠ r) as Hjr by (intros ->; congruence).
    destruct (Hst _ _ Hj) as [Hs He]. specialize (Hen _ _ Hj Hjr).
    eapply label_of_eq; [eapply label_step; [exact Hj|exact Hp|exact IH]|].
    unfold edge_label. by rewrite slice_extend.
Qed.

Lemma geom_ok_new : geom_ok new_tree.
Proof.
  split; simpl.
  - intros [|i] n; simpl; [|done]. intros [= <-]. simpl. unfold END_OF_STRING. lia.
  - intros [|i] n; simpl; done.
Qed.

Lemma geom_ok_find set_order t m r t' :
  geom_ok t → find_common_substrings set_order t m = Ok (r, t') → geom_ok t'.
Proof.
  intros [Hst Hen] (lca & Hp & _)%find_common_substrings_Ok.
  pose proof (propagation_Ok _ _ _ Hp) as (Hr & Hin & _ & _ & _ & lca0 & Hpp).
  pose proof (propagate_frame _ _ _ _ _ _ Hpp) as [Hlen Hbv].
  assert (∀ i n', nodes t' !! i = Some n' →
            ∃ n, nodes t !! i = Some n ∧ start n' = start n ∧ end_ n' = end_ n)
    as Hback.
  { intros i n' Hi. pose proof (lookup_lt_Some _ _ _ Hi) as Hlt. rewrite Hlen in Hlt.
    destruct (lookup_lt_is_Some_2 _ _ Hlt) as [n Hn].
    destruct (Hbv _ _ Hn) as (n'' & Hn'' & Heq).
    assert (n'' = n') by congruence. subst n''. exists n. rewrite Heq. done. }
  split; rewrite ?Hr, ?Hin.
  - intros i n' Hi. destruct (Hback _ _ Hi) as (n & Hn & -> & ->). eauto.
  - intros i n' Hi Hir. destruct (Hback _ _ Hi) as (n & Hn & _ & ->). eauto.
Qed.

(** A call of [append_string] that returns keeps the edges within the buffer,
    and, as long as the buffer is not longer than [END_OF_STRING], the labels
    of the nodes that were there. *)
Lemma append_string_labels fuel t s c t' :
  wf_shape (nodes t) (root t) → geom_ok t →
  append_string fuel t s c = Ok t' →
  geom_ok t' ∧
  (len (input_string t') ≤ END_OF_STRING →
   ∀ j w, label_of (nodes t) (input_string t) j w →
     label_of (nodes t') (input_string t') j w).
Proof.
  intros Hsh [Hst Hen] H. pose proof (initial_builder_inv t Hsh) as Hinv0.
  unfold append_string, build in H.
  cbn [register root nodes input_string strings_count leaves classes] in H.
  apply bind_Ok in H as (sf & Hmain & H).
  apply bind_Ok in H as (h' & Hends & H). injection H as <-.
  cbn [root nodes input_string leaves strings_count].
  set (more := s ++ dollar :: str (strings_count t)) in *.
  set (input' := input_string t ++ more) in *.
  assert (len input' - len (input_string t) = Z.of_nat (length more)) as Hmore.
  { unfold input', len. rewrite !length_app. lia. }
  rewrite Hmore in Hmain.
  assert (0 ≤ len (input_string t)) as Hlen0 by (unfold len; lia).
  assert (geom_inv (root t) (len (input_string t) - 1)
            (mkBuilder (nodes t) (root t) 0 0 0 None [])) as Hg0.
  { split; simpl; [done|]. intros i n Hi Hir _. specialize (Hen _ _ Hi Hir). lia. }
  pose proof (main_circle_inv _ _ _ _ _ _ _ _ _ _ Hinv0 ltac:(lia) Hmain) as Hinv1.
  destruct (main_circle_geom _ _ _ _ _ _ _ _ _ _ Hinv0 ltac:(lia) Hlen0 Hg0 Hmain)
    as [[Hst1 Hen1] Hkept].
  cbn [b_nodes] in Hkept.
  replace (len (input_string t) + Z.of_nat (length more) - 1)
    with (len input' - 1) in * by lia.
  destruct (update_ends_Ok _ _ _ _ Hends) as [[Hlen' Hsame] Hfields].
  pose proof (bi_new _ _ _ _ _ _ Hinv1) as Hnew.
  assert (∀ i n', h' !! i = Some n' →
            ∃ n, b_nodes sf !! i = Some n ∧ start n' = start n ∧
              end_ n' = if decide (i ∈ new_leaves sf) then len input' else end_ n)
    as Hback.
  { intros i n' Hi. pose proof (lookup_lt_Some _ _ _ Hi) as Hlt. rewrite Hlen' in Hlt.
    destruct (lookup_lt_is_Some_2 _ _ Hlt) as [n Hn].
    destruct (Hfields _ _ Hn) as (n'' & Hn'' & _ & Hs & He).
    assert (n'' = n') by congruence. subst n''. eauto. }
  split.
  - split; cbn [root nodes input_string].
    + intros i n' Hi. destruct (Hback _ _ Hi) as (n & Hn & -> & ->).
      destruct (Hst1 _ _ Hn). destruct (decide _); unfold len; lia.
    + intros i n' Hi Hir. destruct (Hback _ _ Hi) as (n & Hn & _ & ->).
      destruct (decide (i ∈ new_leaves sf)) as [|Hnl]; [lia|].
      specialize (Hen1 _ _ Hn Hir Hnl). lia.
  - intros Hbig j w Hl.
    assert (label_of (nodes t) input' j w) as Hl1.
    { eapply label_of_extend; [apply (wf_root _ _ Hsh)|exact Hst|exact Hen|exact Hl]. }
    apply Hkept in Hl1. clear Hl. revert j w Hl1. apply labels_frame_gen.
    intros i n Hi. destruct (Hsame _ _ Hi) as (n' & Hi' & Hp' & _).
    destruct (Hfields _ _ Hi) as (n'' & Hn'' & _ & Hs & He).
    assert (n'' = n') by congruence. subst n''.
    exists n'. split_and!; [done|done|]. unfold edge_label. rewrite Hs, He.
    destruct (decide (i ∈ new_leaves sf)) as [Hnl|]; [|done].
    destruct (Hnew _ Hnl) as (_ & n0 & Hn0 & _ & _ & Hopen).
    assert (n0 = n) by congruence. subst n0. rewrite Hopen.
    destruct (Hst1 _ _ Hi) as [Hs0 _]. symmetry. by apply slice_open.
Qed.

Lemma made_geom t : made t → geom_ok t.
Proof.
  induction 1 as [|t fuel s c t' Hm IH Happ|t o m r t' _ IH Hf].
  - apply geom_ok_new.
  - by destruct (append_string_labels _ _ _ _ _
                   (mi_shape _ (made_made_inv _ Hm)) IH Happ).
  - by eapply geom_ok_find.
Qed.

(** What a node spells does not change when a string is added.  On a tree
    that the two methods have left, a call of [append_string] that returns
    keeps, for every node that was there, the text read on the way up to the
    root (the loop of lines 252-255), although edges above the node may have
    been split by the call; the buffer must not be longer than
    [END_OF_STRING], which stands for the open end of a leaf. *)
Theorem append_string_keeps_labels fuel t s c t' :
  made t → append_string fuel t s c = Ok t' →
  len (input_string t') ≤ END_OF_STRING →
  ∀ j, (j < length (nodes t))%nat →
    ∃ w, path_label (length (nodes t)) t j [] = Ok w ∧
         path_label (length (nodes t')) t' j [] = Ok w.
Proof.
  intros Hm Happ Hbig j Hj.
  pose proof (made_made_inv _ Hm) as Hinv.
  pose proof (mi_shape _ Hinv) as Hsh.
  pose proof (mi_shape _ (made_made_inv _ (made_append _ _ _ _ _ Hm Happ))) as Hsh'.
  destruct (append_string_labels _ _ _ _ _ Hsh (made_geom _ Hm) Happ) as [_ Hkept].
  destruct (wf_reach _ _ Hsh _ Hj) as (d & Hreach & Hd).
  destruct (label_of_exists _ (input_string t) _ _ _ (wf_root _ _ Hsh) Hreach)
    as [w Hl].
  exists w. split.
  - rewrite <-(app_nil_r w).
    by eapply path_label_label; [apply (wf_root _ _ Hsh)|..].
  - pose proof (Hkept Hbig _ _ Hl) as Hl'.
    assert (j < length (nodes t'))%nat as Hj'.
    { inversion Hl'; subst; by eapply lookup_lt_Some. }
    destruct (wf_reach _ _ Hsh' _ Hj') as (d' & Hreach' & Hd').
    rewrite <-(app_nil_r w).
    by eapply path_label_label; [apply (wf_root _ _ Hsh')|..].
Qed.

Lemma append_string_keeps_labels_witness :
  made tree_B ∧ append_string 200 tree_B ("ba" : pystr) None = Ok tree_B_ba ∧
  len (input_string tree_B_ba) ≤ END_OF_STRING ∧
  ∀ j, (j < length (nodes tree_B))%nat →
    ∃ w, path_label (length (nodes tree_B)) tree_B j [] = Ok w ∧
         path_label (length (nodes tree_B_ba)) tree_B_ba j [] = Ok w.
Proof.
  assert (made tree_B) as Hmade by exact (built_made _ _ built_B).
  assert (append_string 200 tree_B ("ba" : pystr) None = Ok tree_B_ba) as Happ
    by (vm_compute; reflexivity).
  assert (len (input_string tree_B_ba) ≤ END_OF_STRING) as Hbig
    by (vm_compute; discriminate).
  split; [exact Hmade|]. split; [exact Happ|]. split; [exact Hbig|].
  apply (append_string_keeps_labels 200 tree_B ("ba" : pystr) None tree_B_ba
           Hmade Happ Hbig).
Defined.

(** The length that lines 263 and 333 compute by a subtraction is the length
    of the label that lines 253 and 324 cut out.  On a tree that the two
    methods have left, the edge of every node but the root lies within the
    buffer: its indices are not negative and its end is not beyond the end
    of the buffer, so that the slice [input_string[start:end]] is not cut
    short and has [end - start] symbols, or none when that is negative. *)
Theorem edges_within_buffer t i n :
  made t → nodes t !! i = Some n → i ≠ root t →
  0 ≤ start n ∧ 0 ≤ end_ n ≤ len (input_string t) ∧
  len (slice (input_string t) (start n) (end_ n)) = Z.max 0 (end_ n - start n).
Proof.
  intros Hm Hi Hir. destruct (made_geom _ Hm) as [Hst Hen].
  destruct (Hst _ _ Hi) as [Hs He]. specialize (Hen _ _ Hi Hir).
  split; [done|]. split; [done|].
  unfold slice. rewrite !clamp_nonneg by done. unfold len in *.
  rewrite length_take, length_drop. lia.
Qed.

Lemma edges_within_buffer_witness :
  made tree_B ∧ 1%nat ≠ root tree_B ∧
  ∃ n, nodes tree_B !! 1%nat = Some n ∧
    0 ≤ start n ∧ 0 ≤ end_ n ≤ len (input_string tree_B) ∧
    len (slice (input_string tree_B) (start n) (end_ n)) = Z.max 0 (end_ n - start n).
Proof.
  assert (made tree_B) as Hmade by exact (built_made _ _ built_B).
  assert (1%nat ≠ root tree_B) as Hne by (vm_compute; discriminate).
  assert (∃ n, nodes tree_B !! 1%nat = Some n) as [n Hn]
    by (eexists; vm_compute; reflexivity).
  split; [exact Hmade|]. split; [exact Hne|]. exists n. split; [exact Hn|].
  apply (edges_within_buffer tree_B 1%nat n Hmade Hn Hne).
Defined.
